(** * portapps: filesystem and shell helpers (sys.go) and the release
      target of build-app.xml

    The Go functions of [sys.go] are embedded as programs over the calls
    they make into the Go runtime ([os], [io], [ioutil], [go-ole], the
    logger).  A program is a tree of such calls; running it against a
    handler for the calls gives the returned value, the final state of
    the machine and the sequence of calls that were made.  The pure
    helpers of package [strings] that the code uses are written out. *)

From stdpp Require Import gmap strings list fin_maps.
From Stdlib Require Import Ascii.

(** ** Package [strings] of the Go standard library

    Go strings are byte sequences, as are Rocq's. *)

Module Strings.

(** [s[n:]] *)
Fixpoint from (n : nat) (s : string) : string :=
  match n, s with
  | 0, _ => s
  | S n', String _ s' => from n' s'
  | S _, EmptyString => EmptyString
  end.

(** [s[:n]] *)
Definition upto (n : nat) (s : string) : string := String.substring 0 n s.

(** [strings.HasPrefix]:
    [len(s) >= len(prefix) && s[:len(prefix)] == prefix]. *)
Definition HasPrefix (s prefix : string) : bool :=
  (String.length prefix <=? String.length s)%nat
  && String.eqb (upto (String.length prefix) s) prefix.

(** [strings.Index]: position of the first instance of [substr] in [s]
    ([None] for Go's -1). *)
Fixpoint Index (s substr : string) : option nat :=
  if HasPrefix s substr then Some 0
  else match s with
       | EmptyString => None
       | String _ s' => S <$> Index s' substr
       end.

(** The loop of [strings.Count] for a non-empty [substr]; every turn
    drops at least one byte of [s], so [String.length s] turns are
    enough. *)
Fixpoint Count_loop (fuel : nat) (s substr : string) : nat :=
  match fuel with
  | 0 => 0
  | S fuel' =>
      match Index s substr with
      | None => 0
      | Some i => S (Count_loop fuel' (from (i + String.length substr) s) substr)
      end
  end.

(** [strings.Count]; for the empty [substr] Go counts the code points
    plus one, which is the number of bytes plus one on ASCII text. *)
Definition Count (s substr : string) : nat :=
  if String.eqb substr "" then S (String.length s)
  else Count_loop (String.length s) s substr.

(** The loop of [genSplit]: [n] more separators are cut. *)
Fixpoint genSplit_loop (n : nat) (s sep : string) : list string :=
  match n with
  | 0 => [s]
  | S n' =>
      match Index s sep with
      | None => [s]
      | Some m => upto m s :: genSplit_loop n' (from (m + String.length sep) s) sep
      end
  end.

(** [explode] for the empty separator: one string per byte (Go cuts
    after each UTF-8 sequence). *)
Fixpoint explode (s : string) : list string :=
  match s with
  | EmptyString => []
  | String c s' => String c EmptyString :: explode s'
  end.

(** [strings.Split(s, sep)], that is [genSplit(s, sep, 0, -1)]. *)
Definition Split (s sep : string) : list string :=
  if String.eqb sep "" then explode s
  else genSplit_loop (Count s sep) s sep.

(** [strings.Join]: the first element, then separator and element for
    each of the others. *)
Definition Join (elems : list string) (sep : string) : string :=
  match elems with
  | [] => ""
  | e0 :: rest => fold_left (λ b s, b +:+ sep +:+ s) rest e0
  end.

End Strings.

(** ** PathJoin *)

Definition backslash : string := "\".

(** [for i, e := range elem { if e != "" { return strings.Join(elem[i:], `\`) } }]
    with [rest] the elements from index [i] on. *)
Fixpoint PathJoin_range (elem : list string) (i : nat) (rest : list string) : string :=
  match rest with
  | [] => ""
  | e :: rest' =>
      if negb (String.eqb e "") then Strings.Join (drop i elem) backslash
      else PathJoin_range elem (S i) rest'
  end.

Definition PathJoin (elem : list string) : string := PathJoin_range elem 0 elem.

(** The spec's wording: leading empty segments are skipped. *)
Fixpoint skip_leading_empty (elem : list string) : list string :=
  match elem with
  | "" :: rest => skip_leading_empty rest
  | _ => elem
  end.

(** ** Values of the Go runtime *)

(** Go [error] values: [None] is [nil]. *)
Inductive errno : Type :=
  | ErrNotExist | ErrExist | ErrInvalid | ErrPermission
  | ENOTDIR | EISDIR | ENOSPC | EBUSY | EOF
  | EOle (hresult : N).

Definition error : Type := option errno.

Global Instance errno_eq_dec : EqDecision errno.
Proof. solve_decision. Defined.

(** [os.IsNotExist] *)
Definition IsNotExist (err : errno) : bool :=
  match err with ErrNotExist => true | _ => false end.

(** [os.FileInfo], as far as the code reads it. *)
Record FileInfo : Type := { Name : string; IsDir : bool }.

(** The target of an [*os.File]; the pointer itself is an [option File],
    [None] being the nil pointer. *)
Record File : Type := { file_name : string }.

(** COM interface pointers and the value of a [VARIANT]; 0 is nil. *)
Definition ptr : Type := nat.

(** Arguments of a log line. *)
Inductive fmtarg : Type := ArgString (s : string) | ArgError (e : errno).

Global Instance FileInfo_eq_dec : EqDecision FileInfo.
Proof. solve_decision. Defined.
Global Instance File_eq_dec : EqDecision File.
Proof. solve_decision. Defined.
Global Instance fmtarg_eq_dec : EqDecision fmtarg.
Proof. solve_decision. Defined.

(** ** Calls into the runtime, and programs over them *)

Inductive call : Type :=
  | os_Stat (name : string)
  | os_MkdirAll (path : string) (perm : N)
  | os_Open (name : string)
  | os_Create (name : string)
  | os_RemoveAll (path : string)
  | File_Readdir (f : File) (n : Z)
  | File_Readdirnames (f : File) (n : Z)
  | File_WriteString (f : File) (s : string)
  | File_Sync (f : File)
  | File_Close (f : File)
  | io_Copy (dst src : File)
  | ioutil_ReadFile (filename : string)
  | ioutil_WriteFile (filename data : string) (perm : N)
  | Log_Infof (format : string) (args : list fmtarg)
  | Log_Fatalf (format : string) (args : list fmtarg)
  | runtime_LockOSThread
  | runtime_UnlockOSThread
  | ole_CoInitializeEx (p coinit : N)
  | ole_CoUninitialize
  | oleutil_CreateObject (programID : string)
  | ole_QueryInterface (obj : ptr) (iid : string)
  | ole_Release (obj : ptr)
  | oleutil_CallMethod (disp : ptr) (name : string) (params : list string)
  | oleutil_PutProperty (disp : ptr) (name : string) (value : string).

Global Instance call_eq_dec : EqDecision call.
Proof. solve_decision. Defined.

(** What each call gives back. *)
Definition reply (c : call) : Type :=
  match c with
  | os_Stat _ => option FileInfo * error
  | os_MkdirAll _ _ => error
  | os_Open _ | os_Create _ => option File * error
  | os_RemoveAll _ => error
  | File_Readdir _ _ => list FileInfo * error
  | File_Readdirnames _ _ => list string * error
  | File_WriteString _ _ => Z * error
  | File_Sync _ | File_Close _ => error
  | io_Copy _ _ => Z * error
  | ioutil_ReadFile _ => string * error
  | ioutil_WriteFile _ _ _ => error
  | Log_Infof _ _ | Log_Fatalf _ _ => unit
  | runtime_LockOSThread | runtime_UnlockOSThread => unit
  | ole_CoInitializeEx _ _ => error
  | ole_CoUninitialize => unit
  | oleutil_CreateObject _ => ptr * error
  | ole_QueryInterface _ _ => ptr * error
  | ole_Release _ => Z
  | oleutil_CallMethod _ _ _ | oleutil_PutProperty _ _ _ => ptr * error
  end.

(** A program returns, ends the process ([os.Exit]), or runs out of the
    recursion depth it was given. *)
Inductive prog (A : Type) : Type :=
  | Ret (a : A)
  | Exit (code : Z)
  | OutOfFuel
  | Do (c : call) (k : reply c → prog A).

Arguments Ret {A} a.
Arguments Exit {A} code.
Arguments OutOfFuel {A}.
Arguments Do {A} c k.

Fixpoint bind {A B : Type} (p : prog A) (f : A → prog B) : prog B :=
  match p with
  | Ret a => f a
  | Exit code => Exit code
  | OutOfFuel => OutOfFuel
  | Do c k => Do c (λ r, bind (k r) f)
  end.

Global Instance prog_ret : MRet prog := @Ret.
Global Instance prog_bind : MBind prog := λ A B f p, bind p f.

Definition invoke (c : call) : prog (reply c) := Do c Ret.

(** [defer cleanup()] around the rest of a function body: the deferred
    call runs when the body returns, and its result is dropped.  A body
    that exits the process runs no deferred call. *)
Definition defer {A B : Type} (cleanup : prog B) (body : prog A) : prog A :=
  a ← body; _ ← cleanup; Ret a.

(** ** Running a program *)

Inductive outcome (A : Type) : Type :=
  | Returned (a : A)
  | Exited (code : Z)
  | Diverged.

Arguments Returned {A} a.
Arguments Exited {A} code.
Arguments Diverged {A}.

Definition handler (W : Type) : Type := ∀ c : call, W → reply c * W.

Record run (A W : Type) : Type :=
  { result : outcome A; final : W; trace : list call }.

Arguments result {A W} r.
Arguments final {A W} r.
Arguments trace {A W} r.

Fixpoint exec {A W : Type} (h : handler W) (p : prog A) (w : W) : run A W :=
  match p with
  | Ret a => {| result := Returned a; final := w; trace := [] |}
  | Exit code => {| result := Exited code; final := w; trace := [] |}
  | OutOfFuel => {| result := Diverged; final := w; trace := [] |}
  | Do c k =>
      let r := exec h (k (h c w).1) (h c w).2 in
      {| result := result r; final := final r; trace := c :: trace r |}
  end.

(** ** Methods of [*os.File]: each checks for the nil receiver first *)

Definition Readdir (f : option File) (n : Z) : prog (list FileInfo * error) :=
  match f with
  | None => Ret ([], Some ErrInvalid)
  | Some f => invoke (File_Readdir f n)
  end.

Definition Readdirnames (f : option File) (n : Z) : prog (list string * error) :=
  match f with
  | None => Ret ([], Some ErrInvalid)
  | Some f => invoke (File_Readdirnames f n)
  end.

Definition WriteString (f : option File) (s : string) : prog (Z * error) :=
  match f with
  | None => Ret (0%Z, Some ErrInvalid)
  | Some f => invoke (File_WriteString f s)
  end.

Definition Sync (f : option File) : prog error :=
  match f with
  | None => Ret (Some ErrInvalid)
  | Some f => invoke (File_Sync f)
  end.

Definition Close (f : option File) : prog error :=
  match f with
  | None => Ret (Some ErrInvalid)
  | Some f => invoke (File_Close f)
  end.

(** [io.Copy] on two files. *)
Definition Copy (dst src : option File) : prog (Z * error) :=
  match dst, src with
  | Some d, Some s => invoke (io_Copy d s)
  | _, _ => Ret (0%Z, Some ErrInvalid)
  end.

(** [path.Join] and [filepath.Join]; their cleaning of the joined path is
    the library's. *)
Class PathLib : Type :=
  { path_Join : list string → string;
    filepath_Join : list string → string }.

(** ** sys.go *)

(** [WindowsShortcutProperty] *)
Record WindowsShortcutProperty : Type :=
  { Value : string; Clear : bool }.

(** [WindowsShortcut] *)
Record WindowsShortcut : Type :=
  { ShortcutPath : string;
    TargetPath : string;
    Arguments : WindowsShortcutProperty;
    Description : WindowsShortcutProperty;
    IconLocation : WindowsShortcutProperty;
    WorkingDirectory : WindowsShortcutProperty }.

Definition COINIT_APARTMENTTHREADED : N := 2.
Definition COINIT_SPEED_OVER_MEMORY : N := 8.
Definition IID_IDispatch : string := "{00020400-0000-0000-C000-000000000046}".

(** [if p.Value != "" || p.Clear { oleutil.PutProperty(idispatch, name, p.Value) }] *)
Definition put_optional (idispatch : ptr) (name : string)
    (p : WindowsShortcutProperty) : prog unit :=
  if negb (String.eqb (Value p) "") || Clear p
  then _ ← invoke (oleutil_PutProperty idispatch name (Value p)); Ret tt
  else Ret tt.

(** Lines 61 to 77 of [CreateShortcut]: the properties are put on the
    shortcut object and the shortcut is saved. *)
Definition CreateShortcut_put (idispatch : ptr) (shortcut : WindowsShortcut) : prog error :=
  _ ← invoke (oleutil_PutProperty idispatch "TargetPath" (TargetPath shortcut));
  _ ← put_optional idispatch "Arguments" (Arguments shortcut);
  _ ← put_optional idispatch "Description" (Description shortcut);
  _ ← put_optional idispatch "IconLocation" (IconLocation shortcut);
  _ ← put_optional idispatch "WorkingDirectory" (WorkingDirectory shortcut);
  '(_, err) ← invoke (oleutil_CallMethod idispatch "Save" []);
  Ret err.

(** [CreateShortcut] *)
Definition CreateShortcut (shortcut : WindowsShortcut) : prog error :=
  _ ← invoke (Log_Infof "Create shortcut for %s in %s..."
                [ArgString (TargetPath shortcut); ArgString (ShortcutPath shortcut)]);
  _ ← invoke runtime_LockOSThread;
  defer (invoke runtime_UnlockOSThread) (
    _ ← invoke (ole_CoInitializeEx 0
                  (N.lor COINIT_APARTMENTTHREADED COINIT_SPEED_OVER_MEMORY));
    defer (invoke ole_CoUninitialize) (
      '(oleShellObject, err) ← invoke (oleutil_CreateObject "WScript.Shell");
      if err is Some _ then Ret err else
      defer (invoke (ole_Release oleShellObject)) (
        '(wshell, err) ← invoke (ole_QueryInterface oleShellObject IID_IDispatch);
        if err is Some _ then Ret err else
        defer (invoke (ole_Release wshell)) (
          '(cs, err) ← invoke (oleutil_CallMethod wshell "CreateShortcut"
                                 [ShortcutPath shortcut]);
          if err is Some _ then Ret err else
          let idispatch := cs in
          CreateShortcut_put idispatch shortcut)))).

(** The four optional properties of a shortcut, by name. *)
Definition optional_properties (shortcut : WindowsShortcut)
    : list (string * WindowsShortcutProperty) :=
  [ ("Arguments", Arguments shortcut);
    ("Description", Description shortcut);
    ("IconLocation", IconLocation shortcut);
    ("WorkingDirectory", WorkingDirectory shortcut) ].

(** The call that sets an optional property, when it is to be set. *)
Definition put_call (idispatch : ptr) (name : string)
    (p : WindowsShortcutProperty) : list call :=
  if negb (String.eqb (Value p) "") || Clear p
  then [oleutil_PutProperty idispatch name (Value p)]
  else [].

(** Calls that neither put a property nor save a shortcut. *)
Definition quiet (c : call) : bool :=
  match c with
  | oleutil_PutProperty _ _ _ => false
  | oleutil_CallMethod _ name _ => negb (String.eqb name "Save")
  | _ => true
  end.

(** [CopyFile] *)
Definition CopyFile (src dest : string) : prog error :=
  '(srcFile, err) ← invoke (os_Open src);
  if err is Some _ then Ret err else
  defer (Close srcFile) (
    '(destFile, err) ← invoke (os_Create dest);
    if err is Some _ then Ret err else
    defer (Close destFile) (
      '(_, err) ← Copy destFile srcFile;
      if err is Some _ then Ret err else
      err ← Sync destFile;
      if err is Some _ then Ret err else
      Ret None)).

(** [CopyFolder]; [fuel] bounds the depth of the recursion, which in Go
    is the depth of the tree under [source]. *)
Fixpoint CopyFolder `{PathLib} (fuel : nat) (source dest : string) : prog error :=
  match fuel with
  | 0 => OutOfFuel
  | S fuel' =>
      err ← invoke (os_MkdirAll dest 777);
      if err is Some _ then Ret err else
      '(folder, _) ← invoke (os_Open source);
      '(objects, err) ← Readdir folder (-1);
      (fix range (objects : list FileInfo) : prog error :=
         match objects with
         | [] => Ret None
         | object :: rest =>
             let sourceFile := path_Join [source; Name object] in
             let destFile := path_Join [dest; Name object] in
             if IsDir object then
               err ← CopyFolder fuel' sourceFile destFile;
               if err is Some _ then Ret err else range rest
             else
               err ← CopyFile sourceFile destFile;
               if err is Some _ then Ret err else range rest
         end) objects
  end.

(** The loop of [RemoveContents]. *)
Fixpoint RemoveContents_range `{PathLib} (dir : string) (names : list string) : prog error :=
  match names with
  | [] => Ret None
  | name :: rest =>
      err ← invoke (os_RemoveAll (filepath_Join [dir; name]));
      if err is Some _ then Ret err else RemoveContents_range dir rest
  end.

(** [RemoveContents] *)
Definition RemoveContents `{PathLib} (dir : string) : prog error :=
  '(d, err) ← invoke (os_Open dir);
  if err is Some _ then Ret err else
  defer (Close d) (
    '(names, err) ← Readdirnames d (-1);
    if err is Some _ then Ret err else
    RemoveContents_range dir names).

(** [CreateFolderCheck] *)
Definition CreateFolderCheck (path : string) : prog (string * error) :=
  err ← invoke (os_MkdirAll path 777);
  if err is Some _ then Ret ("", err) else Ret (path, None).

(** Modelled from the spec: the logger [Log] is declared outside sys.go;
    its [Fatalf] writes the line and terminates the process. *)
Definition Fatalf (format : string) (args : list fmtarg) : prog unit :=
  _ ← invoke (Log_Fatalf format args); Exit 1.

(** [CreateFolder] *)
Definition CreateFolder (path : string) : prog string :=
  _ ← invoke (Log_Infof "Create folder %s..." [ArgString path]);
  '(_, err) ← CreateFolderCheck path;
  _ ← (if err is Some e then Fatalf "Cannot create folder: %v" [ArgError e]
       else Ret tt);
  Ret path.

(** [CreateFile]; the error of [WriteString] is assigned to [err] and
    [err] is assigned again by [file.Sync()] before it is read. *)
Definition CreateFile (path content : string) : prog error :=
  '(file, err) ← invoke (os_Create path);
  if err is Some _ then Ret err else
  defer (Close file) (
    '(_, err) ← WriteString file content;
    err ← Sync file;
    if err is Some _ then Ret err else
    Ret None).

(** [Exists] *)
Definition Exists (name : string) : prog bool :=
  '(_, err) ← invoke (os_Stat name);
  match err with
  | Some e => if IsNotExist e then Ret false else Ret true
  | None => Ret true
  end.

Definition newline : string := String "010"%char EmptyString.

(** The loop of [ReplaceByPrefix] over the indices [i, i+1, ...] of
    [lines], [n] of them left: the line at [i] is read, and written when
    it has the prefix. *)
Fixpoint ReplaceByPrefix_range (prefix replace : string) (n i : nat)
    (lines : list string) : list string :=
  match n with
  | 0 => lines
  | S n' =>
      match lines !! i with
      | Some line =>
          ReplaceByPrefix_range prefix replace n' (S i)
            (if Strings.HasPrefix line prefix then <[i := replace]> lines else lines)
      | None => lines
      end
  end.

Definition replace_lines (prefix replace : string) (lines : list string) : list string :=
  ReplaceByPrefix_range prefix replace (length lines) 0 lines.

(** The spec's wording: a line that starts with the prefix becomes the
    replacement line, any other line stays as it is. *)
Definition rewrite_line (prefix replace line : string) : string :=
  if Strings.HasPrefix line prefix then replace else line.

Definition perm_0644 : N := 420.

(** [ReplaceByPrefix] *)
Definition ReplaceByPrefix (filename prefix replace : string) : prog error :=
  '(input, err) ← invoke (ioutil_ReadFile filename);
  if err is Some _ then Ret err else
  let lines := Strings.Split input newline in
  let lines := replace_lines prefix replace lines in
  let output := Strings.Join lines newline in
  err ← invoke (ioutil_WriteFile filename output perm_0644);
  if err is Some _ then Ret err else
  Ret None.

(** [IsDirEmpty] *)
Definition IsDirEmpty (name : string) : prog (bool * error) :=
  '(f, err) ← invoke (os_Open name);
  if err is Some _ then Ret (false, err) else
  defer (Close f) (
    '(_, err) ← Readdir f 1;
    if decide (err = Some EOF) then Ret (true, None) else Ret (false, err)).

(** ** A machine to run the programs on

    A file system in memory, a log, and the shell's shortcut objects.
    Paths are sequences of names; an entry is a file with its content or
    a directory, and the root is a directory.  Two knobs make calls
    fail: [locked] entries cannot be removed, and the device accepts
    [budget] more bytes before it is full. *)

Inductive node : Type := FileNode (content : string) | DirNode.

Global Instance node_eq_dec : EqDecision node.
Proof. solve_decision. Defined.

Inductive com_object : Type :=
  | ShellObject
  | ShortcutObject (lnk : string) (props : gmap string string).

Record machine : Type :=
  { entries : gmap (list string) node;
    locked : list (list string);
    budget : nat;
    log_lines : list (string * list fmtarg);
    shortcuts : gmap string (gmap string string);
    com_objects : list com_object }.

Definition set_entries (m : gmap (list string) node) (w : machine) : machine :=
  {| entries := m; locked := locked w; budget := budget w;
     log_lines := log_lines w; shortcuts := shortcuts w;
     com_objects := com_objects w |}.

Definition set_budget (b : nat) (w : machine) : machine :=
  {| entries := entries w; locked := locked w; budget := b;
     log_lines := log_lines w; shortcuts := shortcuts w;
     com_objects := com_objects w |}.

Definition add_log (l : string * list fmtarg) (w : machine) : machine :=
  {| entries := entries w; locked := locked w; budget := budget w;
     log_lines := log_lines w ++ [l]; shortcuts := shortcuts w;
     com_objects := com_objects w |}.

Definition set_shortcuts (s : gmap string (gmap string string)) (w : machine) : machine :=
  {| entries := entries w; locked := locked w; budget := budget w;
     log_lines := log_lines w; shortcuts := s;
     com_objects := com_objects w |}.

Definition set_com_objects (o : list com_object) (w : machine) : machine :=
  {| entries := entries w; locked := locked w; budget := budget w;
     log_lines := log_lines w; shortcuts := shortcuts w;
     com_objects := o |}.

(** Both separators are accepted in a path name. *)
Definition is_sep (c : ascii) : bool :=
  Ascii.eqb c "/"%char || Ascii.eqb c "\"%char.

(** The names in a path string, [cur] being the name read so far. *)
Fixpoint components (cur : string) (s : string) : list string :=
  match s with
  | EmptyString => if String.eqb cur "" then [] else [cur]
  | String c s' =>
      if is_sep c
      then (if String.eqb cur "" then components "" s' else cur :: components "" s')
      else components (cur +:+ String c EmptyString) s'
  end.

Definition parse_path (s : string) : list string := components "" s.

Definition lookup_node (m : gmap (list string) node) (p : list string) : option node :=
  match p with [] => Some DirNode | _ => m !! p end.

(** Walking down from [base] along [todo]. *)
Fixpoint resolve_from (m : gmap (list string) node) (base todo : list string)
    : node + errno :=
  match todo with
  | [] =>
      match lookup_node m base with
      | Some n => inl n
      | None => inr ErrNotExist
      end
  | c :: rest =>
      match lookup_node m base with
      | Some DirNode => resolve_from m (base ++ [c]) rest
      | Some (FileNode _) => inr ENOTDIR
      | None => inr ErrNotExist
      end
  end.

Definition resolve (m : gmap (list string) node) (p : list string) : node + errno :=
  resolve_from m [] p.

Definition is_dir (n : node) : bool :=
  match n with DirNode => true | FileNode _ => false end.

(** [k] is [d ++ [c]]: the name [c] of the child. *)
Fixpoint child_name (d k : list string) : option string :=
  match d, k with
  | [], [c] => Some c
  | x :: d', y :: k' => if decide (x = y) then child_name d' k' else None
  | _, _ => None
  end.

Definition child_infos (m : gmap (list string) node) (d : list string) : list FileInfo :=
  omap (λ kn : list string * node,
          c ← child_name d kn.1; Some {| Name := c; IsDir := is_dir kn.2 |})
       (map_to_list m).

Definition child_names (m : gmap (list string) node) (d : list string) : list string :=
  Name <$> child_infos m d.

(** [mkdir -p]: the directories along [todo] under [base], made where
    missing. *)
Fixpoint mkdir_all (m : gmap (list string) node) (base todo : list string)
    : error * gmap (list string) node :=
  match todo with
  | [] => (None, m)
  | c :: rest =>
      match lookup_node m (base ++ [c]) with
      | Some DirNode => mkdir_all m (base ++ [c]) rest
      | Some (FileNode _) => (Some ENOTDIR, m)
      | None => mkdir_all (<[base ++ [c] := DirNode]> m) (base ++ [c]) rest
      end
  end.

(** An entry is pinned when a locked entry that exists lies at or below it. *)
Definition pinned (w : machine) (k : list string) : Prop :=
  List.Exists (λ l, k `prefix_of` l ∧ is_Some (entries w !! l)) (locked w).

Global Instance pinned_dec w k : Decision (pinned w k).
Proof. unfold pinned. apply _. Defined.

(** [os.RemoveAll]: everything at or below [p] that is not pinned goes;
    an error when something is left. *)
Definition remove_all (w : machine) (p : list string) : error * machine :=
  let m' := filter (λ kn : list string * node,
                      ¬ (p `prefix_of` kn.1 ∧ ¬ pinned w kn.1)) (entries w) in
  (if decide (is_Some (m' !! p)) then Some EBUSY else None, set_entries m' w).

(** Appending to a file, as far as the device takes it. *)
Definition append_file (w : machine) (p : list string) (s : string) : (Z * error) * machine :=
  match resolve (entries w) p with
  | inl (FileNode c) =>
      if (String.length s <=? budget w)%nat
      then ((Z.of_nat (String.length s), None),
            set_budget (budget w - String.length s)
              (set_entries (<[p := FileNode (c +:+ s)]> (entries w)) w))
      else ((Z.of_nat (budget w), Some ENOSPC),
            set_budget 0
              (set_entries (<[p := FileNode (c +:+ Strings.upto (budget w) s)]> (entries w)) w))
  | inl DirNode => ((0%Z, Some EISDIR), w)
  | inr e => ((0%Z, Some e), w)
  end.

(** [os.Create]: the file is made, or emptied when it is there. *)
Definition create_file (w : machine) (p : list string) : error * machine :=
  match p with
  | [] => (Some EISDIR, w)
  | _ =>
      match resolve (entries w) (removelast p) with
      | inl DirNode =>
          match entries w !! p with
          | Some DirNode => (Some EISDIR, w)
          | _ => (None, set_entries (<[p := FileNode ""]> (entries w)) w)
          end
      | inl (FileNode _) => (Some ENOTDIR, w)
      | inr e => (Some e, w)
      end
  end.

Definition read_file (w : machine) (p : list string) : string * error :=
  match resolve (entries w) p with
  | inl (FileNode c) => (c, None)
  | inl DirNode => ("", Some EISDIR)
  | inr e => ("", Some e)
  end.

(** [Readdir(n)] and [Readdirnames(n)]: everything when [n <= 0], at most
    [n] entries otherwise, and [io.EOF] when there is none then. *)
Definition at_most {A : Type} (n : Z) (l : list A) : list A * error :=
  if (n <=? 0)%Z then (l, None)
  else match l with
       | [] => ([], Some EOF)
       | _ => (take (Z.to_nat n) l, None)
       end.

Definition read_dir (w : machine) (p : list string) (n : Z) : list FileInfo * error :=
  match resolve (entries w) p with
  | inl DirNode => at_most n (child_infos (entries w) p)
  | inl (FileNode _) => ([], Some ENOTDIR)
  | inr e => ([], Some e)
  end.

Definition stat (w : machine) (p : list string) : option FileInfo * error :=
  match resolve (entries w) p with
  | inl n => (Some {| Name := List.last p ""; IsDir := is_dir n |}, None)
  | inr e => (None, Some e)
  end.

Definition E_NOINTERFACE : N := 2147500034.

Definition new_object (o : com_object) (w : machine) : (ptr * error) * machine :=
  ((S (length (com_objects w)), None), set_com_objects (com_objects w ++ [o]) w).

Definition object_at (w : machine) (p : ptr) : option com_object :=
  match p with 0 => None | S i => com_objects w !! i end.

Definition call_method (w : machine) (disp : ptr) (name : string)
    (params : list string) : (ptr * error) * machine :=
  match object_at w disp, params with
  | Some ShellObject, [lnk] =>
      if String.eqb name "CreateShortcut"
      then new_object (ShortcutObject lnk (default ∅ (shortcuts w !! lnk))) w
      else ((0, Some (EOle E_NOINTERFACE)), w)
  | Some (ShortcutObject lnk props), [] =>
      if String.eqb name "Save"
      then ((0, None), set_shortcuts (<[lnk := props]> (shortcuts w)) w)
      else ((0, Some (EOle E_NOINTERFACE)), w)
  | _, _ => ((0, Some (EOle E_NOINTERFACE)), w)
  end.

Definition put_property (w : machine) (disp : ptr) (name value : string)
    : (ptr * error) * machine :=
  match disp, object_at w disp with
  | S i, Some (ShortcutObject lnk props) =>
      ((0, None),
       set_com_objects (<[i := ShortcutObject lnk (<[name := value]> props)]> (com_objects w)) w)
  | _, _ => ((0, Some (EOle E_NOINTERFACE)), w)
  end.

(** The machine's answer to each call. *)
Definition machine_handler : handler machine :=
  λ c, match c return machine → reply c * machine with
  | os_Stat name => λ w, (stat w (parse_path name), w)
  | os_MkdirAll path _ => λ w,
      let r := mkdir_all (entries w) [] (parse_path path) in
      (r.1, set_entries r.2 w)
  | os_Open name => λ w,
      match resolve (entries w) (parse_path name) with
      | inl _ => ((Some {| file_name := name |}, None), w)
      | inr e => ((None, Some e), w)
      end
  | os_Create name => λ w,
      let r := create_file w (parse_path name) in
      ((if r.1 is Some _ then None else Some {| file_name := name |}, r.1), r.2)
  | os_RemoveAll path => λ w, remove_all w (parse_path path)
  | File_Readdir f n => λ w, (read_dir w (parse_path (file_name f)) n, w)
  | File_Readdirnames f n => λ w,
      let r := read_dir w (parse_path (file_name f)) n in
      ((Name <$> r.1, r.2), w)
  | File_WriteString f s => λ w, append_file w (parse_path (file_name f)) s
  | File_Sync _ => λ w, (None, w)
  | File_Close _ => λ w, (None, w)
  | io_Copy dst src => λ w,
      match read_file w (parse_path (file_name src)) with
      | (c, None) => append_file w (parse_path (file_name dst)) c
      | (_, Some e) => ((0%Z, Some e), w)
      end
  | ioutil_ReadFile filename => λ w, (read_file w (parse_path filename), w)
  | ioutil_WriteFile filename data _ => λ w,
      let r := create_file w (parse_path filename) in
      match r.1 with
      | Some e => (Some e, r.2)
      | None => let a := append_file r.2 (parse_path filename) data in (a.1.2, a.2)
      end
  | Log_Infof format args => λ w, (tt, add_log (format, args) w)
  | Log_Fatalf format args => λ w, (tt, add_log (format, args) w)
  | runtime_LockOSThread => λ w, (tt, w)
  | runtime_UnlockOSThread => λ w, (tt, w)
  | ole_CoInitializeEx _ _ => λ w, (None, w)
  | ole_CoUninitialize => λ w, (tt, w)
  | oleutil_CreateObject programID => λ w,
      if String.eqb programID "WScript.Shell" then new_object ShellObject w
      else ((0, Some (EOle E_NOINTERFACE)), w)
  | ole_QueryInterface obj _ => λ w,
      match object_at w obj with
      | Some _ => ((obj, None), w)
      | None => ((0, Some (EOle E_NOINTERFACE)), w)
      end
  | ole_Release _ => λ w, (0%Z, w)
  | oleutil_CallMethod disp name params => λ w, call_method w disp name params
  | oleutil_PutProperty disp name value => λ w, put_property w disp name value
  end.

(** The joins of the path library on this machine. *)
Global Instance machine_paths : PathLib :=
  {| path_Join elem := Strings.Join (filter (λ e, e ≠ "") elem) "/";
     filepath_Join elem := Strings.Join (filter (λ e, e ≠ "") elem) backslash |}.

(** The directory at [p] and all directories above it are there. *)
Definition all_dirs (m : gmap (list string) node) (p : list string) : Prop :=
  ∀ q, q `prefix_of` p → lookup_node m q = Some DirNode.

(** A name is one component of a path: not empty, without a separator. *)
Definition valid_name (s : string) : Prop := parse_path s = [s].

(** Every entry of the machine is reached by names. *)
Definition valid_names (w : machine) : Prop :=
  map_Forall (λ k _, Forall valid_name k) (entries w).

Global Instance valid_names_dec w : Decision (valid_names w).
Proof. unfold valid_names, valid_name. apply _. Defined.

(** The state after [os.RemoveAll] on each of [names] under [dir], one
    after the other. *)
Fixpoint after_removals `{PathLib} {W : Type} (h : handler W) (dir : string)
    (names : list string) (w : W) : W :=
  match names with
  | [] => w
  | name :: rest =>
      after_removals h dir rest (h (os_RemoveAll (filepath_Join [dir; name])) w).2
  end.

(** Each of these removals returns nil. *)
Fixpoint removals_succeed `{PathLib} {W : Type} (h : handler W) (dir : string)
    (names : list string) (w : W) : Prop :=
  match names with
  | [] => True
  | name :: rest =>
      (h (os_RemoveAll (filepath_Join [dir; name])) w).1 = None
      ∧ removals_succeed h dir rest (h (os_RemoveAll (filepath_Join [dir; name])) w).2
  end.

(** ** build-app.xml: the cleaning step of target [release.app]

    Ant tasks act on the same kind of file tree.  A build carries its
    properties; a task either goes through or fails the build. *)

Module Ant.

(** [${name}] in an attribute: the value of the property, or the text
    itself when the property is not set. *)
Definition expand (props : gmap string string) (name : string) : string :=
  default ("${" +:+ name +:+ "}") (props !! name).

(** The condition [<equals arg1 arg2/>]. *)
Definition equals (arg1 arg2 : string) : bool := String.eqb arg1 arg2.

(** [k] relative to [base]. *)
Fixpoint relative_to (base k : list string) : option (list string) :=
  match base, k with
  | [], _ => Some k
  | x :: base', y :: k' => if decide (x = y) then relative_to base' k' else None
  | _ :: _, [] => None
  end.

(** [<delete dir="..."/>]: the directory goes with all that is in it;
    nothing is done when it is not a directory. *)
Definition delete_dir (dir : list string) (fs : gmap (list string) node)
    : gmap (list string) node :=
  match lookup_node fs dir with
  | Some DirNode => filter (λ kn : list string * node, ¬ dir `prefix_of` kn.1) fs
  | _ => fs
  end.

(** A file set that includes everything under its directory except the
    paths, relative to it, that an [<exclude name="..."/>] names or that
    Ant excludes by default. *)
Record fileset : Type :=
  { fs_dir : list string;
    fs_exclude : list (list string);
    fs_defaultexcludes : list string → bool }.

Definition excluded (s : fileset) (rel : list string) : bool :=
  bool_decide (rel ∈ fs_exclude s) || fs_defaultexcludes s rel.

(** Something excluded lies strictly below [k]. *)
Definition holds_excluded (s : fileset) (fs : gmap (list string) node)
    (k : list string) : bool :=
  existsb (λ kn : list string * node,
             bool_decide (k ≠ kn.1 ∧ k `prefix_of` kn.1)
             && from_option (excluded s) false (relative_to (fs_dir s) kn.1))
          (map_to_list fs).

(** What [<delete includeemptydirs="..."> <fileset .../> </delete>]
    removes: the selected files, and with [includeemptydirs] the selected
    directories that are empty once the files are gone. *)
Definition selected_for_delete (s : fileset) (includeemptydirs : bool)
    (fs : gmap (list string) node) (k : list string) (n : node) : bool :=
  match relative_to (fs_dir s) k with
  | None => false
  | Some rel =>
      negb (excluded s rel)
      && match n with
         | FileNode _ => true
         | DirNode => includeemptydirs && negb (holds_excluded s fs k)
         end
  end.

Inductive status : Type := BuildSuccessful | BuildFailed (message : string).

(** The task fails the build when the directory of the file set is not
    there. *)
Definition delete_fileset (s : fileset) (includeemptydirs : bool)
    (fs : gmap (list string) node) : status * gmap (list string) node :=
  match lookup_node fs (fs_dir s) with
  | Some DirNode =>
      (BuildSuccessful,
       filter (λ kn : list string * node,
                 ¬ selected_for_delete s includeemptydirs fs kn.1 kn.2) fs)
  | _ => (BuildFailed "Directory does not exist", fs)
  end.

(** The file set of the cleaning step: [${tmp.path}] without
    [version.dat]. *)
Definition tmp_fileset (props : gmap string string)
    (defaultexcludes : list string → bool) : fileset :=
  {| fs_dir := parse_path (expand props "tmp.path");
     fs_exclude := [["version.dat"]];
     fs_defaultexcludes := defaultexcludes |}.

(** Lines 82 to 93 of build-app.xml:
    [<if> <equals arg1="${debug}" arg2="false"/> <then> ... </then> </if>]. *)
Definition cleaning (props : gmap string string)
    (defaultexcludes : list string → bool)
    (fs : gmap (list string) node) : status * gmap (list string) node :=
  if equals (expand props "debug") "false" then
    let fs := delete_dir (parse_path (expand props "build.path")) fs in
    let fs := delete_dir (parse_path (expand props "setup.path")) fs in
    delete_fileset (tmp_fileset props defaultexcludes) true fs
  else (BuildSuccessful, fs).

End Ant.

(** ** A machine to try the programs on *)

Definition sample_ini : string := "A=1" +:+ newline +:+ "B=2" +:+ newline +:+ "C=3".

Definition sample : machine :=
  {| entries :=
       list_to_map
         [ (["tmp"], DirNode);
           (["tmp"; "app.ini"], FileNode sample_ini);
           (["tmp"; "sub"], DirNode);
           (["tmp"; "sub"; "x"], FileNode "x") ];
     locked := [];
     budget := 100;
     log_lines := [];
     shortcuts := ∅;
     com_objects := [] |}.

(** The same with [tmp\app.ini] held open by another process. *)
Definition sample_locked : machine :=
  {| entries := entries sample;
     locked := [["tmp"; "app.ini"]];
     budget := budget sample;
     log_lines := [];
     shortcuts := ∅;
     com_objects := [] |}.

Definition sample_shortcut : WindowsShortcut :=
  {| ShortcutPath := "app.lnk";
     TargetPath := "app.exe";
     Arguments := {| Value := ""; Clear := true |};
     Description := {| Value := "An app"; Clear := false |};
     IconLocation := {| Value := ""; Clear := false |};
     WorkingDirectory := {| Value := "tmp"; Clear := true |} |}.

(** A working tree of a build, and the properties of a release run. *)
Definition sample_tree : gmap (list string) node :=
  list_to_map
    [ (["bin"], DirNode);
      (["bin"; "build"], DirNode);
      (["bin"; "build"; "app.exe"], FileNode "MZ");
      (["bin"; "setup"], DirNode);
      (["bin"; "tmp"], DirNode);
      (["bin"; "tmp"; "version.dat"], FileNode "1.2.3");
      (["bin"; "tmp"; "app.7z"], FileNode "7z");
      (["bin"; "tmp"; "extract"], DirNode);
      (["bin"; "tmp"; "extract"; "app.exe"], FileNode "MZ") ].

Definition sample_props : gmap string string :=
  list_to_map
    [ ("debug", "false");
      ("build.path", "bin\build");
      ("setup.path", "bin\setup");
      ("tmp.path", "bin\tmp") ].

(** ** More of package [strings], and the path helpers of sys.go *)

Module Strings2.
Import Strings.

(** The loop of [strings.Replace] for a non-empty [old], [n] more
    replacements to make; [s] is what is left of the string from [start]
    on.  Go bounds [n] by [Count(s, old)], so [Index] finds an instance
    on every turn. *)
Fixpoint Replace_loop (n : nat) (s old new : string) : string :=
  match n with
  | 0 => s
  | S n' =>
      match Index s old with
      | Some j =>
          upto j s +:+ new +:+ Replace_loop n' (from (j + String.length old) s) old new
      | None => s
      end
  end.

(** The same loop for the empty [old]: [new] goes in front of the string
    and after each byte (Go steps over UTF-8 sequences). *)
Fixpoint Replace_empty (n : nat) (first : bool) (s new : string) : string :=
  match n with
  | 0 => s
  | S n' =>
      if first then new +:+ Replace_empty n' false s new
      else match s with
           | String c s' => String c EmptyString +:+ new +:+ Replace_empty n' false s' new
           | EmptyString => new +:+ Replace_empty n' false EmptyString new
           end
  end.

(** [strings.Replace(s, old, new, n)] *)
Definition Replace (s old new : string) (n : Z) : string :=
  if String.eqb old new || (n =? 0)%Z then s
  else
    let m := Count s old in
    if (m =? 0)%nat then s
    else
      let n' := if (n <? 0)%Z || (m <? Z.to_nat n)%nat then m else Z.to_nat n in
      if String.eqb old "" then Replace_empty n' true s new
      else Replace_loop n' s old new.

End Strings2.

Definition slash : string := "/".

(** [FormatUnixPath] *)
Definition FormatUnixPath (path : string) : string :=
  Strings2.Replace path backslash slash (-1).

(** [FormatWindowsPath] *)
Definition FormatWindowsPath (path : string) : string :=
  Strings2.Replace path slash backslash (-1).

(** [AppPathJoin]; [Papp] is declared outside sys.go, and the value of
    [Papp.Path] at the time of the call is an argument here. *)
Definition AppPathJoin (Papp_Path : string) (elem : list string) : string :=
  PathJoin ([Papp_Path] ++ elem).

(** Byte [a] occurs in [s]. *)
Fixpoint has_byte (a : ascii) (s : string) : bool :=
  match s with
  | EmptyString => false
  | String c s' => Ascii.eqb c a || has_byte a s'
  end.

(** Every byte [a] of [s] becomes [b]. *)
Fixpoint replace_byte (a b : ascii) (s : string) : string :=
  match s with
  | EmptyString => EmptyString
  | String c s' => String (if Ascii.eqb c a then b else c) (replace_byte a b s')
  end.

(** What [ReplaceByPrefix] writes for a file that holds [input]. *)
Definition rewritten (prefix replace input : string) : string :=
  Strings.Join (rewrite_line prefix replace <$> Strings.Split input newline) newline.

(** The loop of [CopyFolder] over the entries read, [copy] being the
    call of [CopyFolder] itself on a sub-directory. *)
Definition CopyFolder_range `{PathLib} (copy : string → string → prog error)
    (source dest : string) : list FileInfo → prog error :=
  fix range (objects : list FileInfo) : prog error :=
    match objects with
    | [] => Ret None
    | object :: rest =>
        let sourceFile := path_Join [source; Name object] in
        let destFile := path_Join [dest; Name object] in
        if IsDir object then
          err ← copy sourceFile destFile;
          if err is Some _ then Ret err else range rest
        else
          err ← CopyFile sourceFile destFile;
          if err is Some _ then Ret err else range rest
    end.

(** What resolves below [ps] in [w] resolves to the same below [pd] in
    [w']. *)
Definition mirrored (w w' : machine) (ps pd : list string) : Prop :=
  ∀ rel n, resolve (entries w) (ps ++ rel) = inl n →
           resolve (entries w') (pd ++ rel) = inl n.

(** Entries neither below nor above [pd] are the same in [w'] as in [w]. *)
Definition outside_kept (w w' : machine) (pd : list string) : Prop :=
  ∀ k, ¬ pd `prefix_of` k → ¬ k `prefix_of` pd → entries w' !! k = entries w !! k.

Definition dirs_kept (w w' : machine) : Prop :=
  ∀ k, lookup_node (entries w) k = Some DirNode →
       lookup_node (entries w') k = Some DirNode.

(** The entries below [ps] are reached by names. *)
Definition valid_below (w : machine) (ps : list string) : Prop :=
  ∀ rel n, entries w !! (ps ++ rel) = Some n → Forall valid_name rel.

Definition copied (w w' : machine) (ps pd : list string) : Prop :=
  mirrored w w' ps pd ∧ outside_kept w w' pd ∧ dirs_kept w w'.

(** No directory lies [fuel] levels or more below [ps]. *)
Definition shallow (w : machine) (ps : list string) (fuel : nat) : Prop :=
  ∀ rel, lookup_node (entries w) (ps ++ rel) = Some DirNode → length rel < fuel.

(** ** build-app.xml: the checks made when the file is loaded

    Lines 8 to 17: [<fail unless="app.type" .../>] fails the build when
    the property is not set, and the second [<fail>] fails it when its
    condition holds. *)
Definition required_properties (props : gmap string string) : Ant.status :=
  match props !! "app.type" with
  | None =>
      Ant.BuildFailed
        "Property 'app.type' must be defined before loading build-app.xml"
  | Some _ =>
      if Ant.equals (Ant.expand props "atf.win3264.url") ""
         && Ant.equals (Ant.expand props "atf.win32.url") ""
         && Ant.equals (Ant.expand props "atf.win64.url") ""
      then
        Ant.BuildFailed
          "Property 'atf.win3264.url' or 'atf.win32.url' or 'atf.win64.url' must be defined before loading build-app.xml"
      else Ant.BuildSuccessful
  end.

(** ** The functions of sys.go over system calls

    [SetFileAttributes], [SetConsoleTitle], [WriteToFile] and [RawWinver]
    call into [syscall], [io] and [golang.org/x/sys/windows].  They are
    programs over these calls; a program returns or panics, and a
    deferred call runs in both cases. *)

Module Win.

(** Go [error] values of this layer: [None] is [nil], and an [error]
    that holds a [syscall.Errno] is not [nil], whatever the number. *)
Inductive error_value : Type :=
  | Errno (code : N)
  | ErrInvalid
  | OtherError (text : string).

Definition error : Type := option error_value.

Definition uintptr : Type := N.
Definition Handle : Type := uintptr.

(** [*windows.DLL] and [*windows.Proc], by what they stand for. *)
Record DLL : Type := { dll_name : string }.
Record Proc : Type := { proc_dll : DLL; proc_name : string }.

(** The local struct type of [RawWinver]. *)
Record rtlOSVersionInfo : Type :=
  { dwOSVersionInfoSize : N;
    dwMajorVersion : N;
    dwMinorVersion : N;
    dwBuildNumber : N;
    dwPlatformId : N;
    szCSDVersion : list N }.

(** Calls into the libraries.  A [Must] function of [windows] returns
    or panics.  [Proc_Call] is [proc.Call] on the address of the struct,
    which the callee may write. *)
Inductive call : Type :=
  | syscall_UTF16PtrFromString (s : string)
  | syscall_SetFileAttributes (name : uintptr) (attrs : N)
  | syscall_LoadLibrary (libname : string)
  | syscall_FreeLibrary (handle : Handle)
  | syscall_GetProcAddress (module : Handle) (procname : string)
  | syscall_Syscall (trap nargs a1 a2 a3 : uintptr)
  | os_Create (name : string)
  | File_Close (f : File)
  | io_Copy_NewReader (dst : option File) (content : string)
  | windows_MustLoadDLL (name : string)
  | DLL_Release (d : DLL)
  | DLL_MustFindProc (d : DLL) (name : string)
  | Proc_Call (p : Proc) (verStruct : rtlOSVersionInfo).

(** What each call gives back; the [Errno] of [syscall.Syscall] is a
    number, and a [Must] function gives [inr v] when it panics with
    [v]. *)
Definition reply (c : call) : Type :=
  match c with
  | syscall_UTF16PtrFromString _ => uintptr * error
  | syscall_SetFileAttributes _ _ => error
  | syscall_LoadLibrary _ => Handle * error
  | syscall_FreeLibrary _ => error
  | syscall_GetProcAddress _ _ => uintptr * error
  | syscall_Syscall _ _ _ _ _ => uintptr * uintptr * N
  | os_Create _ => option File * error
  | File_Close _ => error
  | io_Copy_NewReader _ _ => Z * error
  | windows_MustLoadDLL _ => DLL + error_value
  | DLL_Release _ => error
  | DLL_MustFindProc _ _ => Proc + error_value
  | Proc_Call _ _ => (uintptr * uintptr * error) * rtlOSVersionInfo
  end%type.

Inductive prog (A : Type) : Type :=
  | Ret (a : A)
  | Panic (v : error_value)
  | Do (c : call) (k : reply c → prog A).

Arguments Ret {A} a.
Arguments Panic {A} v.
Arguments Do {A} c k.

Fixpoint bind {A B : Type} (p : prog A) (f : A → prog B) : prog B :=
  match p with
  | Ret a => f a
  | Panic v => Panic v
  | Do c k => Do c (λ r, bind (k r) f)
  end.

Global Instance win_ret : MRet prog := @Ret.
Global Instance win_bind : MBind prog := λ A B f p, bind p f.

Definition invoke (c : call) : prog (reply c) := Do c Ret.

(** [defer cleanup()]: the deferred call runs when the body returns and
    when it panics, and its result is dropped. *)
Fixpoint defer {A B : Type} (cleanup : prog B) (body : prog A) : prog A :=
  match body with
  | Ret a => bind cleanup (λ _, Ret a)
  | Panic v => bind cleanup (λ _, Panic v)
  | Do c k => Do c (λ r, defer cleanup (k r))
  end.

Inductive outcome (A : Type) : Type :=
  | Returned (a : A)
  | Panicked (v : error_value).

Arguments Returned {A} a.
Arguments Panicked {A} v.

Definition handler (W : Type) : Type := ∀ c : call, W → reply c * W.

Record run (A W : Type) : Type :=
  { result : outcome A; final : W; trace : list call }.

Arguments result {A W} r.
Arguments final {A W} r.
Arguments trace {A W} r.

Fixpoint exec {A W : Type} (h : handler W) (p : prog A) (w : W) : run A W :=
  match p with
  | Ret a => {| result := Returned a; final := w; trace := [] |}
  | Panic v => {| result := Panicked v; final := w; trace := [] |}
  | Do c k =>
      let r := exec h (k (h c w).1) (h c w).2 in
      {| result := result r; final := final r; trace := c :: trace r |}
  end.

(** [f.Close()] checks for the nil receiver first. *)
Definition Close (f : option File) : prog error :=
  match f with
  | None => Ret (Some ErrInvalid)
  | Some f => invoke (File_Close f)
  end.

Definition MustLoadDLL (name : string) : prog DLL :=
  r ← invoke (windows_MustLoadDLL name);
  match r with inl d => Ret d | inr v => Panic v end.

Definition MustFindProc (d : DLL) (name : string) : prog Proc :=
  r ← invoke (DLL_MustFindProc d name);
  match r with inl p => Ret p | inr v => Panic v end.

(** [SetFileAttributes] *)
Definition SetFileAttributes (path : string) (attrs : N) : prog error :=
  '(pointer, err) ← invoke (syscall_UTF16PtrFromString path);
  if err is Some _ then Ret err else
  invoke (syscall_SetFileAttributes pointer attrs).

(** [int(r)] for a [uintptr] of [bits] bits: the same bits, signed. *)
Definition int_of_uintptr (bits : N) (r : uintptr) : Z :=
  let m := (Z.of_N r mod 2 ^ Z.of_N bits)%Z in
  if (m <? 2 ^ (Z.of_N bits - 1))%Z then m else (m - 2 ^ Z.of_N bits)%Z.

(** [SetConsoleTitle], on a target whose words have [bits] bits.  The
    last [err] is the [Errno] of [syscall.Syscall], assigned to the
    variable [err] of type [error]. *)
Definition SetConsoleTitle (bits : N) (title : string) : prog (Z * error) :=
  '(handle, err) ← invoke (syscall_LoadLibrary "kernel32.dll");
  if err is Some _ then Ret (0%Z, err) else
  defer (invoke (syscall_FreeLibrary handle)) (
    '(proc, err) ← invoke (syscall_GetProcAddress handle "SetConsoleTitleW");
    if err is Some _ then Ret (0%Z, err) else
    '(rTitle, err) ← invoke (syscall_UTF16PtrFromString title);
    if err is Some _ then Ret (0%Z, err) else
    '(r, _, errno) ← invoke (syscall_Syscall proc 1%N rTitle 0%N 0%N);
    Ret (int_of_uintptr bits r, Some (Errno errno))).

(** [WriteToFile]; the close is deferred before the error of
    [os.Create] is looked at. *)
Definition WriteToFile (name content : string) : prog error :=
  '(fo, err) ← invoke (os_Create name);
  defer (Close fo) (
    if err is Some _ then Ret err else
    '(_, err) ← invoke (io_Copy_NewReader fo content);
    if err is Some _ then Ret err else
    Ret None).

(** [unsafe.Sizeof(verStruct)]: five [uint32] and 128 bytes. *)
Definition sizeof_rtlOSVersionInfo : N := (5 * 4 + 128)%N.

(** [var verStruct rtlOSVersionInfo]: the zero value. *)
Definition zero_rtlOSVersionInfo : rtlOSVersionInfo :=
  {| dwOSVersionInfoSize := 0%N; dwMajorVersion := 0%N; dwMinorVersion := 0%N;
     dwBuildNumber := 0%N; dwPlatformId := 0%N; szCSDVersion := replicate 128 0%N |}.

(** [RawWinver] *)
Definition RawWinver : prog (N * N * N) :=
  ntoskrnl ← MustLoadDLL "ntoskrnl.exe";
  defer (invoke (DLL_Release ntoskrnl)) (
    proc ← MustFindProc ntoskrnl "RtlGetVersion";
    let verStruct := zero_rtlOSVersionInfo in
    let verStruct :=
      {| dwOSVersionInfoSize := sizeof_rtlOSVersionInfo;
         dwMajorVersion := dwMajorVersion verStruct;
         dwMinorVersion := dwMinorVersion verStruct;
         dwBuildNumber := dwBuildNumber verStruct;
         dwPlatformId := dwPlatformId verStruct;
         szCSDVersion := szCSDVersion verStruct |} in
    '(_, verStruct) ← invoke (Proc_Call proc verStruct);
    Ret (dwMajorVersion verStruct, dwMinorVersion verStruct,
         dwBuildNumber verStruct)).

(** A system on which every call goes through: handles and addresses
    are numbered as they are given out, the console title is kept, and
    the kernel reports the version it is given. *)
Record system : Type :=
  { next : N; console_title : option uintptr; version : N * N * N }.

Definition fresh (w : system) : system :=
  {| next := N.succ (next w); console_title := console_title w;
     version := version w |}.

Definition system_handler : handler system :=
  λ c, match c return system → reply c * system with
  | syscall_UTF16PtrFromString _ => λ w, ((next w, None), fresh w)
  | syscall_SetFileAttributes _ _ => λ w, (None, w)
  | syscall_LoadLibrary _ => λ w, ((next w, None), fresh w)
  | syscall_FreeLibrary _ => λ w, (None, w)
  | syscall_GetProcAddress _ _ => λ w, ((next w, None), fresh w)
  | syscall_Syscall _ _ a1 _ _ => λ w,
      ((1%N, 0%N, 0%N),
       {| next := next w; console_title := Some a1; version := version w |})
  | os_Create name => λ w, ((Some {| file_name := name |}, None), w)
  | File_Close _ => λ w, (None, w)
  | io_Copy_NewReader _ content => λ w,
      ((Z.of_nat (String.length content), None), w)
  | windows_MustLoadDLL name => λ w, (inl {| dll_name := name |}, w)
  | DLL_Release _ => λ w, (None, w)
  | DLL_MustFindProc d name => λ w, (inl {| proc_dll := d; proc_name := name |}, w)
  | Proc_Call _ verStruct => λ w,
      ((0%N, 0%N, None),
       {| dwOSVersionInfoSize := dwOSVersionInfoSize verStruct;
          dwMajorVersion := (version w).1.1;
          dwMinorVersion := (version w).1.2;
          dwBuildNumber := (version w).2;
          dwPlatformId := 2%N;
          szCSDVersion := szCSDVersion verStruct |}, w)
  end.

Definition sample_system : system :=
  {| next := 1%N; console_title := None; version := (10%N, 0%N, 19045%N) |}.

End Win.
(** ** Facts on strings *)

Section strings_facts.
Import Strings.

Lemma app_nil_s (s : string) : "" +:+ s = s.
Proof. done. Qed.

Lemma app_cons_s (c : ascii) (a b : string) :
  String c a +:+ b = String c (a +:+ b).
Proof. done. Qed.

Lemma app_empty_r (s : string) : s +:+ "" = s.
Proof. induction s as [|c s IH]; [done | by rewrite app_cons_s, IH]. Qed.

Lemma app_assoc_s (a b c : string) : (a +:+ b) +:+ c = a +:+ b +:+ c.
Proof. induction a as [|x a IH]; [done | by rewrite !app_cons_s, IH]. Qed.

Lemma length_app_s (a b : string) :
  String.length (a +:+ b) = String.length a + String.length b.
Proof. induction a as [|x a IH]; [done | by rewrite app_cons_s; simpl; rewrite IH]. Qed.

(** The builder loop of [Join] appends to whatever is already there. *)
Lemma Join_fold_app (rest : list string) (sep b : string) :
  fold_left (λ b s, b +:+ sep +:+ s) rest b
  = b +:+ fold_left (λ b s, b +:+ sep +:+ s) rest "".
Proof.
  revert b. induction rest as [|x rest IH]; intros b; simpl.
  - by rewrite app_empty_r.
  - rewrite IH, (IH ("" +:+ sep +:+ x)), app_nil_s. by rewrite !app_assoc_s.
Qed.

Lemma concat_empty_cons (y : string) (ys : list string) :
  String.concat "" (y :: ys) = y +:+ String.concat "" ys.
Proof. destruct ys; simpl; [by rewrite app_empty_r | by rewrite app_nil_s]. Qed.

Lemma concat_empty_app (xs ys : list string) :
  String.concat "" (xs ++ ys) = String.concat "" xs +:+ String.concat "" ys.
Proof.
  induction xs as [|x xs IH]; [done|].
  change ((x :: xs) ++ ys) with (x :: (xs ++ ys)).
  by rewrite !concat_empty_cons, IH, app_assoc_s.
Qed.

Lemma Join_cons (e : string) (rest : list string) (sep : string) :
  Join (e :: rest) sep = e +:+ String.concat "" (map (λ s, sep +:+ s) rest).
Proof.
  unfold Join. rewrite Join_fold_app. f_equal.
  induction rest as [|x rest IH]; [done|].
  rewrite map_cons, concat_empty_cons, <- IH. simpl.
  by rewrite (Join_fold_app _ _ ("" +:+ _)), app_nil_s.
Qed.

(** Go's [Join] is the library's [String.concat]. *)
Lemma Join_concat (elems : list string) (sep : string) :
  Join elems sep = String.concat sep elems.
Proof.
  destruct elems as [|e rest]; [done|].
  revert e. induction rest as [|x rest IH]; intros e.
  - done.
  - change (Join (e :: x :: rest) sep) with (Join ((e +:+ sep +:+ x) :: rest) sep).
    rewrite !Join_cons in *. specialize (IH x).
    change (String.concat sep (e :: x :: rest))
      with (e +:+ sep +:+ String.concat sep (x :: rest)).
    rewrite <- IH, Join_cons. by rewrite !app_assoc_s.
Qed.

End strings_facts.

Section PathJoin_facts.
Import Strings.

Lemma PathJoin_range_spec (elem : list string) (i : nat) (rest : list string) :
  drop i elem = rest →
  PathJoin_range elem i rest = Join (skip_leading_empty rest) backslash.
Proof.
  revert i. induction rest as [|e rest IH]; intros i Hd; simpl.
  - done.
  - destruct e as [|c e]; simpl.
    + apply IH. replace (S i) with (i + 1)%nat by lia.
      by rewrite <- drop_drop, Hd.
    + by rewrite Hd.
Qed.

Lemma PathJoin_skip (elem : list string) :
  PathJoin elem = Join (skip_leading_empty elem) backslash.
Proof. unfold PathJoin. by apply PathJoin_range_spec. Qed.

Lemma skip_leading_empty_replicate (n : nat) (l : list string) :
  skip_leading_empty (replicate n "" ++ l) = skip_leading_empty l.
Proof. induction n as [|n IH]; simpl; done. Qed.

End PathJoin_facts.

(** ** Facts on [Split] *)

Section Split_facts.
Import Strings.

Lemma upto_cons (n : nat) (c : ascii) (s : string) :
  upto (S n) (String c s) = String c (upto n s).
Proof. done. Qed.

Lemma upto_from (n : nat) (s : string) : upto n s +:+ from n s = s.
Proof.
  revert s. induction n as [|n IH]; intros [|c s]; try done.
  by rewrite upto_cons, app_cons_s; simpl; rewrite IH.
Qed.

Lemma from_app_length (p u : string) : from (String.length p) (p +:+ u) = u.
Proof. induction p as [|c p IH]; [by destruct u | done]. Qed.

Lemma upto_app_length (p u : string) : upto (String.length p) (p +:+ u) = p.
Proof.
  induction p as [|c p IH]; [by destruct u|].
  rewrite app_cons_s. simpl String.length. by rewrite upto_cons, IH.
Qed.

Lemma HasPrefix_true (s p : string) :
  HasPrefix s p = true ↔ ∃ u, s = p +:+ u.
Proof.
  unfold HasPrefix. rewrite andb_true_iff, Nat.leb_le, String.eqb_eq. split.
  - intros [_ Hp]. exists (from (String.length p) s).
    rewrite <- Hp at 1. by rewrite upto_from.
  - intros [u ->]. rewrite length_app_s, upto_app_length. split; [lia | done].
Qed.

Lemma HasPrefix_upto (k : nat) (t p : string) :
  HasPrefix (upto k t) p = true → HasPrefix t p = true.
Proof.
  rewrite !HasPrefix_true. intros [u Hu]. exists (u +:+ from k t).
  by rewrite <- app_assoc_s, <- Hu, upto_from.
Qed.

Lemma HasPrefix_nil (sep : string) : sep ≠ "" → HasPrefix "" sep = false.
Proof. by destruct sep. Qed.

Lemma Index_cut (s sep : string) (m : nat) :
  Index s sep = Some m →
  s = upto m s +:+ sep +:+ from (m + String.length sep) s.
Proof.
  revert m. induction s as [|c s IH]; intros m; simpl.
  - destruct (HasPrefix "" sep) eqn:Hp; [|done]. intros [= <-].
    apply HasPrefix_true in Hp as [u Hu]. by destruct sep.
  - destruct (HasPrefix (String c s) sep) eqn:Hp.
    + intros [= <-]. apply HasPrefix_true in Hp as [u Hu].
      change (upto 0 (String c s)) with "". rewrite app_nil_s.
      change (0 + String.length sep) with (String.length sep).
      by rewrite Hu, from_app_length.
    + destruct (Index s sep) as [m'|] eqn:Hi; [|done]. intros [= <-].
      rewrite upto_cons, app_cons_s. simpl. f_equal. by apply IH.
Qed.

Lemma Index_upto (s sep : string) (m : nat) :
  sep ≠ "" → Index s sep = Some m → Index (upto m s) sep = None.
Proof.
  intros Hsep. revert m. induction s as [|c s IH]; intros m; simpl.
  - by rewrite HasPrefix_nil.
  - destruct (HasPrefix (String c s) sep) eqn:Hp.
    + intros [= <-]. change (upto 0 (String c s)) with "". simpl.
      by rewrite HasPrefix_nil.
    + destruct (Index s sep) as [m'|] eqn:Hi; [|done]. intros [= <-].
      rewrite upto_cons. simpl.
      destruct (HasPrefix (String c (upto m' s)) sep) eqn:Hp'.
      * rewrite <- upto_cons in Hp'. apply HasPrefix_upto in Hp'. congruence.
      * by rewrite IH.
Qed.

Lemma Index_length (s sep : string) (m : nat) :
  Index s sep = Some m → m + String.length sep ≤ String.length s.
Proof.
  revert m. induction s as [|c s IH]; intros m; simpl.
  - destruct (HasPrefix "" sep) eqn:Hp; [|done]. intros [= <-].
    apply andb_true_iff in Hp as [Hp _]. by apply Nat.leb_le in Hp.
  - destruct (HasPrefix (String c s) sep) eqn:Hp.
    + intros [= <-]. apply andb_true_iff in Hp as [Hp _].
      by apply Nat.leb_le in Hp.
    + destruct (Index s sep) as [m'|] eqn:Hi; [|done]. intros [= <-].
      specialize (IH m' eq_refl). lia.
Qed.

Lemma length_from (n : nat) (s : string) :
  String.length (from n s) = String.length s - n.
Proof. revert s. induction n as [|n IH]; intros [|c s]; simpl; done. Qed.

Lemma genSplit_loop_nonempty (n : nat) (s sep : string) : genSplit_loop n s sep ≠ [].
Proof. destruct n; simpl; [done|]. by destruct (Index s sep). Qed.

(** Joining what was split gives the string back. *)
Lemma Join_genSplit_loop (n : nat) (s sep : string) :
  Join (genSplit_loop n s sep) sep = s.
Proof.
  revert s. induction n as [|n IH]; intros s; simpl; [done|].
  destruct (Index s sep) as [m|] eqn:Hi; [|done].
  rewrite Join_concat. specialize (IH (from (m + String.length sep) s)).
  rewrite Join_concat in IH.
  pose proof (genSplit_loop_nonempty n (from (m + String.length sep) s) sep) as Hne.
  destruct (genSplit_loop n _ sep) as [|x xs] eqn:Hg; [done|].
  change (String.concat sep (upto m s :: x :: xs))
    with (upto m s +:+ sep +:+ String.concat sep (x :: xs)).
  rewrite IH. symmetry. by apply Index_cut.
Qed.

(** No piece holds the separator when all of them were cut. *)
Lemma genSplit_loop_pieces (fuel : nat) (s sep : string) :
  sep ≠ "" → String.length s ≤ fuel →
  Forall (λ piece, Index piece sep = None)
         (genSplit_loop (Count_loop fuel s sep) s sep).
Proof.
  intros Hsep. revert s. induction fuel as [|fuel IH]; intros s Hlen.
  - destruct s; [|simpl in Hlen; lia]. simpl. constructor; [|done].
    simpl. by rewrite HasPrefix_nil.
  - simpl. destruct (Index s sep) as [m|] eqn:Hi; simpl.
    + rewrite Hi. constructor; [by apply Index_upto|]. apply IH.
      rewrite length_from. apply Index_length in Hi.
      assert (0 < String.length sep) by (destruct sep; [done | simpl; lia]). lia.
    + constructor; done.
Qed.

Lemma Join_Split (s sep : string) : sep ≠ "" → Join (Split s sep) sep = s.
Proof.
  intros Hsep. unfold Split.
  destruct (String.eqb_spec sep ""); [done|]. apply Join_genSplit_loop.
Qed.

Lemma Split_pieces (s sep : string) :
  sep ≠ "" → Forall (λ piece, Index piece sep = None) (Split s sep).
Proof.
  intros Hsep. unfold Split, Count.
  destruct (String.eqb_spec sep ""); [done|]. by apply genSplit_loop_pieces.
Qed.

Lemma Split_nonempty (s sep : string) : sep ≠ "" → Split s sep ≠ [].
Proof.
  intros Hsep. unfold Split.
  destruct (String.eqb_spec sep ""); [done|]. apply genSplit_loop_nonempty.
Qed.

End Split_facts.

(** C2: PathJoin skips the leading empty segments and joins the first
    non-empty segment and all that follow with a backslash; so
    PathJoin("", "", "a", "b") is "a\b", and the result is empty when
    every segment is empty or there is none. *)
Theorem PathJoin_skips_leading_empty :
  (∀ elem, PathJoin elem = Strings.Join (skip_leading_empty elem) backslash)
  ∧ (∀ n c s rest,
       PathJoin (replicate n "" ++ String c s :: rest)
       = Strings.Join (String c s :: rest) backslash)
  ∧ (∀ n, PathJoin (replicate n "") = "")
  ∧ PathJoin [] = ""
  ∧ PathJoin [""; ""; "a"; "b"] = "a\b".
Proof.
  split; [apply PathJoin_skip|].
  split.
  { intros n c s rest. by rewrite PathJoin_skip, skip_leading_empty_replicate. }
  split.
  { intros n. rewrite PathJoin_skip, <- (app_nil_r (replicate n "")).
    by rewrite skip_leading_empty_replicate. }
  split; reflexivity.
Qed.

(** C9: only the empty segments before the first non-empty one are
    skipped; an empty segment after it is kept and brings its own
    separator, so PathJoin("a", "", "b") is "a\\b" and not "a\b". *)
Theorem PathJoin_keeps_inner_empty :
  (∀ c s rest,
     PathJoin (String c s :: rest)
     = String c s +:+ String.concat "" (map (λ x, backslash +:+ x) rest))
  ∧ (∀ c s before after,
       PathJoin (String c s :: before ++ "" :: after)
       = PathJoin (String c s :: before) +:+ backslash
           +:+ String.concat "" (map (λ x, backslash +:+ x) after))
  ∧ PathJoin ["a"; ""; "b"] = "a\\b"
  ∧ PathJoin ["a"; ""; "b"] ≠ "a\b".
Proof.
  assert (Hcons : ∀ c s rest,
    PathJoin (String c s :: rest)
    = String c s +:+ String.concat "" (map (λ x, backslash +:+ x) rest)).
  { intros c s rest. rewrite PathJoin_skip. simpl. apply Join_cons. }
  split; [exact Hcons|]. split; [|split; [reflexivity | discriminate]].
  intros c s before after. rewrite !Hcons, map_app, map_cons.
  rewrite concat_empty_app, concat_empty_cons, app_empty_r.
  by rewrite !app_assoc_s.
Qed.

(** ** Running programs *)

Section exec_facts.
Context {W : Type} (h : handler W).

Lemma exec_bind {A B : Type} (p : prog A) (f : A → prog B) (w : W) :
  exec h (p ≫= f) w
  = match result (exec h p w) with
    | Returned a =>
        let r := exec h (f a) (final (exec h p w)) in
        {| result := result r; final := final r;
           trace := trace (exec h p w) ++ trace r |}
    | Exited code =>
        {| result := Exited code; final := final (exec h p w);
           trace := trace (exec h p w) |}
    | Diverged =>
        {| result := Diverged; final := final (exec h p w);
           trace := trace (exec h p w) |}
    end.
Proof.
  revert w. induction p as [a|code| |c k IH]; intros w.
  - change (Ret a ≫= f) with (f a). simpl. by destruct (exec h (f a) w).
  - done.
  - done.
  - change (Do c k ≫= f) with (Do c (λ r, k r ≫= f)). simpl.
    rewrite IH. by destruct (result (exec h (k (h c w).1) (h c w).2)).
Qed.

Lemma exec_invoke (c : call) (w : W) :
  exec h (invoke c) w
  = {| result := Returned (h c w).1; final := (h c w).2; trace := [c] |}.
Proof. done. Qed.

Lemma run_eta {A : Type} (r : run A W) :
  r = {| result := result r; final := final r; trace := trace r |}.
Proof. by destruct r. Qed.

End exec_facts.

(** One call of a program is run. *)
Ltac step_invoke :=
  match goal with
  | |- context [exec ?h (invoke ?c ≫= ?k) ?w] =>
      change (exec h (invoke c ≫= k) w) with (exec h (Do c k) w);
      cbn [exec trace result final]
  end.

(** ** Exists *)

(** C5: Exists returns false exactly when the stat call reports that the
    path does not exist; it returns true when stat succeeds and when it
    fails with any other error. *)
Theorem Exists_false_iff_not_exist {W : Type} (h : handler W) (w : W) (name : string) :
  let err := (h (os_Stat name) w).1.2 in
  let r := exec h (Exists name) w in
  (result r = Returned false ↔ ∃ e, err = Some e ∧ IsNotExist e = true)
  ∧ (result r = Returned true ↔ err = None ∨ ∃ e, err = Some e ∧ IsNotExist e = false)
  ∧ (∀ e, IsNotExist e = true ↔ e = ErrNotExist)
  ∧ trace r = [os_Stat name].
Proof.
  assert (Hne : ∀ e, IsNotExist e = true ↔ e = ErrNotExist).
  { intros e. split; [by destruct e | by intros ->]. }
  simpl. destruct (h (os_Stat name) w) as [[info [e|]] w']; simpl.
  - destruct (IsNotExist e) eqn:He; simpl; (split; [|split; [|done]]).
    + split; [eauto | done].
    + split; [done | intros [?|(e' & ? & ?)]; congruence].
    + split; [done | intros (e' & ? & ?); congruence].
    + split; [eauto | done].
  - split; [|split; [|done]].
    + split; [done | intros (e' & ? & ?); congruence].
    + split; [eauto | done].
Qed.

(** ** ReplaceByPrefix *)

Section ReplaceByPrefix_facts.
Import Strings.

Lemma ReplaceByPrefix_range_spec (prefix replace : string)
    (before todo : list string) :
  ReplaceByPrefix_range prefix replace (length todo) (length before) (before ++ todo)
  = before ++ (rewrite_line prefix replace <$> todo).
Proof.
  revert before. induction todo as [|line todo IH]; intros before; simpl.
  - done.
  - rewrite list_lookup_middle by done.
    specialize (IH (before ++ [rewrite_line prefix replace line])).
    rewrite length_app in IH. simpl in IH.
    replace (length before + 1) with (S (length before)) in IH by lia.
    rewrite <- !(assoc_L (++)) in IH. simpl in IH.
    unfold rewrite_line at 1 in IH. unfold rewrite_line at 2.
    destruct (HasPrefix line prefix).
    + rewrite insert_app_r_alt, Nat.sub_diag by done. exact IH.
    + exact IH.
Qed.

Lemma replace_lines_spec (prefix replace : string) (lines : list string) :
  replace_lines prefix replace lines = rewrite_line prefix replace <$> lines.
Proof. apply (ReplaceByPrefix_range_spec prefix replace []). Qed.

Lemma HasPrefix_empty (s : string) : HasPrefix s "" = true.
Proof. unfold HasPrefix, upto. simpl. by destruct s. Qed.

Lemma exec_ReplaceByPrefix {W : Type} (h : handler W) (w : W)
    (filename prefix replace input : string) :
  (h (ioutil_ReadFile filename) w).1 = (input, None) →
  let output := Join (rewrite_line prefix replace <$> Split input newline) newline in
  let w1 := (h (ioutil_ReadFile filename) w).2 in
  let write := ioutil_WriteFile filename output perm_0644 in
  exec h (ReplaceByPrefix filename prefix replace) w
  = {| result := Returned (h write w1).1; final := (h write w1).2;
       trace := [ioutil_ReadFile filename; write] |}.
Proof.
  unfold ReplaceByPrefix. simpl.
  destruct (h (ioutil_ReadFile filename) w) as [[input' e] w1].
  simpl. intros [= -> ->]. rewrite replace_lines_spec.
  simpl. by destruct (h (ioutil_WriteFile _ _ _) w1) as [[e|] w2].
Qed.

End ReplaceByPrefix_facts.

Section ReplaceByPrefix_properties.
Import Strings.

(** C3: ReplaceByPrefix splits the content on newlines, replaces every
    line that starts with the prefix by the replacement line, leaves
    every other line as it is, and joins the lines with newlines again;
    on the lines A=1, B=2, C=3 with prefix B= and replacement B=99 the
    result is A=1, B=99, C=3. *)
Theorem ReplaceByPrefix_replaces_matching_lines {W : Type} (h : handler W) (w : W)
    (filename prefix replace input : string) :
  (h (ioutil_ReadFile filename) w).1 = (input, None) →
  let lines := Split input newline in
  let lines' := rewrite_line prefix replace <$> lines in
  let write := ioutil_WriteFile filename (Join lines' newline) perm_0644 in
  let r := exec h (ReplaceByPrefix filename prefix replace) w in
  Join lines newline = input
  ∧ Forall (λ line, Index line newline = None) lines
  ∧ replace_lines prefix replace lines = lines'
  ∧ trace r = [ioutil_ReadFile filename; write]
  ∧ result r = Returned (h write (h (ioutil_ReadFile filename) w).2).1
  ∧ length lines' = length lines
  ∧ (∀ i line, lines !! i = Some line →
       lines' !! i = Some (if HasPrefix line prefix then replace else line))
  ∧ Split sample_ini newline = ["A=1"; "B=2"; "C=3"]
  ∧ replace_lines "B=" "B=99" ["A=1"; "B=2"; "C=3"] = ["A=1"; "B=99"; "C=3"].
Proof.
  intros Hread lines lines' write r.
  split; [by apply Join_Split|].
  split; [by apply Split_pieces|].
  split; [apply replace_lines_spec|].
  subst r. rewrite (exec_ReplaceByPrefix h w _ _ _ input Hread). simpl.
  split; [done|]. split; [done|].
  split; [apply length_fmap|].
  split; [|split; reflexivity].
  intros i line Hi. subst lines'. by rewrite list_lookup_fmap, Hi.
Qed.

Lemma ReplaceByPrefix_replaces_matching_lines_witness :
  (machine_handler (ioutil_ReadFile "tmp/app.ini") sample).1 = (sample_ini, None)
  ∧ trace (exec machine_handler (ReplaceByPrefix "tmp/app.ini" "B=" "B=99") sample)
    = [ioutil_ReadFile "tmp/app.ini";
       ioutil_WriteFile "tmp/app.ini"
         ("A=1" +:+ newline +:+ "B=99" +:+ newline +:+ "C=3") perm_0644].
Proof.
  split; [reflexivity|].
  destruct (ReplaceByPrefix_replaces_matching_lines machine_handler sample
              "tmp/app.ini" "B=" "B=99" sample_ini eq_refl)
    as (_ & _ & _ & Ht & _).
  exact Ht.
Defined.

(** C10: with the empty prefix every line matches, so the content
    written is the replacement line once per line of the file, joined by
    newlines; no line of the file is kept. *)
Theorem ReplaceByPrefix_empty_prefix {W : Type} (h : handler W) (w : W)
    (filename replace input : string) :
  (h (ioutil_ReadFile filename) w).1 = (input, None) →
  let lines := Split input newline in
  let output := Join (replicate (length lines) replace) newline in
  let r := exec h (ReplaceByPrefix filename "" replace) w in
  (∀ line, HasPrefix line "" = true)
  ∧ replace_lines "" replace lines = replicate (length lines) replace
  ∧ 1 ≤ length lines
  ∧ trace r = [ioutil_ReadFile filename; ioutil_WriteFile filename output perm_0644].
Proof.
  intros Hread lines output r.
  assert (Hall : ∀ ls : list string,
            rewrite_line "" replace <$> ls = replicate (length ls) replace).
  { induction ls as [|l ls IH]; [done|]. rewrite fmap_cons, IH.
    unfold rewrite_line. by rewrite HasPrefix_empty. }
  split; [apply HasPrefix_empty|].
  split; [by rewrite replace_lines_spec|].
  split.
  { assert (Hne : Split input newline ≠ []) by by apply Split_nonempty.
    subst lines. destruct (Split input newline); [done | simpl; lia]. }
  subst r. rewrite (exec_ReplaceByPrefix h w _ _ _ input Hread). simpl.
  subst output. by rewrite Hall.
Qed.

Lemma ReplaceByPrefix_empty_prefix_witness :
  (machine_handler (ioutil_ReadFile "tmp/app.ini") sample).1 = (sample_ini, None)
  ∧ trace (exec machine_handler (ReplaceByPrefix "tmp/app.ini" "" "X") sample)
    = [ioutil_ReadFile "tmp/app.ini";
       ioutil_WriteFile "tmp/app.ini"
         ("X" +:+ newline +:+ "X" +:+ newline +:+ "X") perm_0644].
Proof.
  split; [reflexivity|].
  destruct (ReplaceByPrefix_empty_prefix machine_handler sample
              "tmp/app.ini" "X" sample_ini eq_refl)
    as (_ & _ & _ & Ht).
  exact Ht.
Defined.

End ReplaceByPrefix_properties.

(** ** Errors that are not passed on *)

Section dropped_errors.
Context {W : Type} (h : handler W).

(** [folder, _ := os.Open(source)]: when the source cannot be opened the
    nil file lists nothing, the loop does not run and [nil] is returned. *)
Lemma CopyFolder_open_error `{PathLib} (w : W) (fuel : nat) (source dest : string)
    (e : errno) :
  (h (os_MkdirAll dest 777) w).1 = None →
  (h (os_Open source) (h (os_MkdirAll dest 777) w).2).1 = (None, Some e) →
  result (exec h (CopyFolder (S fuel) source dest) w) = Returned None
  ∧ trace (exec h (CopyFolder (S fuel) source dest) w)
    = [os_MkdirAll dest 777; os_Open source].
Proof.
  destruct (h (os_MkdirAll dest 777) w) as [err w1] eqn:E1. simpl.
  intros ->. destruct (h (os_Open source) w1) as [[folder err] w2] eqn:E2.
  simpl. intros [= -> ->]. by rewrite E1; simpl; rewrite E2.
Qed.

(** The sibling [CopyFile] returns the error of [os.Open]. *)
Lemma CopyFile_open_error (w : W) (src dest : string) (f : option File) (e : errno) :
  (h (os_Open src) w).1 = (f, Some e) →
  result (exec h (CopyFile src dest) w) = Returned (Some e)
  ∧ trace (exec h (CopyFile src dest) w) = [os_Open src].
Proof.
  unfold CopyFile. destruct (h (os_Open src) w) as [[f' err] w1] eqn:E1. simpl.
  intros [= -> ->]. by rewrite E1.
Qed.

(** The error of [file.WriteString] is overwritten by that of
    [file.Sync]. *)
Lemma CreateFile_write_error (w : W) (path content : string) (f : File)
    (n : Z) (e : errno) :
  (h (os_Create path) w).1 = (Some f, None) →
  (h (File_WriteString f content) (h (os_Create path) w).2).1 = (n, Some e) →
  (h (File_Sync f) (h (File_WriteString f content) (h (os_Create path) w).2).2).1 = None →
  result (exec h (CreateFile path content) w) = Returned None.
Proof.
  unfold CreateFile.
  destruct (h (os_Create path) w) as [[file err] w1] eqn:E1. simpl.
  intros [= -> ->].
  destruct (h (File_WriteString f content) w1) as [[n' err] w2] eqn:E2. simpl.
  intros [= -> ->]. destruct (h (File_Sync f) w2) as [err w3] eqn:E3. simpl.
  intros ->. by rewrite E1; simpl; rewrite E2; simpl; rewrite E3.
Qed.

End dropped_errors.

(** C1: two operations drop an error of the operating system.  CopyFolder
    returns nil when the source directory cannot be opened, whatever the
    depth allowed, and CreateFile returns nil when writing the string
    fails on a full device and the sync goes through. *)
Theorem CopyFolder_CreateFile_drop_errors :
  (machine_handler (os_Open "missing")
     (machine_handler (os_MkdirAll "dst" 777) sample).2).1
  = (None, Some ErrNotExist)
  ∧ (∀ fuel,
       result (exec machine_handler (CopyFolder (S fuel) "missing" "dst") sample)
       = Returned None)
  ∧ (machine_handler (File_WriteString {| file_name := "tmp/big" |} "0123456789")
       (machine_handler (os_Create "tmp/big") (set_budget 4 sample)).2).1
    = (4%Z, Some ENOSPC)
  ∧ result (exec machine_handler (CreateFile "tmp/big" "0123456789")
              (set_budget 4 sample))
    = Returned None.
Proof.
  split; [reflexivity|]. split.
  { intros fuel.
    by apply (CopyFolder_open_error machine_handler sample fuel "missing" "dst"
                ErrNotExist). }
  split; [reflexivity|].
  by apply (CreateFile_write_error machine_handler (set_budget 4 sample)
              "tmp/big" "0123456789" {| file_name := "tmp/big" |} 4 ENOSPC).
Qed.

(** CreateFolder ends the process when the folder cannot be made, and
    returns the path otherwise. *)
Lemma CreateFolder_fatal {W : Type} (h : handler W) (w : W) (path : string) :
  let w1 := (h (Log_Infof "Create folder %s..." [ArgString path]) w).2 in
  result (exec h (CreateFolder path) w)
  = match (h (os_MkdirAll path 777) w1).1 with
    | Some _ => Exited 1
    | None => Returned path
    end.
Proof.
  unfold CreateFolder, CreateFolderCheck. simpl.
  destruct (h (Log_Infof _ _) w) as [[] w1] eqn:E1. simpl.
  by destruct (h (os_MkdirAll path 777) w1) as [[e|] w2] eqn:E2.
Qed.

(** ** CreateShortcut *)

Section CreateShortcut_facts.
Context {W : Type} (h : handler W).

Lemma exec_put_optional (d : ptr) (name : string) (p : WindowsShortcutProperty) (w : W) :
  result (exec h (put_optional d name p) w) = Returned tt
  ∧ trace (exec h (put_optional d name p) w) = put_call d name p.
Proof.
  unfold put_optional, put_call.
  by destruct (negb (String.eqb (Value p) "") || Clear p).
Qed.

Lemma trace_bind {A B : Type} (p : prog A) (f : A → prog B) (w : W) (a : A) :
  result (exec h p w) = Returned a →
  trace (exec h (p ≫= f) w)
  = trace (exec h p w) ++ trace (exec h (f a) (final (exec h p w))).
Proof. intros Hr. by rewrite exec_bind, Hr. Qed.

Lemma trace_CreateShortcut_put (d : ptr) (shortcut : WindowsShortcut) (w : W) :
  trace (exec h (CreateShortcut_put d shortcut) w)
  = [oleutil_PutProperty d "TargetPath" (TargetPath shortcut)]
    ++ put_call d "Arguments" (Arguments shortcut)
    ++ put_call d "Description" (Description shortcut)
    ++ put_call d "IconLocation" (IconLocation shortcut)
    ++ put_call d "WorkingDirectory" (WorkingDirectory shortcut)
    ++ [oleutil_CallMethod d "Save" []].
Proof.
  unfold CreateShortcut_put.
  rewrite (trace_bind _ _ _ (h (oleutil_PutProperty d "TargetPath" (TargetPath shortcut)) w).1)
    by done.
  f_equal. simpl final.
  repeat (erewrite trace_bind by apply exec_put_optional;
          rewrite (proj2 (exec_put_optional _ _ _ _)); f_equal).
  simpl. by destruct (h (oleutil_CallMethod d "Save" []) _) as [[v err] w'].
Qed.

Lemma result_CreateShortcut_put (d : ptr) (shortcut : WindowsShortcut) (w : W) :
  ∃ err, result (exec h (CreateShortcut_put d shortcut) w) = Returned err.
Proof.
  unfold CreateShortcut_put.
  rewrite exec_bind. simpl result at 1. cbv iota beta zeta. simpl result.
  repeat (rewrite exec_bind, (proj1 (exec_put_optional _ _ _ _));
          cbv iota beta zeta; simpl result).
  match goal with |- context [h (oleutil_CallMethod d "Save" []) ?w'] =>
    destruct (h (oleutil_CallMethod d "Save" []) w') as [[v err] w''] end.
  simpl. eauto.
Qed.

(** A deferred call runs when the body returns. *)
Lemma result_defer {A : Type} (c : call) (body : prog A) (w : W) :
  result (exec h (defer (invoke c) body) w) = result (exec h body w).
Proof.
  unfold defer. rewrite exec_bind.
  by destruct (result (exec h body w)).
Qed.

Lemma trace_defer {A : Type} (c : call) (body : prog A) (w : W) :
  trace (exec h (defer (invoke c) body) w)
  = trace (exec h body w)
    ++ (if result (exec h body w) is Returned _ then [c] else []).
Proof.
  unfold defer. rewrite exec_bind.
  destruct (result (exec h body w)); simpl; by rewrite ?app_nil_r.
Qed.

Lemma trace_invoke_bind {A : Type} (c : call) (k : reply c → prog A) (w : W) :
  trace (exec h (invoke c ≫= k) w) = c :: trace (exec h (k (h c w).1) (h c w).2).
Proof. done. Qed.

Lemma result_invoke_bind {A : Type} (c : call) (k : reply c → prog A) (w : W) :
  result (exec h (invoke c ≫= k) w) = result (exec h (k (h c w).1) (h c w).2).
Proof. done. Qed.

Ltac step_defers :=
  repeat first
    [ rewrite trace_defer
    | rewrite result_defer
    | match goal with
      | |- context [exec ?h (invoke ?c ≫= ?k) ?w] =>
          change (exec h (invoke c ≫= k) w) with (exec h (Do c k) w);
          cbn [exec trace result final]
      end ].

(** The calls of [CreateShortcut]: either the shortcut object is
    obtained, its properties are put and it is saved, or no property is
    put and nothing is saved. *)
Lemma trace_CreateShortcut (shortcut : WindowsShortcut) (w : W) :
  let t := trace (exec h (CreateShortcut shortcut) w) in
  (∃ pre post d,
     t = pre ++ ([oleutil_PutProperty d "TargetPath" (TargetPath shortcut)]
                 ++ put_call d "Arguments" (Arguments shortcut)
                 ++ put_call d "Description" (Description shortcut)
                 ++ put_call d "IconLocation" (IconLocation shortcut)
                 ++ put_call d "WorkingDirectory" (WorkingDirectory shortcut)
                 ++ [oleutil_CallMethod d "Save" []]) ++ post
     ∧ Forall (λ c, quiet c = true) pre ∧ Forall (λ c, quiet c = true) post)
  ∨ Forall (λ c, quiet c = true) t.
Proof.
  intros t. assert (Ht : t = trace (exec h (CreateShortcut shortcut) w)) by done.
  clearbody t. revert Ht. unfold CreateShortcut.
  step_defers.
  match goal with |- context [h (oleutil_CreateObject ?p) ?w3] =>
    destruct (h (oleutil_CreateObject p) w3) as [[obj [e|]] w4] end; cbn [fst snd].
  { intros ->. right. repeat constructor. }
  step_defers.
  destruct (h (ole_QueryInterface obj IID_IDispatch) w4) as [[wshell [e|]] w5];
    cbn [fst snd].
  { intros ->. right. repeat constructor. }
  step_defers.
  destruct (h (oleutil_CallMethod wshell "CreateShortcut" [ShortcutPath shortcut]) w5)
    as [[cs [e|]] w6]; cbn [fst snd].
  { intros ->. right. repeat constructor. }
  destruct (result_CreateShortcut_put cs shortcut w6) as [err ->].
  rewrite trace_CreateShortcut_put. intros ->. left.
  eexists [_; _; _; _; _; _], [_; _; _; _], cs.
  split; [simpl; by rewrite <- !(assoc_L (++))|].
  split; repeat (constructor; try reflexivity).
Qed.

Lemma elem_of_put_call (c : call) (d : ptr) (name : string)
    (p : WindowsShortcutProperty) :
  c ∈ put_call d name p
  ↔ c = oleutil_PutProperty d name (Value p) ∧ (Value p ≠ "" ∨ Clear p = true).
Proof.
  unfold put_call. destruct (String.eqb_spec (Value p) "") as [Hv|Hv];
    destruct (Clear p); simpl; rewrite ?list_elem_of_singleton, ?elem_of_nil.
  - split; [auto | by intros [? _]].
  - split; [done | intros [_ [?|?]]; done].
  - split; [auto | by intros [? _]].
  - split; [auto | by intros [? _]].
Qed.

Lemma quiet_elem_of (c : call) (l : list call) :
  Forall (λ c, quiet c = true) l → c ∈ l → quiet c = true.
Proof. rewrite Forall_forall. auto. Qed.

End CreateShortcut_facts.

(** C6: CreateShortcut sets each of Arguments, Description, IconLocation
    and WorkingDirectory on the shortcut object if and only if its value
    is not empty or its clear flag is set; the value written is the
    property's value, hence the empty string when the flag is set on an
    empty value; a property with an empty value and no flag is never
    touched. *)
Theorem CreateShortcut_sets_optional_properties {W : Type} (h : handler W) (w : W)
    (shortcut : WindowsShortcut) :
  let t := trace (exec h (CreateShortcut shortcut) w) in
  (∀ name p d v,
     (name, p) ∈ optional_properties shortcut →
     oleutil_PutProperty d name v ∈ t →
     v = Value p ∧ (Value p ≠ "" ∨ Clear p = true))
  ∧ (∀ idispatch,
       oleutil_CallMethod idispatch "Save" [] ∈ t →
       ∀ name p,
         (name, p) ∈ optional_properties shortcut →
         (oleutil_PutProperty idispatch name (Value p) ∈ t
          ↔ Value p ≠ "" ∨ Clear p = true)).
Proof.
  intros t.
  assert (Hin : ∀ name p d v,
            (name, p) ∈ optional_properties shortcut →
            oleutil_PutProperty d name v ∈ t →
            v = Value p ∧ (Value p ≠ "" ∨ Clear p = true)).
  { intros name p d v Hp Hc.
    destruct (trace_CreateShortcut h shortcut w)
      as [(pre & post & d' & Ht & Hpre & Hpost)|Hq]; fold t in Ht || fold t in Hq.
    - rewrite Ht in Hc. rewrite !elem_of_app, !elem_of_put_call in Hc.
      rewrite !list_elem_of_singleton in Hc.
      unfold optional_properties in Hp.
      rewrite !elem_of_cons, elem_of_nil in Hp.
      destruct Hc as [Hc|[Hc|Hc]];
        [by apply (quiet_elem_of _ _ Hpre) in Hc| |by apply (quiet_elem_of _ _ Hpost) in Hc].
      destruct_or!; destruct_and?; simplify_eq; auto.
    - by apply (quiet_elem_of _ _ Hq) in Hc. }
  split; [exact Hin|].
  intros idispatch Hsave name p Hp. split; [intros Hc; by destruct (Hin name p idispatch _ Hp Hc)|].
  intros Hcond.
  destruct (trace_CreateShortcut h shortcut w)
    as [(pre & post & d' & Ht & Hpre & Hpost)|Hq]; fold t in Ht || fold t in Hq.
  - rewrite Ht in Hsave |- *. rewrite !elem_of_app, !elem_of_put_call in Hsave |- *.
    rewrite !list_elem_of_singleton in Hsave |- *.
    unfold optional_properties in Hp.
    rewrite !elem_of_cons, elem_of_nil in Hp.
    destruct Hsave as [Hc|[Hc|Hc]];
      [by apply (quiet_elem_of _ _ Hpre) in Hc| |by apply (quiet_elem_of _ _ Hpost) in Hc].
    right; left.
    destruct_or!; destruct_and?; simplify_eq; auto 10.
  - by apply (quiet_elem_of _ _ Hq) in Hsave.
Qed.

Lemma CreateShortcut_sets_optional_properties_witness :
  oleutil_CallMethod 2 "Save" []
    ∈ trace (exec machine_handler (CreateShortcut sample_shortcut) sample)
  ∧ oleutil_PutProperty 2 "Arguments" ""
      ∈ trace (exec machine_handler (CreateShortcut sample_shortcut) sample)
  ∧ oleutil_PutProperty 2 "IconLocation" ""
      ∉ trace (exec machine_handler (CreateShortcut sample_shortcut) sample).
Proof.
  assert (Hsave : oleutil_CallMethod 2 "Save" []
            ∈ trace (exec machine_handler (CreateShortcut sample_shortcut) sample)).
  { apply (list_elem_of_lookup_2 _ 10). reflexivity. }
  destruct (CreateShortcut_sets_optional_properties machine_handler sample sample_shortcut)
    as [Honly Hput].
  split; [exact Hsave|]. split.
  - apply (Hput 2 Hsave "Arguments" (Arguments sample_shortcut)).
    + apply list_elem_of_here.
    + right. reflexivity.
  - intros Hc.
    destruct (Honly "IconLocation" (IconLocation sample_shortcut) 2 ""
                ltac:(do 2 apply list_elem_of_further; apply list_elem_of_here) Hc)
      as [_ [Hv|Hf]]; [by apply Hv | discriminate Hf].
Defined.


(** ** The machine: directories *)

Section machine_dirs.
Implicit Types (m : gmap (list string) node) (p q base todo : list string).

Lemma prefix_snoc_inv q p (c : string) :
  q `prefix_of` p ++ [c] → q `prefix_of` p ∨ q = p ++ [c].
Proof.
  intros [r Hr]. destruct r as [|x r _] using rev_ind.
  - right. by rewrite app_nil_r in Hr.
  - left. rewrite (assoc_L (++)) in Hr. apply app_inj_tail in Hr as [-> _].
    by apply prefix_app_r.
Qed.

Lemma lookup_node_insert_ne m p q (n : node) :
  p ≠ q → lookup_node (<[p := n]> m) q = lookup_node m q.
Proof. intros Hne. destruct q; [done|]. simpl. by rewrite lookup_insert_ne. Qed.

Lemma lookup_node_snoc m p (c : string) : lookup_node m (p ++ [c]) = m !! (p ++ [c]).
Proof. by destruct p. Qed.

Lemma all_dirs_nil m : all_dirs m [].
Proof. intros q Hq. by apply prefix_nil_inv in Hq as ->. Qed.

Lemma all_dirs_snoc m p (c : string) :
  all_dirs m p → lookup_node m (p ++ [c]) = Some DirNode → all_dirs m (p ++ [c]).
Proof.
  intros Hp Hc q Hq. apply prefix_snoc_inv in Hq as [Hq| ->]; [by apply Hp | done].
Qed.

(** Resolving a path to a directory is finding directories all the way. *)
Lemma resolve_from_dir m base todo :
  all_dirs m base →
  (resolve_from m base todo = inl DirNode ↔ all_dirs m (base ++ todo)).
Proof.
  revert base. induction todo as [|c rest IH]; intros base Hdone; simpl.
  - rewrite app_nil_r. split; [done|]. intros Hall.
    by rewrite (Hall base).
  - replace (base ++ c :: rest) with ((base ++ [c]) ++ rest)
      by (by rewrite <- (assoc_L (++))).
    rewrite (Hdone base) by done.
    destruct (lookup_node m (base ++ [c])) as [[content|]|] eqn:Hc.
    + split.
      * destruct rest; simpl; rewrite Hc; done.
      * intros Hall. specialize (Hall (base ++ [c]) (prefix_app_r _ _ _ (reflexivity _))).
        congruence.
    + apply IH. by apply all_dirs_snoc.
    + split.
      * destruct rest; simpl; rewrite Hc; done.
      * intros Hall. specialize (Hall (base ++ [c]) (prefix_app_r _ _ _ (reflexivity _))).
        congruence.
Qed.

Lemma resolve_dir m p : resolve m p = inl DirNode ↔ all_dirs m p.
Proof. apply (resolve_from_dir m [] p), all_dirs_nil. Qed.

(** After a [mkdir -p] that went through, the directories are there. *)
Lemma mkdir_all_dirs m m' base todo :
  all_dirs m base →
  mkdir_all m base todo = (None, m') →
  all_dirs m' (base ++ todo).
Proof.
  revert m base. induction todo as [|c rest IH]; intros m base Hdone; simpl.
  - intros [= <-]. by rewrite app_nil_r.
  - replace (base ++ c :: rest) with ((base ++ [c]) ++ rest)
      by (by rewrite <- (assoc_L (++))).
    destruct (lookup_node m (base ++ [c])) as [[content|]|] eqn:Hc; [done| |].
    + apply IH. by apply all_dirs_snoc.
    + apply IH. apply all_dirs_snoc.
      * intros q Hq. rewrite lookup_node_insert_ne; [by apply Hdone|].
        intros <-. by apply prefix_snoc_not in Hq.
      * by rewrite lookup_node_snoc, lookup_insert_eq.
Qed.

(** Where the directories are there, [mkdir -p] changes nothing. *)
Lemma mkdir_all_again m base todo :
  all_dirs m (base ++ todo) → mkdir_all m base todo = (None, m).
Proof.
  revert base. induction todo as [|c rest IH]; intros base Hall; simpl; [done|].
  replace (base ++ c :: rest) with ((base ++ [c]) ++ rest) in Hall
    by (by rewrite <- (assoc_L (++))).
  rewrite (Hall (base ++ [c])) by (by apply prefix_app_r).
  by apply IH.
Qed.

Lemma set_entries_same (w : machine) : set_entries (entries w) w = w.
Proof. by destruct w. Qed.

End machine_dirs.

(** C7: CreateFolderCheck is idempotent.  When a call succeeds it returns
    the path it was given, the directory and all its parents are there
    afterwards, and a second call on the same path succeeds as well,
    returns the same path and changes nothing. *)
Theorem CreateFolderCheck_idempotent (w : machine) (path s : string) :
  result (exec machine_handler (CreateFolderCheck path) w) = Returned (s, None) →
  let w' := final (exec machine_handler (CreateFolderCheck path) w) in
  s = path
  ∧ result (exec machine_handler (CreateFolderCheck path) w') = Returned (path, None)
  ∧ final (exec machine_handler (CreateFolderCheck path) w') = w'
  ∧ (∀ q, q `prefix_of` parse_path path → resolve (entries w') q = inl DirNode).
Proof.
  unfold CreateFolderCheck. simpl.
  destruct (mkdir_all (entries w) [] (parse_path path)) as [[e|] m'] eqn:Hm; simpl;
    [done|].
  intros [= <-].
  assert (Hall : all_dirs m' (parse_path path)).
  { by apply (mkdir_all_dirs (entries w) m' [] (parse_path path) (all_dirs_nil _)). }
  rewrite (mkdir_all_again m' [] (parse_path path) Hall). simpl.
  split; [done|]. split; [done|]. split.
  - by destruct w.
  - intros q Hq. apply resolve_dir. intros q' Hq'. apply Hall. by etrans.
Qed.

Lemma CreateFolderCheck_idempotent_witness :
  result (exec machine_handler (CreateFolderCheck "tmp\new\deep") sample)
  = Returned ("tmp\new\deep", None)
  ∧ resolve
      (entries (final (exec machine_handler (CreateFolderCheck "tmp\new\deep") sample)))
      ["tmp"; "new"]
    = inl DirNode.
Proof.
  split; [reflexivity|].
  destruct (CreateFolderCheck_idempotent sample "tmp\new\deep" "tmp\new\deep" eq_refl)
    as (_ & _ & _ & Hdirs).
  apply Hdirs. by exists ["deep"].
Defined.

(** ** RemoveContents *)

Section RemoveContents_loop.
Context `{PathLib} {W : Type} (h : handler W).

Lemma exec_RemoveContents_range_ok (dir : string) (names : list string) (w : W) :
  removals_succeed h dir names w →
  exec h (RemoveContents_range dir names) w
  = {| result := Returned None;
       final := after_removals h dir names w;
       trace := (λ name, os_RemoveAll (filepath_Join [dir; name])) <$> names |}.
Proof.
  revert w. induction names as [|name rest IH]; intros w; simpl; [done|].
  intros [Hok Hrest].
  destruct (h (os_RemoveAll (filepath_Join [dir; name])) w) as [err w1] eqn:E.
  simpl in *. subst err. by rewrite (IH w1 Hrest).
Qed.

Lemma exec_RemoveContents_range_abort (dir : string) (before : list string)
    (name : string) (after : list string) (e : errno) (w : W) :
  removals_succeed h dir before w →
  (h (os_RemoveAll (filepath_Join [dir; name])) (after_removals h dir before w)).1
  = Some e →
  exec h (RemoveContents_range dir (before ++ name :: after)) w
  = {| result := Returned (Some e);
       final := (h (os_RemoveAll (filepath_Join [dir; name]))
                   (after_removals h dir before w)).2;
       trace := (λ name, os_RemoveAll (filepath_Join [dir; name]))
                  <$> (before ++ [name]) |}.
Proof.
  revert w. induction before as [|b before IH]; intros w; simpl.
  - intros _ He.
    destruct (h (os_RemoveAll (filepath_Join [dir; name])) w) as [err w1] eqn:E.
    simpl in *. by subst err.
  - intros [Hok Hrest] He.
    destruct (h (os_RemoveAll (filepath_Join [dir; b])) w) as [err w1] eqn:E.
    simpl in *. subst err. by rewrite (IH w1 Hrest He).
Qed.

(** [RemoveContents] around its loop. *)
Lemma exec_RemoveContents (dir : string) (f : File) (names : list string) (w : W) :
  (h (os_Open dir) w).1 = (Some f, None) →
  (h (File_Readdirnames f (-1)) (h (os_Open dir) w).2).1 = (names, None) →
  let w2 := (h (File_Readdirnames f (-1)) (h (os_Open dir) w).2).2 in
  let loop := exec h (RemoveContents_range dir names) w2 in
  ∀ err, result loop = Returned err →
  exec h (RemoveContents dir) w
  = {| result := Returned err;
       final := (h (File_Close f) (final loop)).2;
       trace := [os_Open dir; File_Readdirnames f (-1)] ++ trace loop ++ [File_Close f] |}.
Proof.
  unfold RemoveContents.
  destruct (h (os_Open dir) w) as [[d err1] w1] eqn:E1. simpl.
  intros [= -> ->].
  destruct (h (File_Readdirnames f (-1)) w1) as [[names' err2] w2] eqn:E2. simpl.
  intros [= -> ->] err Hloop.
  rewrite E1. cbn [fst snd]. unfold defer. rewrite exec_bind.
  match goal with
  | |- context [exec h (Readdirnames (Some f) (-1) ≫= ?k) w1] =>
      set (body := Readdirnames (Some f) (-1) ≫= k)
  end.
  assert (Hb : exec h body w1
               = {| result := Returned err;
                    final := final (exec h (RemoveContents_range dir names) w2);
                    trace := File_Readdirnames f (-1)
                             :: trace (exec h (RemoveContents_range dir names) w2) |}).
  { subst body. unfold Readdirnames. step_invoke. rewrite E2. cbn [fst snd].
    f_equal. exact Hloop. }
  rewrite Hb. done.
Qed.

End RemoveContents_loop.

Lemma removals_succeed_of_result `{PathLib} {W : Type} (h : handler W)
    (dir : string) (names : list string) (w : W) :
  result (exec h (RemoveContents_range dir names) w) = Returned None →
  removals_succeed h dir names w.
Proof.
  revert w. induction names as [|name rest IH]; intros w; simpl; [done|].
  destruct (h (os_RemoveAll (filepath_Join [dir; name])) w) as [[e|] w1] eqn:E;
    simpl; [done|].
  intros Hr. split; [done|]. by apply IH.
Qed.

(** ** The machine: paths and removal *)

Section machine_removal.
Implicit Types (m : gmap (list string) node) (p q d k : list string) (w : machine).

Lemma components_app_sep (cur a b : string) (c : ascii) :
  is_sep c = true →
  components cur (a +:+ String c b) = components cur a ++ components "" b.
Proof.
  intros Hc. revert cur. induction a as [|x a IH]; intros cur.
  - rewrite app_nil_s. simpl. rewrite Hc. by destruct (String.eqb cur "").
  - rewrite app_cons_s. simpl. destruct (is_sep x).
    + destruct (String.eqb cur ""); by rewrite IH.
    + apply IH.
Qed.

Lemma valid_name_nonempty (s : string) : valid_name s → s ≠ "".
Proof. by intros Hs ->. Qed.

Lemma parse_path_join (dir name : string) :
  valid_name name →
  parse_path (filepath_Join [dir; name]) = parse_path dir ++ [name].
Proof.
  intros Hname. pose proof (valid_name_nonempty name Hname) as Hne.
  unfold filepath_Join, machine_paths.
  rewrite !filter_cons, filter_nil.
  destruct (decide (name ≠ "")) as [_|]; [|done].
  destruct (decide (dir ≠ "")) as [Hd|Hd].
  - change (Strings.Join [dir; name] backslash)
      with (dir +:+ String "\"%char name).
    unfold valid_name, parse_path in *. rewrite components_app_sep by done.
    by rewrite Hname.
  - apply dec_stable in Hd as ->. simpl. exact Hname.
Qed.

Lemma child_name_Some d k (c : string) : child_name d k = Some c ↔ k = d ++ [c].
Proof.
  revert k. induction d as [|x d IH]; intros k; simpl.
  - destruct k as [|y [|z k]]; split; intros Hk; by simplify_eq.
  - destruct k as [|y k]; [split; intros Hk; by simplify_eq|].
    destruct (decide (x = y)) as [->|Hne].
    + rewrite IH. split; intros Hk; by simplify_eq.
    + split; intros Hk; by simplify_eq.
Qed.

Lemma elem_of_child_names m d (c : string) :
  c ∈ child_names m d ↔ is_Some (m !! (d ++ [c])).
Proof.
  unfold child_names, child_infos. rewrite list_elem_of_fmap. split.
  - intros (info & -> & Hinfo). apply list_elem_of_omap in Hinfo as ([k n] & Hkn & Hc).
    simpl in Hc. destruct (child_name d k) as [c|] eqn:Hk; [|done].
    apply child_name_Some in Hk as ->. apply elem_of_map_to_list in Hkn.
    simpl in Hc. injection Hc as <-. simpl. eauto.
  - intros [n Hn]. exists {| Name := c; IsDir := is_dir n |}. split; [done|].
    apply list_elem_of_omap. exists (d ++ [c], n). split.
    + by apply elem_of_map_to_list.
    + simpl. by rewrite (proj2 (child_name_Some d (d ++ [c]) c) eq_refl).
Qed.

Lemma pinned_prefix w p k : p `prefix_of` k → pinned w k → pinned w p.
Proof.
  unfold pinned. rewrite !List.Exists_exists. intros Hpk (l & Hl & Hkl & Hsome).
  exists l. split; [done|]. split; [by etrans | done].
Qed.

(** One [os.RemoveAll] on the machine. *)
Lemma remove_all_frame w p k :
  ¬ p `prefix_of` k → entries (remove_all w p).2 !! k = entries w !! k.
Proof.
  intros Hk. simpl. destruct (entries w !! k) as [n|] eqn:Hn.
  - apply map_lookup_filter_Some. split; [done|]. simpl. tauto.
  - apply map_lookup_filter_None. by left.
Qed.

Lemma remove_all_mono w p k (n : node) :
  entries (remove_all w p).2 !! k = Some n → entries w !! k = Some n.
Proof. simpl. intros Hk. by apply map_lookup_filter_Some in Hk as [? _]. Qed.

Lemma remove_all_gone w p k :
  (remove_all w p).1 = None → is_Some (entries w !! p) → p `prefix_of` k →
  entries (remove_all w p).2 !! k = None.
Proof.
  unfold remove_all. cbn [fst snd]. set (m' := filter _ (entries w)).
  destruct (decide (is_Some (m' !! p))) as [|Hp]; [done|]. intros _ [n Hn] Hpk.
  cbn [entries set_entries].
  assert (Hnp : ¬ pinned w p).
  { intros Hpin. apply Hp. exists n. apply map_lookup_filter_Some.
    split; [done|]. simpl. tauto. }
  destruct (m' !! k) as [n'|] eqn:Hk; [|done].
  apply map_lookup_filter_Some in Hk as [_ Hk]. simpl in Hk.
  exfalso. apply Hk. split; [done|]. intros Hpin. apply Hnp.
  by apply (pinned_prefix w p k).
Qed.

Lemma prefix_snoc_ne d k (c c' : string) :
  c ≠ c' → d ++ [c] `prefix_of` k → ¬ d ++ [c'] `prefix_of` k.
Proof.
  intros Hne [r ->] [r' Hr']. rewrite <- !(assoc_L (++)) in Hr'.
  apply app_inv_head in Hr'. by simplify_eq.
Qed.

Lemma prefix_not_child q d (c : string) :
  q `prefix_of` d → ¬ d ++ [c] `prefix_of` q.
Proof.
  intros Hq Hd. apply prefix_length in Hq, Hd. rewrite length_app in Hd.
  simpl in Hd. lia.
Qed.

(** The loop of [RemoveContents] on the machine, when every removal goes
    through. *)
Lemma after_removals_machine (dir : string) (names : list string) w :
  Forall valid_name names →
  removals_succeed machine_handler dir names w →
  let d := parse_path dir in
  let w' := after_removals machine_handler dir names w in
  (∀ k, (∀ c, c ∈ names → ¬ d ++ [c] `prefix_of` k) →
        entries w' !! k = entries w !! k)
  ∧ (∀ k n, entries w' !! k = Some n → entries w !! k = Some n)
  ∧ (∀ c tail, c ∈ names → is_Some (entries w !! (d ++ [c])) →
        entries w' !! (d ++ c :: tail) = None).
Proof.
  intros Hvalid. revert w. induction Hvalid as [|name rest Hname Hrest IH]; intros w.
  - intros _ d w'. split; [done|]. split; [done|]. intros c tail Hc.
    by apply elem_of_nil in Hc.
  - cbn [removals_succeed after_removals]. cbn [machine_handler].
    rewrite (parse_path_join dir name Hname).
    intros [Hok Hloop]. destruct (IH _ Hloop) as (Hframe & Hmono & Hgone).
    set (d := parse_path dir) in *.
    set (w' := after_removals machine_handler dir rest _) in *.
    split; [|split].
    + intros k Hk. rewrite Hframe.
      * apply remove_all_frame. apply Hk. by left.
      * intros c Hc. apply Hk. by right.
    + intros k n Hk. apply Hmono in Hk. by apply remove_all_mono in Hk.
    + intros c tail Hc Hsome. destruct (decide (c = name)) as [->|Hne].
      * destruct (entries w' !! (d ++ name :: tail)) as [n|] eqn:Hn; [|done].
        apply Hmono in Hn. rewrite remove_all_gone in Hn; [done..|].
        exists tail. by rewrite <- (assoc_L (++)).
      * apply Hgone.
        -- apply elem_of_cons in Hc as [?|?]; done.
        -- rewrite remove_all_frame; [done|].
           apply (prefix_snoc_ne d _ c name Hne). done.
Qed.

End machine_removal.

Lemma result_RemoveContents_range `{PathLib} {W : Type} (h : handler W)
    (dir : string) (names : list string) (w : W) :
  ∃ err, result (exec h (RemoveContents_range dir names) w) = Returned err.
Proof.
  revert w. induction names as [|name rest IH]; intros w; simpl; [eauto|].
  destruct (h (os_RemoveAll (filepath_Join [dir; name])) w) as [[e|] w1] eqn:E;
    simpl; [eauto|]. apply IH.
Qed.

Lemma RemoveContents_ok_inv `{PathLib} {W : Type} (h : handler W) (dir : string) (w : W) :
  result (exec h (RemoveContents dir) w) = Returned None →
  ∃ f names,
    (h (os_Open dir) w).1 = (Some f, None)
    ∧ (h (File_Readdirnames f (-1)) (h (os_Open dir) w).2).1 = (names, None).
Proof.
  unfold RemoveContents. step_invoke.
  destruct (h (os_Open dir) w) as [[[f|] [e|]] w1]; cbn [fst snd]; try done.
  unfold defer. rewrite exec_bind. unfold Readdirnames. step_invoke.
  destruct (h (File_Readdirnames f (-1)) w1) as [[names [e|]] w2] eqn:E2;
    cbn [fst snd]; simpl; [done|].
  intros _. exists f, names. by rewrite E2.
Qed.

(** A successful [RemoveContents] on the machine. *)
Lemma RemoveContents_machine (w : machine) (dir : string) :
  valid_names w →
  result (exec machine_handler (RemoveContents dir) w) = Returned None →
  let d := parse_path dir in
  let w' := final (exec machine_handler (RemoveContents dir) w) in
  resolve (entries w') d = inl DirNode
  ∧ child_names (entries w') d = []
  ∧ (∀ c tail, is_Some (entries w !! (d ++ [c])) →
       entries w' !! (d ++ c :: tail) = None)
  ∧ (∀ k, (∀ c, ¬ d ++ [c] `prefix_of` k) → entries w' !! k = entries w !! k).
Proof.
  intros Hvalid Hres d w'.
  destruct (RemoveContents_ok_inv machine_handler dir w Hres)
    as (f & names & Hopen & Hread).
  assert (Hw1 : (machine_handler (os_Open dir) w).2 = w).
  { cbn [machine_handler]. by destruct (resolve _ _). }
  rewrite Hw1 in Hread.
  assert (Hw2 : (machine_handler (File_Readdirnames f (-1))
                   (machine_handler (os_Open dir) w).2).2 = w).
  { by rewrite Hw1. }
  assert (Hf : f = {| file_name := dir |}).
  { revert Hopen. cbn [machine_handler]. destruct (resolve _ _); simpl; congruence. }
  assert (Hd : resolve (entries w) d = inl DirNode ∧ names = child_names (entries w) d).
  { revert Hread. subst f. cbn [machine_handler file_name]. unfold read_dir. fold d.
    destruct (resolve (entries w) d) as [[content|]|e]; simpl; [congruence| |congruence].
    by intros [= <-]. }
  destruct Hd as [Hd ->]. set (names := child_names (entries w) d) in *.
  rewrite <- Hw1 in Hread.
  destruct (result_RemoveContents_range machine_handler dir names w) as [err Hloop].
  pose proof (exec_RemoveContents machine_handler dir f names w Hopen Hread) as Hexec.
  cbv zeta in Hexec. rewrite Hw2 in Hexec. specialize (Hexec err Hloop).
  subst w'. rewrite Hexec in Hres |- *. cbn [result final] in *.
  injection Hres as ->.
  pose proof (removals_succeed_of_result machine_handler dir names w Hloop) as Hok.
  rewrite (exec_RemoveContents_range_ok machine_handler dir names w Hok).
  cbn [final machine_handler snd].
  assert (Hnames : Forall valid_name names).
  { apply Forall_forall. intros c Hc. apply elem_of_child_names in Hc as [n Hn].
    apply Hvalid in Hn. apply Forall_app in Hn as [_ Hn]. by inversion Hn. }
  destruct (after_removals_machine dir names w Hnames Hok) as (Hframe & Hmono & Hgone).
  fold d in Hframe, Hgone.
  set (w' := after_removals machine_handler dir names w) in *.
  split; [|split; [|split]].
  - apply resolve_dir. intros q Hq. apply resolve_dir in Hd. specialize (Hd q Hq).
    unfold lookup_node in *. destruct q as [|x q]; [done|].
    rewrite Hframe; [done|]. intros c _. by apply prefix_not_child.
  - destruct (child_names (entries w') d) as [|c cs] eqn:Hcs; [done|].
    assert (Hc : c ∈ child_names (entries w') d) by (rewrite Hcs; by left).
    apply elem_of_child_names in Hc as [n Hn].
    pose proof (Hmono _ _ Hn) as Hn0.
    rewrite (Hgone c [] (proj2 (elem_of_child_names _ _ _) (mk_is_Some _ _ Hn0))
               (mk_is_Some _ _ Hn0)) in Hn. done.
  - intros c tail Hsome. apply Hgone; [|done]. by apply elem_of_child_names.
  - intros k Hk. apply Hframe. intros c _. apply Hk.
Qed.

(** C8: a successful RemoveContents deletes every immediate child of the
    directory, with all that is below it, and leaves the directory in
    place and empty; on the first deletion that fails it stops and
    returns that error, and no removal of a later child is attempted. *)
Theorem RemoveContents_removes_children :
  (∀ (w : machine) (dir : string),
     valid_names w →
     result (exec machine_handler (@RemoveContents machine_paths dir) w)
     = Returned None →
     let d := parse_path dir in
     let w' := final (exec machine_handler (@RemoveContents machine_paths dir) w) in
     resolve (entries w') d = inl DirNode
     ∧ child_names (entries w') d = []
     ∧ (∀ c tail, is_Some (entries w !! (d ++ [c])) →
          entries w' !! (d ++ c :: tail) = None)
     ∧ (∀ k, (∀ c, ¬ d ++ [c] `prefix_of` k) → entries w' !! k = entries w !! k))
  ∧ (∀ (P : PathLib) (W : Type) (h : handler W) (w : W) (dir : string) (f : File)
       (before : list string) (name : string) (after : list string) (e : errno),
     (h (os_Open dir) w).1 = (Some f, None) →
     let w1 := (h (os_Open dir) w).2 in
     (h (File_Readdirnames f (-1)) w1).1 = (before ++ name :: after, None) →
     let w2 := (h (File_Readdirnames f (-1)) w1).2 in
     @removals_succeed P W h dir before w2 →
     let remove := os_RemoveAll (@filepath_Join P [dir; name]) in
     (h remove (@after_removals P W h dir before w2)).1 = Some e →
     let r := exec h (@RemoveContents P dir) w in
     result r = Returned (Some e)
     ∧ trace r
       = [os_Open dir; File_Readdirnames f (-1)]
         ++ ((λ n, os_RemoveAll (@filepath_Join P [dir; n])) <$> before ++ [name])
         ++ [File_Close f]
     ∧ final r
       = (h (File_Close f) (h remove (@after_removals P W h dir before w2)).2).2).
Proof.
  split; [exact RemoveContents_machine|].
  intros P W h w dir f before name after e Hopen w1 Hread w2 Hok remove Hfail r.
  pose proof (exec_RemoveContents_range_abort h dir before name after e w2 Hok Hfail)
    as Hloop.
  pose proof (exec_RemoveContents h dir f (before ++ name :: after) w Hopen Hread
                (Some e)) as Hexec.
  cbv zeta in Hexec. fold w1 w2 in Hexec. rewrite Hloop in Hexec.
  subst r. rewrite Hexec by done. done.
Qed.

Lemma RemoveContents_removes_children_witness :
  (valid_names sample
   ∧ result (exec machine_handler (RemoveContents "tmp") sample) = Returned None
   ∧ child_names
       (entries (final (exec machine_handler (RemoveContents "tmp") sample))) ["tmp"]
     = [])
  ∧ ((machine_handler (os_RemoveAll "tmp\app.ini") sample_locked).1 = Some EBUSY
     ∧ trace (exec machine_handler (RemoveContents "tmp") sample_locked)
       = [os_Open "tmp"; File_Readdirnames {| file_name := "tmp" |} (-1);
          os_RemoveAll "tmp\app.ini"; File_Close {| file_name := "tmp" |}]).
Proof.
  destruct RemoveContents_removes_children as [Hok Habort].
  assert (Hvalid : valid_names sample).
  { apply (bool_decide_unpack _). vm_compute. exact I. }
  split.
  - split; [exact Hvalid|]. split; [reflexivity|].
    destruct (Hok sample "tmp" Hvalid eq_refl) as (_ & Hempty & _).
    exact Hempty.
  - split; [reflexivity|].
    destruct (Habort machine_paths machine machine_handler sample_locked "tmp"
                {| file_name := "tmp" |} [] "app.ini" ["sub"] EBUSY
                eq_refl eq_refl I eq_refl) as (_ & Ht & _).
    exact Ht.
Defined.

(** ** The cleaning step of release.app *)

Section cleaning_facts.
Import Ant.
Implicit Types (fs : gmap (list string) node) (k base dir rel : list string).

Lemma relative_to_Some base k rel : relative_to base k = Some rel ↔ k = base ++ rel.
Proof.
  revert k. induction base as [|x base IH]; intros k; simpl.
  - split; intros Hk; by simplify_eq.
  - destruct k as [|y k]; [split; intros Hk; by simplify_eq|].
    destruct (decide (x = y)) as [->|Hne].
    + rewrite IH. split; intros Hk; by simplify_eq.
    + split; intros Hk; by simplify_eq.
Qed.

Lemma delete_dir_mono dir fs k (n : node) :
  delete_dir dir fs !! k = Some n → fs !! k = Some n.
Proof.
  unfold delete_dir. destruct (lookup_node fs dir) as [[c|]|]; try done.
  intros Hk. by apply map_lookup_filter_Some in Hk as [? _].
Qed.

Lemma delete_dir_frame dir fs k :
  ¬ dir `prefix_of` k → delete_dir dir fs !! k = fs !! k.
Proof.
  intros Hk. unfold delete_dir. destruct (lookup_node fs dir) as [[c|]|]; try done.
  destruct (fs !! k) as [n|] eqn:Hn.
  - by apply map_lookup_filter_Some.
  - apply map_lookup_filter_None. by left.
Qed.

Lemma delete_dir_gone dir fs k :
  lookup_node fs dir = Some DirNode → dir `prefix_of` k → delete_dir dir fs !! k = None.
Proof.
  intros Hd Hk. unfold delete_dir. rewrite Hd.
  apply map_lookup_filter_None. right. intros n _. simpl. tauto.
Qed.

Lemma delete_fileset_mono (s : fileset) (b : bool) fs k (n : node) :
  (delete_fileset s b fs).2 !! k = Some n → fs !! k = Some n.
Proof.
  unfold delete_fileset. destruct (lookup_node fs (fs_dir s)) as [[c|]|]; try done.
  simpl. intros Hk. by apply map_lookup_filter_Some in Hk as [? _].
Qed.

(** What an [<exclude>] names stays. *)
Lemma delete_fileset_excluded (s : fileset) (b : bool) fs k rel :
  relative_to (fs_dir s) k = Some rel → excluded s rel = true →
  (delete_fileset s b fs).2 !! k = fs !! k.
Proof.
  intros Hrel Hex. unfold delete_fileset.
  destruct (lookup_node fs (fs_dir s)) as [[c|]|]; try done. simpl.
  destruct (fs !! k) as [n|] eqn:Hn.
  - apply map_lookup_filter_Some. split; [done|]. simpl.
    unfold selected_for_delete. rewrite Hrel, Hex. simpl. by intros [].
  - apply map_lookup_filter_None. by left.
Qed.

Lemma holds_excluded_false (s : fileset) fs k :
  (∀ k' n' rel', fs !! k' = Some n' → k `prefix_of` k' →
     relative_to (fs_dir s) k' = Some rel' → excluded s rel' = false) →
  holds_excluded s fs k = false.
Proof.
  intros Hno. unfold holds_excluded. apply not_true_is_false. intros Hex.
  apply existsb_exists in Hex as ([k' n'] & Hin & Hk').
  apply list_elem_of_In, elem_of_map_to_list in Hin. simpl in Hk'.
  apply andb_true_iff in Hk' as [Hpre Hrel].
  apply bool_decide_eq_true in Hpre as [_ Hpre].
  destruct (relative_to (fs_dir s) k') as [rel'|] eqn:Hr; [|done]. simpl in Hrel.
  by rewrite (Hno k' n' rel' Hin Hpre Hr) in Hrel.
Qed.

(** What is selected and holds nothing excluded goes. *)
Lemma delete_fileset_gone (s : fileset) fs k rel :
  lookup_node fs (fs_dir s) = Some DirNode →
  relative_to (fs_dir s) k = Some rel →
  (∀ k' n' rel', fs !! k' = Some n' → k `prefix_of` k' →
     relative_to (fs_dir s) k' = Some rel' → excluded s rel' = false) →
  (delete_fileset s true fs).2 !! k = None.
Proof.
  intros Hd Hrel Hno. unfold delete_fileset. rewrite Hd. simpl.
  apply map_lookup_filter_None. right. intros n Hn. simpl.
  unfold selected_for_delete. rewrite Hrel.
  rewrite (Hno k n rel Hn (reflexivity _) Hrel). simpl.
  rewrite (holds_excluded_false s fs k Hno). by destruct n; intros [].
Qed.

End cleaning_facts.



(** ** FormatUnixPath and FormatWindowsPath *)

Section byte_facts.
Import Strings Strings2.

Lemma HasPrefix_byte (c a : ascii) (t : string) :
  HasPrefix (String c t) (String a EmptyString) = Ascii.eqb c a.
Proof.
  unfold HasPrefix, upto. simpl. destruct t; simpl;
    destruct (Ascii.eqb c a); done.
Qed.

Lemma Index_byte_cons (c a : ascii) (t : string) :
  Index (String c t) (String a EmptyString)
  = if Ascii.eqb c a then Some 0 else S <$> Index t (String a EmptyString).
Proof. simpl Index. by rewrite HasPrefix_byte. Qed.

Lemma Index_byte_None (a : ascii) (s : string) :
  Index s (String a EmptyString) = None ↔ has_byte a s = false.
Proof.
  induction s as [|c s IH]; [done|].
  rewrite Index_byte_cons. simpl. destruct (Ascii.eqb c a); simpl; [done|].
  rewrite <- IH. by destruct (Index s _).
Qed.

Lemma has_byte_app (a : ascii) (x y : string) :
  has_byte a (x +:+ y) = has_byte a x || has_byte a y.
Proof.
  induction x as [|c x IH]; [done|]. rewrite app_cons_s. simpl.
  by rewrite IH, orb_assoc.
Qed.

Lemma replace_byte_app (a b : ascii) (x y : string) :
  replace_byte a b (x +:+ y) = replace_byte a b x +:+ replace_byte a b y.
Proof.
  induction x as [|c x IH]; [done|]. rewrite app_cons_s. simpl.
  by rewrite IH, app_cons_s.
Qed.

Lemma replace_byte_absent (a b : ascii) (s : string) :
  has_byte a s = false → replace_byte a b s = s.
Proof.
  induction s as [|c s IH]; [done|]. simpl.
  destruct (Ascii.eqb c a); simpl; [done|]. intros Hs. by rewrite IH.
Qed.

Lemma has_byte_replace (a b : ascii) (s : string) :
  a ≠ b → has_byte a (replace_byte a b s) = false.
Proof.
  intros Hab. induction s as [|c s IH]; [done|]. simpl. rewrite IH.
  destruct (Ascii.eqb_spec c a) as [->|Hca]; rewrite orb_false_r.
  - apply Ascii.eqb_neq. congruence.
  - by apply Ascii.eqb_neq.
Qed.

Lemma has_byte_replace_other (a b x : ascii) (s : string) :
  x ≠ a → x ≠ b → has_byte x (replace_byte a b s) = has_byte x s.
Proof.
  intros Hxa Hxb. induction s as [|c s IH]; [done|]. simpl. rewrite IH. f_equal.
  destruct (Ascii.eqb_spec c a) as [->|Hca]; [|done].
  rewrite (proj2 (Ascii.eqb_neq b x)), (proj2 (Ascii.eqb_neq a x)); done.
Qed.

Lemma replace_byte_back (a b : ascii) (s : string) :
  has_byte b s = false → replace_byte b a (replace_byte a b s) = s.
Proof.
  induction s as [|c s IH]; [done|]. simpl.
  destruct (Ascii.eqb_spec c b) as [->|Hcb]; simpl; [done|]. intros Hs.
  rewrite IH by done. f_equal.
  destruct (Ascii.eqb_spec c a) as [->|Hca].
  - by rewrite Ascii.eqb_refl.
  - by rewrite (proj2 (Ascii.eqb_neq c b)).
Qed.

Lemma replace_byte_absorb (a b : ascii) (s : string) :
  replace_byte a b (replace_byte b a s) = replace_byte a b s.
Proof.
  induction s as [|c s IH]; [done|]. simpl. rewrite IH. f_equal.
  destruct (Ascii.eqb_spec c b) as [->|Hcb].
  - rewrite Ascii.eqb_refl. by destruct (Ascii.eqb b a).
  - done.
Qed.

Lemma length_replace_byte (a b : ascii) (s : string) :
  String.length (replace_byte a b s) = String.length s.
Proof. induction s as [|c s IH]; [done|]. simpl. by rewrite IH. Qed.

(** The loops of [Count] and [Replace] on a one-byte [old] change every
    such byte. *)
Lemma Replace_loop_byte (a b : ascii) (fuel : nat) (s : string) :
  String.length s ≤ fuel →
  Replace_loop (Count_loop fuel s (String a EmptyString)) s
    (String a EmptyString) (String b EmptyString)
  = replace_byte a b s.
Proof.
  revert s. induction fuel as [|fuel IH]; intros s Hlen.
  - destruct s; [done | simpl in Hlen; lia].
  - simpl Count_loop.
    destruct (Index s (String a EmptyString)) as [j|] eqn:Hi.
    + simpl Replace_loop. rewrite Hi.
      pose proof (Index_cut s _ j Hi) as Hcut.
      pose proof (Index_upto s (String a EmptyString) j ltac:(done) Hi) as Hup.
      apply Index_byte_None in Hup.
      rewrite IH.
      2: { rewrite length_from. apply Index_length in Hi. simpl in Hi. lia. }
      rewrite Hcut at 3. rewrite !replace_byte_app.
      rewrite (replace_byte_absent a b (upto j s) Hup). simpl.
      by rewrite Ascii.eqb_refl.
    + simpl. apply Index_byte_None in Hi. by rewrite replace_byte_absent.
Qed.

Lemma Replace_byte (a b : ascii) (s : string) :
  Replace s (String a EmptyString) (String b EmptyString) (-1) = replace_byte a b s.
Proof.
  unfold Replace. simpl.
  destruct (Ascii.eqb_spec a b) as [->|Hab]; simpl.
  - symmetry. induction s as [|c s IH]; [done|]. simpl. rewrite IH.
    by destruct (Ascii.eqb_spec c b) as [->|].
  - unfold Count. simpl.
    destruct (Count_loop (String.length s) s (String a EmptyString)) as [|m] eqn:Hm.
    + simpl. pose proof (Replace_loop_byte a b (String.length s) s (le_n _)) as Hr.
      by rewrite Hm in Hr.
    + cbn [Nat.eqb]. rewrite <- Hm. by apply Replace_loop_byte.
Qed.

Lemma FormatUnixPath_bytes (path : string) :
  FormatUnixPath path = replace_byte "\"%char "/"%char path.
Proof. apply Replace_byte. Qed.

Lemma FormatWindowsPath_bytes (path : string) :
  FormatWindowsPath path = replace_byte "/"%char "\"%char path.
Proof. apply Replace_byte. Qed.

End byte_facts.

Section format_path.
Import Strings Strings2.

Lemma get_replace_byte (a b : ascii) (s : string) (i : nat) :
  String.get i (replace_byte a b s)
  = (λ c, if Ascii.eqb c a then b else c) <$> String.get i s.
Proof.
  revert i. induction s as [|c s IH]; intros i; [done|].
  destruct i as [|i]; simpl; [done | apply IH].
Qed.

Lemma replace_byte_fixed (a b : ascii) (s : string) :
  a ≠ b → (replace_byte a b s = s ↔ has_byte a s = false).
Proof.
  intros Hab. split; [|apply replace_byte_absent].
  intros Hs. rewrite <- Hs. by apply has_byte_replace.
Qed.

Lemma replace_byte_Join (a b : ascii) (l : list string) (sep : string) :
  replace_byte a b (Join l sep) = Join (replace_byte a b <$> l) (replace_byte a b sep).
Proof.
  rewrite !Join_concat. induction l as [|x [|y l] IH]; [done..|].
  change (String.concat sep (x :: y :: l))
    with (x +:+ sep +:+ String.concat sep (y :: l)).
  rewrite !replace_byte_app, IH. done.
Qed.

Lemma FormatPath_normal_form_aux (path : string) :
  (FormatUnixPath path = path ↔ Index path backslash = None)
  ∧ (FormatWindowsPath path = path ↔ Index path slash = None).
Proof.
  unfold backslash, slash.
  rewrite FormatUnixPath_bytes, FormatWindowsPath_bytes, !Index_byte_None.
  split; by apply replace_byte_fixed.
Qed.

(** X1: FormatUnixPath changes every backslash into a slash and no other
    byte, and FormatWindowsPath every slash into a backslash: the length
    is kept and the byte at each index is the byte of the path, or the
    other separator in its place. *)
Theorem FormatPath_bytewise (path : string) (i : nat) :
  String.length (FormatUnixPath path) = String.length path
  ∧ String.length (FormatWindowsPath path) = String.length path
  ∧ String.get i (FormatUnixPath path)
    = (λ c, if Ascii.eqb c "\"%char then "/"%char else c) <$> String.get i path
  ∧ String.get i (FormatWindowsPath path)
    = (λ c, if Ascii.eqb c "/"%char then "\"%char else c) <$> String.get i path.
Proof.
  rewrite FormatUnixPath_bytes, FormatWindowsPath_bytes.
  rewrite !length_replace_byte, !get_replace_byte. done.
Qed.

(** X2: the result of FormatUnixPath holds no backslash and that of
    FormatWindowsPath no slash; a path is returned unchanged exactly when
    it holds none already, so both functions are idempotent. *)
Theorem FormatPath_normal_form (path : string) :
  Index (FormatUnixPath path) backslash = None
  ∧ Index (FormatWindowsPath path) slash = None
  ∧ (FormatUnixPath path = path ↔ Index path backslash = None)
  ∧ (FormatWindowsPath path = path ↔ Index path slash = None)
  ∧ FormatUnixPath (FormatUnixPath path) = FormatUnixPath path
  ∧ FormatWindowsPath (FormatWindowsPath path) = FormatWindowsPath path.
Proof.
  unfold backslash, slash.
  assert (Hu : Index (FormatUnixPath path) "\" = None).
  { apply Index_byte_None. rewrite FormatUnixPath_bytes. by apply has_byte_replace. }
  assert (Hw : Index (FormatWindowsPath path) "/" = None).
  { apply Index_byte_None. rewrite FormatWindowsPath_bytes. by apply has_byte_replace. }
  destruct (FormatPath_normal_form_aux path) as [Hfu Hfw].
  split; [done|]. split; [done|]. split; [done|]. split; [done|].
  split.
  - by apply (proj1 (FormatPath_normal_form_aux (FormatUnixPath path))).
  - by apply (proj2 (FormatPath_normal_form_aux (FormatWindowsPath path))).
Qed.

(** X3: converting to the other form and back is converting once:
    FormatWindowsPath(FormatUnixPath(p)) = FormatWindowsPath(p), and the
    other way round.  So the round trip gives the path back exactly when
    the path holds no separator of the intermediate form. *)
Theorem FormatPath_round_trip (path : string) :
  FormatWindowsPath (FormatUnixPath path) = FormatWindowsPath path
  ∧ FormatUnixPath (FormatWindowsPath path) = FormatUnixPath path
  ∧ (FormatWindowsPath (FormatUnixPath path) = path ↔ Index path slash = None)
  ∧ (FormatUnixPath (FormatWindowsPath path) = path ↔ Index path backslash = None).
Proof.
  assert (Hwu : FormatWindowsPath (FormatUnixPath path) = FormatWindowsPath path).
  { rewrite !FormatWindowsPath_bytes, FormatUnixPath_bytes. apply replace_byte_absorb. }
  assert (Huw : FormatUnixPath (FormatWindowsPath path) = FormatUnixPath path).
  { rewrite !FormatUnixPath_bytes, FormatWindowsPath_bytes. apply replace_byte_absorb. }
  split; [done|]. split; [done|]. rewrite Hwu, Huw.
  destruct (FormatPath_normal_form_aux path) as [Hfu Hfw]. done.
Qed.

End format_path.

(** ** More on PathJoin *)

Section PathJoin_more.
Import Strings Strings2.

Lemma skip_leading_empty_cases (elem : list string) :
  (skip_leading_empty elem = [] ∧ Forall (λ e, e = "") elem)
  ∨ (∃ c s rest,
       skip_leading_empty elem = String c s :: rest
       ∧ ∀ ys, skip_leading_empty (elem ++ ys) = String c s :: rest ++ ys).
Proof.
  induction elem as [|[|c s] elem IH]; simpl.
  - left. by split.
  - destruct IH as [[Hs Hall]|(c & s & rest & Hs & Happ)].
    + left. split; [done | by constructor].
    + right. exists c, s, rest. by split.
  - right. exists c, s, elem. by split.
Qed.

Lemma skip_leading_empty_all (xs ys : list string) :
  Forall (λ e, e = "") xs → skip_leading_empty (xs ++ ys) = skip_leading_empty ys.
Proof. induction 1 as [|x xs -> _ IH]; [done | exact IH]. Qed.

Lemma Join_nested (e : string) (r ys : list string) (sep : string) :
  Join (Join (e :: r) sep :: ys) sep = Join (e :: r ++ ys) sep.
Proof.
  rewrite !Join_cons, map_app, concat_empty_app. by rewrite app_assoc_s.
Qed.

Lemma Join_cons_nonempty (c : ascii) (s : string) (r : list string) (sep : string) :
  ∃ t, Join (String c s :: r) sep = String c t.
Proof. rewrite Join_cons, app_cons_s. eauto. Qed.

(** X5: a joined path can be joined further: PathJoin(PathJoin(xs...),
    ys...) is PathJoin(xs..., ys...), whatever segments are empty. *)
Theorem PathJoin_nested (xs ys : list string) :
  PathJoin (PathJoin xs :: ys) = PathJoin (xs ++ ys).
Proof.
  rewrite !PathJoin_skip.
  destruct (skip_leading_empty_cases xs)
    as [[Hs Hall]|(c & s & rest & Hs & Happ)].
  - rewrite Hs. simpl. by rewrite skip_leading_empty_all.
  - rewrite Hs, Happ.
    destruct (Join_cons_nonempty c s rest backslash) as [t Ht].
    rewrite Ht. simpl. rewrite <- Ht. apply Join_nested.
Qed.

(** X6: PathJoin returns the empty string exactly when every segment is
    empty (or there is none). *)
Theorem PathJoin_empty_iff (elem : list string) :
  PathJoin elem = "" ↔ Forall (λ e, e = "") elem.
Proof.
  rewrite PathJoin_skip.
  destruct (skip_leading_empty_cases elem)
    as [[Hs Hall]|(c & s & rest & Hs & Happ)].
  - rewrite Hs. done.
  - rewrite Hs. destruct (Join_cons_nonempty c s rest backslash) as [t ->].
    split; [done|]. intros Hall.
    rewrite <- (app_nil_r elem), (skip_leading_empty_all elem [] Hall) in Hs. done.
Qed.

(** X7: AppPathJoin puts the application path in front: with a non-empty
    application path no segment is skipped, empty ones included, and with
    an empty application path it is PathJoin of the segments. *)
Theorem AppPathJoin_root (c : ascii) (root : string) (elem : list string) :
  AppPathJoin (String c root) elem
  = String c root +:+ String.concat "" (map (λ e, backslash +:+ e) elem)
  ∧ AppPathJoin "" elem = PathJoin elem
  ∧ AppPathJoin (String c root) [] = String c root
  ∧ AppPathJoin (PathJoin [String c root]) elem = PathJoin (String c root :: elem).
Proof.
  unfold AppPathJoin. simpl app.
  split; [rewrite PathJoin_skip; apply Join_cons|].
  split; [by rewrite !PathJoin_skip|]. split; [done|].
  by rewrite (PathJoin_skip [String c root]).
Qed.

Lemma replace_byte_empty (a b : ascii) (s : string) :
  replace_byte a b s = "" ↔ s = "".
Proof. by destruct s. Qed.

Lemma skip_leading_empty_replace (a b : ascii) (elem : list string) :
  skip_leading_empty (replace_byte a b <$> elem)
  = replace_byte a b <$> skip_leading_empty elem.
Proof. induction elem as [|[|c s] elem IH]; simpl; done. Qed.

(** X4: the formatters commute with PathJoin.  FormatWindowsPath of a
    joined path is the join of the formatted segments, and FormatUnixPath
    of a joined path is the formatted segments, without the leading empty
    ones, joined by slashes. *)
Theorem FormatPath_PathJoin (elem : list string) :
  FormatWindowsPath (PathJoin elem) = PathJoin (FormatWindowsPath <$> elem)
  ∧ FormatUnixPath (PathJoin elem)
    = Join (FormatUnixPath <$> skip_leading_empty elem) slash.
Proof.
  rewrite !PathJoin_skip.
  assert (Hw : ∀ l : list string,
            FormatWindowsPath <$> l = replace_byte "/"%char "\"%char <$> l).
  { induction l as [|x l IH]; [done|].
    by rewrite !fmap_cons, IH, FormatWindowsPath_bytes. }
  assert (Hu : ∀ l : list string,
            FormatUnixPath <$> l = replace_byte "\"%char "/"%char <$> l).
  { induction l as [|x l IH]; [done|].
    by rewrite !fmap_cons, IH, FormatUnixPath_bytes. }
  rewrite Hw, Hu.
  rewrite FormatWindowsPath_bytes, FormatUnixPath_bytes, !replace_byte_Join.
  by rewrite skip_leading_empty_replace.
Qed.

End PathJoin_more.

(** ** More on ReplaceByPrefix *)

Section ReplaceByPrefix_more.
Import Strings Strings2.

Lemma Index_app_byte (a : ascii) (x y : string) :
  has_byte a x = false →
  Index (x +:+ String a y) (String a EmptyString) = Some (String.length x).
Proof.
  induction x as [|c x IH]; simpl has_byte.
  - intros _. rewrite app_nil_s, Index_byte_cons. by rewrite Ascii.eqb_refl.
  - destruct (Ascii.eqb c a) eqn:Hc; [done|]. intros Hx. rewrite app_cons_s.
    rewrite Index_byte_cons, Hc, IH by done. done.
Qed.

(** Splitting what was joined gives the pieces back, when no piece holds
    the separator. *)
Lemma genSplit_loop_Join (a : ascii) (pieces : list string) (fuel : nat) :
  pieces ≠ [] →
  Forall (λ piece, has_byte a piece = false) pieces →
  String.length (Join pieces (String a EmptyString)) ≤ fuel →
  genSplit_loop (Count_loop fuel (Join pieces (String a EmptyString)) (String a EmptyString))
    (Join pieces (String a EmptyString)) (String a EmptyString)
  = pieces.
Proof.
  intros Hne Hall. revert fuel.
  induction Hall as [|x pieces Hx Hall IH]; [done|]. intros fuel Hlen.
  destruct pieces as [|y pieces].
  - change (Join [x] (String a EmptyString)) with x in *.
    apply Index_byte_None in Hx. destruct fuel; simpl; by rewrite ?Hx.
  - rewrite Join_concat in *.
    change (String.concat (String a EmptyString) (x :: y :: pieces))
      with (x +:+ String a (String.concat (String a EmptyString) (y :: pieces))) in *.
    set (rest := String.concat (String a EmptyString) (y :: pieces)) in *.
    rewrite length_app_s in Hlen. simpl in Hlen.
    destruct fuel as [|fuel]; [lia|].
    assert (Hfrom : from (String.length x + 1) (x +:+ String a rest) = rest).
    { rewrite Nat.add_1_r.
      change (String a rest) with (String a EmptyString +:+ rest).
      rewrite <- app_assoc_s.
      replace (S (String.length x)) with (String.length (x +:+ String a EmptyString))
        by (rewrite length_app_s; simpl; lia).
      apply from_app_length. }
    simpl Count_loop. rewrite (Index_app_byte a x rest Hx).
    simpl String.length. rewrite Hfrom.
    simpl genSplit_loop. rewrite (Index_app_byte a x rest Hx).
    simpl String.length. rewrite Hfrom, upto_app_length. f_equal.
    apply IH; [done | lia].
Qed.

Lemma Split_Join_byte (a : ascii) (pieces : list string) :
  pieces ≠ [] →
  Forall (λ piece, has_byte a piece = false) pieces →
  Split (Join pieces (String a EmptyString)) (String a EmptyString) = pieces.
Proof.
  intros Hne Hall. unfold Split, Count. simpl String.eqb. cbv iota.
  by apply genSplit_loop_Join.
Qed.

Lemma rewrite_line_idem (prefix replace line : string) :
  rewrite_line prefix replace (rewrite_line prefix replace line)
  = rewrite_line prefix replace line.
Proof.
  unfold rewrite_line. destruct (HasPrefix line prefix) eqn:Hl.
  - by destruct (HasPrefix replace prefix).
  - by rewrite Hl.
Qed.

Lemma rewritten_lines (prefix replace input : string) :
  has_byte "010"%char replace = false →
  Split (rewritten prefix replace input) newline
  = rewrite_line prefix replace <$> Split input newline.
Proof.
  intros Hr. unfold rewritten, newline. apply Split_Join_byte.
  - assert (Hne : Split input newline ≠ []) by by apply Split_nonempty.
    unfold newline in Hne. by destruct (Split input _).
  - pose proof (Split_pieces input newline ltac:(done)) as Hp.
    unfold newline in Hp. induction Hp as [|x l Hx Hl IH]; [done|].
    rewrite fmap_cons. constructor; [|done].
    unfold rewrite_line. destruct (HasPrefix x prefix); [done|].
    by apply Index_byte_None.
Qed.

(** X8: when no line of the file starts with the prefix, ReplaceByPrefix
    writes back exactly the content it read. *)
Theorem ReplaceByPrefix_no_match {W : Type} (h : handler W) (w : W)
    (filename prefix replace input : string) :
  (h (ioutil_ReadFile filename) w).1 = (input, None) →
  Forall (λ line, HasPrefix line prefix = false) (Split input newline) →
  trace (exec h (ReplaceByPrefix filename prefix replace) w)
  = [ioutil_ReadFile filename; ioutil_WriteFile filename input perm_0644].
Proof.
  intros Hread Hno.
  rewrite (exec_ReplaceByPrefix h w _ _ _ input Hread). simpl.
  assert (Hid : rewrite_line prefix replace <$> Split input newline = Split input newline).
  { induction Hno as [|x l Hx Hl IH]; [done|].
    rewrite fmap_cons, IH. unfold rewrite_line. by rewrite Hx. }
  by rewrite Hid, Join_Split.
Qed.

Lemma ReplaceByPrefix_no_match_witness :
  (machine_handler (ioutil_ReadFile "tmp/app.ini") sample).1 = (sample_ini, None)
  ∧ trace (exec machine_handler (ReplaceByPrefix "tmp/app.ini" "D=" "D=4") sample)
    = [ioutil_ReadFile "tmp/app.ini";
       ioutil_WriteFile "tmp/app.ini" sample_ini perm_0644].
Proof.
  split; [reflexivity|].
  apply (ReplaceByPrefix_no_match machine_handler sample "tmp/app.ini" "D=" "D=4"
           sample_ini eq_refl).
  repeat constructor.
Defined.

(** X9: when the file cannot be read, ReplaceByPrefix returns the error
    of the read and writes nothing. *)
Theorem ReplaceByPrefix_read_error {W : Type} (h : handler W) (w : W)
    (filename prefix replace data : string) (e : errno) :
  (h (ioutil_ReadFile filename) w).1 = (data, Some e) →
  result (exec h (ReplaceByPrefix filename prefix replace) w) = Returned (Some e)
  ∧ trace (exec h (ReplaceByPrefix filename prefix replace) w)
    = [ioutil_ReadFile filename]
  ∧ final (exec h (ReplaceByPrefix filename prefix replace) w)
    = (h (ioutil_ReadFile filename) w).2.
Proof.
  unfold ReplaceByPrefix. simpl.
  destruct (h (ioutil_ReadFile filename) w) as [[data' err] w1]. simpl.
  by intros [= -> ->].
Qed.

Lemma ReplaceByPrefix_read_error_witness :
  (machine_handler (ioutil_ReadFile "tmp/none.ini") sample).1 = ("", Some ErrNotExist)
  ∧ final (exec machine_handler (ReplaceByPrefix "tmp/none.ini" "B=" "B=99") sample)
    = sample.
Proof.
  split; [reflexivity|].
  destruct (ReplaceByPrefix_read_error machine_handler sample "tmp/none.ini" "B=" "B=99"
              "" ErrNotExist eq_refl) as (_ & _ & Hf).
  exact Hf.
Defined.

(** X10: ReplaceByPrefix is idempotent when the replacement line holds no
    newline: run on a file that holds what an earlier run wrote, it
    writes the same content again. *)
Theorem ReplaceByPrefix_idempotent {W : Type} (h : handler W) (w : W)
    (filename prefix replace input : string) :
  Index replace newline = None →
  (h (ioutil_ReadFile filename) w).1 = (rewritten prefix replace input, None) →
  trace (exec h (ReplaceByPrefix filename prefix replace) w)
  = [ioutil_ReadFile filename;
     ioutil_WriteFile filename (rewritten prefix replace input) perm_0644].
Proof.
  intros Hr Hread. apply Index_byte_None in Hr.
  rewrite (exec_ReplaceByPrefix h w _ _ _ _ Hread). simpl.
  rewrite (rewritten_lines prefix replace input Hr).
  rewrite <- list_fmap_compose.
  assert (Hid : ∀ l : list string,
            (rewrite_line prefix replace ∘ rewrite_line prefix replace) <$> l
            = rewrite_line prefix replace <$> l).
  { induction l as [|x l IH]; [done|].
    rewrite !fmap_cons, IH. simpl. by rewrite rewrite_line_idem. }
  by rewrite Hid.
Qed.

Lemma ReplaceByPrefix_idempotent_witness :
  Index "B=99" newline = None
  ∧ trace (exec machine_handler (ReplaceByPrefix "tmp/app.ini" "B=" "B=99")
             (final (exec machine_handler (ReplaceByPrefix "tmp/app.ini" "B=" "B=99")
                       sample)))
    = [ioutil_ReadFile "tmp/app.ini";
       ioutil_WriteFile "tmp/app.ini" (rewritten "B=" "B=99" sample_ini) perm_0644].
Proof.
  split; [reflexivity|].
  apply (ReplaceByPrefix_idempotent machine_handler _ "tmp/app.ini" "B=" "B=99"
           sample_ini); reflexivity.
Defined.

End ReplaceByPrefix_more.

(** ** CopyFile and CreateFile *)

(** X11: CopyFile returns the first error among open, create, copy and
    sync and makes no further call except the deferred ones; every file
    it opened is closed again, the destination before the source, on
    each of these paths. *)
Theorem CopyFile_calls {W : Type} (h : handler W) (w : W) (src dest : string) :
  let r := exec h (CopyFile src dest) w in
  let w1 := (h (os_Open src) w).2 in
  (∀ fo e, (h (os_Open src) w).1 = (fo, Some e) →
     result r = Returned (Some e) ∧ trace r = [os_Open src])
  ∧ (∀ f go e,
       (h (os_Open src) w).1 = (Some f, None) →
       (h (os_Create dest) w1).1 = (go, Some e) →
       result r = Returned (Some e)
       ∧ trace r = [os_Open src; os_Create dest; File_Close f])
  ∧ (∀ f g,
       (h (os_Open src) w).1 = (Some f, None) →
       (h (os_Create dest) w1).1 = (Some g, None) →
       let copy := h (io_Copy g f) (h (os_Create dest) w1).2 in
       let sync := h (File_Sync g) copy.2 in
       result r = Returned (if copy.1.2 is Some e then Some e else sync.1)
       ∧ trace r
         = [os_Open src; os_Create dest; io_Copy g f]
           ++ (if copy.1.2 is Some _ then [] else [File_Sync g])
           ++ [File_Close g; File_Close f]).
Proof.
  intros r w1. subst r w1. unfold CopyFile.
  destruct (h (os_Open src) w) as [[fo eo] w1] eqn:E1.
  split; [|split].
  - intros fo' e [= -> ->]. simpl. by rewrite E1.
  - intros f go e [= -> ->]. cbn [snd].
    destruct (h (os_Create dest) w1) as [[go' ec] w2] eqn:E2.
    intros [= -> ->]. simpl. rewrite E1. simpl. rewrite E2. done.
  - intros f g [= -> ->]. cbn [snd].
    destruct (h (os_Create dest) w1) as [[go' ec] w2] eqn:E2.
    intros [= -> ->]. cbn [snd].
    destruct (h (io_Copy g f) w2) as [[n ecopy] w3] eqn:E3.
    simpl. rewrite E1. simpl. rewrite E2. simpl. rewrite E3. simpl.
    destruct ecopy as [e|]; simpl; [done|].
    by destruct (h (File_Sync g) w3) as [[e|] w4] eqn:E4.
Qed.

Lemma CopyFile_calls_witness :
  (machine_handler (os_Open "tmp/app.ini") sample).1
  = (Some {| file_name := "tmp/app.ini" |}, None)
  ∧ trace (exec machine_handler (CopyFile "tmp/app.ini" "tmp/copy.ini") sample)
    = [os_Open "tmp/app.ini"; os_Create "tmp/copy.ini";
       io_Copy {| file_name := "tmp/copy.ini" |} {| file_name := "tmp/app.ini" |};
       File_Sync {| file_name := "tmp/copy.ini" |};
       File_Close {| file_name := "tmp/copy.ini" |};
       File_Close {| file_name := "tmp/app.ini" |}].
Proof.
  split; [reflexivity|].
  destruct (CopyFile_calls machine_handler sample "tmp/app.ini" "tmp/copy.ini")
    as (_ & _ & Hok).
  destruct (Hok {| file_name := "tmp/app.ini" |} {| file_name := "tmp/copy.ini" |}
              eq_refl eq_refl) as [_ Ht].
  exact Ht.
Defined.

Section machine_files.
Implicit Types (m : gmap (list string) node) (p q base todo : list string) (w : machine).

(** Resolving depends on the entries along the path only. *)
Lemma resolve_from_ext m m' base todo :
  (∀ q, base `prefix_of` q → q `prefix_of` base ++ todo →
        lookup_node m' q = lookup_node m q) →
  resolve_from m' base todo = resolve_from m base todo.
Proof.
  revert base. induction todo as [|c rest IH]; intros base Hext; simpl.
  - by rewrite (Hext base) by (by rewrite ?app_nil_r).
  - rewrite (Hext base) by (done || by apply prefix_app_r).
    destruct (lookup_node m base) as [[content|]|]; try done.
    apply IH. intros q Hq1 Hq2. apply Hext.
    + etrans; [|done]. by apply prefix_app_r.
    + by rewrite <- (assoc_L (++)) in Hq2.
Qed.

Lemma resolve_ext m m' p :
  (∀ q, q `prefix_of` p → lookup_node m' q = lookup_node m q) →
  resolve m' p = resolve m p.
Proof. intros Hext. apply resolve_from_ext. intros q _ Hq. by apply Hext. Qed.

(** A path that resolves lies under directories. *)
Lemma resolve_from_inl m base todo (n : node) :
  resolve_from m base todo = inl n →
  lookup_node m (base ++ todo) = Some n
  ∧ ∀ q, base `prefix_of` q → q `prefix_of` base ++ todo → q ≠ base ++ todo →
         lookup_node m q = Some DirNode.
Proof.
  revert base. induction todo as [|c rest IH]; intros base; simpl.
  - rewrite app_nil_r. destruct (lookup_node m base) as [n'|] eqn:Hb; [|done].
    intros [= ->]. split; [done|]. intros q Hq1 Hq2 Hne.
    destruct Hne. by apply (anti_symm prefix).
  - destruct (lookup_node m base) as [[content|]|] eqn:Hb; try done.
    intros Hr. apply IH in Hr as [Hn Hdirs].
    rewrite <- (assoc_L (++)) in Hn, Hdirs. simpl in Hn, Hdirs.
    split; [done|]. intros q Hq1 Hq2 Hne.
    destruct (decide (q = base)) as [->|Hqb]; [done|].
    apply Hdirs; [|done..].
    destruct Hq1 as [t ->]. destruct t as [|x t]; [by rewrite app_nil_r in Hqb|].
    destruct Hq2 as [t' Ht']. rewrite <- !(assoc_L (++)) in Ht'.
    apply app_inv_head in Ht'. simpl in Ht'. injection Ht' as -> _.
    exists t. by rewrite <- (assoc_L (++)).
Qed.

Lemma resolve_inl m p (n : node) :
  resolve m p = inl n →
  lookup_node m p = Some n
  ∧ ∀ q, q `prefix_of` p → q ≠ p → lookup_node m q = Some DirNode.
Proof.
  intros Hr. apply resolve_from_inl in Hr as [Hn Hdirs]. split; [done|].
  intros q Hq Hne. apply Hdirs; [apply prefix_nil | done..].
Qed.

(** The entry under a directory that resolves. *)
Lemma resolve_snoc m p (c : string) :
  resolve m p = inl DirNode →
  resolve m (p ++ [c])
  = match m !! (p ++ [c]) with Some n => inl n | None => inr ErrNotExist end.
Proof.
  intros Hp. apply resolve_dir in Hp. unfold resolve.
  assert (Hgen : ∀ base todo, all_dirs m (base ++ todo) →
            resolve_from m base (todo ++ [c])
            = match m !! (base ++ todo ++ [c]) with
              | Some n => inl n
              | None => inr ErrNotExist
              end).
  { intros base todo. revert base. induction todo as [|x todo IH]; intros base Hall.
    - simpl. rewrite app_nil_r in Hall. rewrite (Hall base) by done.
      by rewrite lookup_node_snoc.
    - simpl. rewrite (Hall base) by (by apply prefix_app_r).
      rewrite IH by (by rewrite <- (assoc_L (++))).
      by rewrite <- (assoc_L (++)). }
  by apply (Hgen [] p).
Qed.

Lemma removelast_snoc_eq p : p ≠ [] → ∃ q c, p = q ++ [c] ∧ removelast p = q.
Proof.
  intros Hp. destruct (exists_last Hp) as (q & c & ->).
  exists q, c. split; [done|]. apply removelast_last.
Qed.

(** [os.Create] on the machine, when it succeeds. *)
Lemma create_file_ok w p w1 :
  create_file w p = (None, w1) →
  w1 = set_entries (<[p := FileNode ""]> (entries w)) w
  ∧ p ≠ []
  ∧ entries w !! p ≠ Some DirNode
  ∧ resolve (entries w1) p = inl (FileNode "").
Proof.
  unfold create_file. destruct p as [|x p'] eqn:Hp; [done|]. rewrite <- Hp.
  assert (Hne : p ≠ []) by (by rewrite Hp).
  destruct (removelast_snoc_eq p Hne) as (q & c & Hqc & Hq). fold (removelast p).
  destruct (resolve (entries w) (removelast p)) as [[content|]|e] eqn:Hparent; try done.
  assert (Hok : entries w !! p ≠ Some DirNode →
            ((None : error), set_entries (<[p:=FileNode ""]> (entries w)) w)
            = ((None : error), w1) →
            w1 = set_entries (<[p:=FileNode ""]> (entries w)) w
            ∧ p ≠ [] ∧ entries w !! p ≠ Some DirNode
            ∧ resolve (entries w1) p = inl (FileNode "")).
  { intros Hnd [= <-]. split; [done|]. split; [done|]. split; [done|].
    change (resolve (<[p:=FileNode ""]> (entries w)) p = inl (FileNode "")).
    rewrite Hq in Hparent. clear Hp Hq Hne. subst p. rewrite resolve_snoc.
    - by rewrite lookup_insert_eq.
    - rewrite <- Hparent. apply resolve_ext. intros q' Hq'.
      apply lookup_node_insert_ne. intros <-. by apply prefix_snoc_not in Hq'. }
  destruct (entries w !! p) as [[content|]|] eqn:Hentry; [by apply Hok| done |by apply Hok].
Qed.

(** Appending to a file that resolves, with room for all of it. *)
Lemma append_file_ok w p (c s : string) :
  resolve (entries w) p = inl (FileNode c) →
  String.length s ≤ budget w →
  append_file w p s
  = ((Z.of_nat (String.length s), None),
     set_budget (budget w - String.length s)
       (set_entries (<[p := FileNode (c +:+ s)]> (entries w)) w)).
Proof.
  intros Hp Hb. unfold append_file. rewrite Hp.
  by rewrite (proj2 (Nat.leb_le _ _) Hb).
Qed.

Lemma append_file_full w p (c s : string) :
  resolve (entries w) p = inl (FileNode c) →
  budget w < String.length s →
  append_file w p s
  = ((Z.of_nat (budget w), Some ENOSPC),
     set_budget 0
       (set_entries (<[p := FileNode (c +:+ Strings.upto (budget w) s)]> (entries w)) w)).
Proof.
  intros Hp Hb. unfold append_file. rewrite Hp.
  by rewrite (proj2 (Nat.leb_gt _ _) Hb).
Qed.

End machine_files.

(** The run of [CopyFile] once source and destination are open. *)
Lemma exec_CopyFile_open {W : Type} (h : handler W) (w : W) (src dest : string)
    (f g : File) :
  (h (os_Open src) w).1 = (Some f, None) →
  (h (os_Create dest) (h (os_Open src) w).2).1 = (Some g, None) →
  let copy := h (io_Copy g f) (h (os_Create dest) (h (os_Open src) w).2).2 in
  let sync := h (File_Sync g) copy.2 in
  let w3 := if copy.1.2 is Some _ then copy.2 else sync.2 in
  exec h (CopyFile src dest) w
  = {| result := Returned (if copy.1.2 is Some e then Some e else sync.1);
       final := (h (File_Close f) (h (File_Close g) w3).2).2;
       trace := [os_Open src; os_Create dest; io_Copy g f]
                ++ (if copy.1.2 is Some _ then [] else [File_Sync g])
                ++ [File_Close g; File_Close f] |}.
Proof.
  unfold CopyFile.
  destruct (h (os_Open src) w) as [[fo eo] w1] eqn:E1. cbn [fst snd].
  intros [= -> ->].
  destruct (h (os_Create dest) w1) as [[go' ec] w2] eqn:E2. cbn [fst snd].
  intros [= -> ->].
  destruct (h (io_Copy g f) w2) as [[n ecopy] w3] eqn:E3.
  simpl. rewrite E1. simpl. rewrite E2. simpl. rewrite E3. simpl.
  destruct ecopy as [e|]; simpl; [done|].
  by destruct (h (File_Sync g) w3) as [[e|] w4] eqn:E4.
Qed.

Section machine_copy.
Implicit Types (m : gmap (list string) node) (p q base todo : list string) (w : machine).

(** A path resolves to its entry when it lies under directories. *)
Lemma resolve_from_intro m base todo (n : node) :
  lookup_node m (base ++ todo) = Some n →
  (∀ q, base `prefix_of` q → q `prefix_of` base ++ todo → q ≠ base ++ todo →
        lookup_node m q = Some DirNode) →
  resolve_from m base todo = inl n.
Proof.
  revert base. induction todo as [|c rest IH]; intros base Hn Hdirs; simpl.
  - rewrite app_nil_r in Hn. by rewrite Hn.
  - rewrite (Hdirs base); [|done|by apply prefix_app_r|].
    2: { intros Heq. apply (f_equal length) in Heq.
         rewrite length_app in Heq. simpl in Heq. lia. }
    apply IH.
    + by rewrite <- (assoc_L (++)).
    + intros q Hq1 Hq2 Hne. rewrite <- (assoc_L (++)) in Hq2, Hne.
      apply Hdirs; [|done..]. etrans; [|done]. by apply prefix_app_r.
Qed.

Lemma resolve_intro m p (n : node) :
  lookup_node m p = Some n →
  (∀ q, q `prefix_of` p → q ≠ p → lookup_node m q = Some DirNode) →
  resolve m p = inl n.
Proof.
  intros Hn Hdirs. apply resolve_from_intro; [done|].
  intros q _ Hq Hne. by apply Hdirs.
Qed.

(** Writing a file that resolves changes what it holds and nothing else. *)
Lemma resolve_insert_file m p (c c' : string) :
  resolve m p = inl (FileNode c) →
  resolve (<[p := FileNode c']> m) p = inl (FileNode c').
Proof.
  intros Hr. apply resolve_inl in Hr as [Hn Hdirs].
  assert (Hp : p ≠ []) by (by intros ->).
  apply resolve_intro.
  - unfold lookup_node. destruct p; [done|]. by rewrite lookup_insert_eq.
  - intros q Hq Hne. rewrite lookup_node_insert_ne by done. by apply Hdirs.
Qed.

Lemma resolve_insert_file_ne m p q (c c' : string) (n : node) :
  resolve m p = inl (FileNode c) →
  resolve m q = inl n →
  q ≠ p →
  resolve (<[p := FileNode c']> m) q = inl n.
Proof.
  intros Hp Hq Hne. rewrite <- Hq. apply resolve_ext. intros k Hk.
  apply lookup_node_insert_ne. intros <-.
  apply resolve_inl in Hp as [Hp _]. apply resolve_inl in Hq as [_ Hdirs].
  specialize (Hdirs p Hk). rewrite Hp in Hdirs.
  destruct (decide (p = q)) as [->|Hpq]; [done|]. by specialize (Hdirs Hpq).
Qed.

Lemma exec_CopyFile_machine w (src dest : string) (n : node) w1 :
  resolve (entries w) (parse_path src) = inl n →
  create_file w (parse_path dest) = (None, w1) →
  let copy := machine_handler
                (io_Copy {| file_name := dest |} {| file_name := src |}) w1 in
  result (exec machine_handler (CopyFile src dest) w)
  = Returned (if copy.1.2 is Some e then Some e else None)
  ∧ final (exec machine_handler (CopyFile src dest) w) = copy.2.
Proof.
  intros Hs Hc copy.
  assert (Ho : machine_handler (os_Open src) w
               = ((Some {| file_name := src |}, None), w)).
  { cbn [machine_handler]. by rewrite Hs. }
  assert (Hcr : machine_handler (os_Create dest) w
                = ((Some {| file_name := dest |}, None), w1)).
  { cbn [machine_handler]. by rewrite Hc. }
  pose proof (exec_CopyFile_open machine_handler w src dest
                {| file_name := src |} {| file_name := dest |}) as Hrun.
  rewrite Ho in Hrun. cbn [fst snd] in Hrun. rewrite Hcr in Hrun.
  cbn [fst snd] in Hrun. specialize (Hrun eq_refl eq_refl). cbv zeta in Hrun.
  fold copy in Hrun. rewrite Hrun. cbn [result final].
  destruct copy as [[k [e|]] w2]; done.
Qed.

(** A [CopyFile] that returns nil on the machine. *)
Lemma CopyFile_machine_ok w (src dest : string) :
  parse_path dest ≠ parse_path src →
  result (exec machine_handler (CopyFile src dest) w) = Returned None →
  let w' := final (exec machine_handler (CopyFile src dest) w) in
  ∃ content,
    resolve (entries w) (parse_path src) = inl (FileNode content)
    ∧ resolve (entries w') (parse_path dest) = inl (FileNode content)
    ∧ resolve (entries w') (parse_path src) = inl (FileNode content)
    ∧ entries w !! parse_path dest ≠ Some DirNode
    ∧ ∀ k, k ≠ parse_path dest → entries w' !! k = entries w !! k.
Proof.
  set (ps := parse_path src). set (pd := parse_path dest). intros Hne Hres w'.
  destruct (resolve (entries w) ps) as [n|e] eqn:Hs.
  2: { exfalso. revert Hres. unfold CopyFile. step_invoke. cbn [machine_handler].
       fold ps. by rewrite Hs. }
  destruct (create_file w pd) as [[e|] w1] eqn:Hc.
  { exfalso. revert Hres. unfold CopyFile. step_invoke. cbn [machine_handler].
    fold ps. rewrite Hs. cbn [fst snd]. unfold defer at 1. rewrite exec_bind.
    step_invoke. cbn [machine_handler]. fold pd. by rewrite Hc. }
  destruct (exec_CopyFile_machine w src dest n w1 Hs Hc) as [Hr Hf].
  fold ps pd in Hr, Hf. subst w'. rewrite Hf. rewrite Hr in Hres. clear Hr Hf.
  destruct (create_file_ok w pd w1 Hc) as (Hw1 & Hpd & Hnd & Hrd).
  assert (Hs1 : resolve (entries w1) ps = inl n).
  { rewrite <- Hs. rewrite Hw1. cbn [entries set_entries]. apply resolve_ext.
    intros q Hq. apply lookup_node_insert_ne. intros <-.
    apply resolve_inl in Hs as [_ Hdirs].
    specialize (Hdirs pd Hq Hne). unfold lookup_node in Hdirs.
    destruct pd; done. }
  revert Hres. cbn [machine_handler file_name]. fold ps pd.
  unfold read_file. rewrite Hs1. destruct n as [content|]; [|done].
  destruct (decide (String.length content ≤ budget w1)) as [Hb|Hb].
  2: { rewrite (append_file_full w1 pd "" content Hrd) by lia. done. }
  rewrite (append_file_ok w1 pd "" content Hrd Hb). cbn [fst snd]. intros _.
  exists content. rewrite app_nil_s. cbn [entries set_entries set_budget].
  rewrite Hw1. cbn [entries set_entries]. rewrite insert_insert_eq.
  rewrite Hw1 in Hrd, Hs1. cbn [entries set_entries] in Hrd, Hs1.
  assert (Hins : <[pd:=FileNode content]> (entries w)
                 = <[pd:=FileNode content]> (<[pd:=FileNode ""]> (entries w)))
    by (by rewrite insert_insert_eq).
  rewrite Hins.
  split; [done|]. split; [|split; [|split; [done|]]].
  - by apply (resolve_insert_file _ _ "").
  - by apply (resolve_insert_file_ne _ _ _ "" _ _ Hrd Hs1).
  - intros k Hk. rewrite insert_insert_eq. by rewrite lookup_insert_ne.
Qed.




(** [os.Create] on a file that is there empties it. *)
Lemma create_file_existing w p (c : string) :
  resolve (entries w) p = inl (FileNode c) →
  create_file w p = (None, set_entries (<[p := FileNode ""]> (entries w)) w).
Proof.
  intros Hr. apply resolve_inl in Hr as [Hn Hdirs].
  assert (Hp : p ≠ []) by (by intros ->).
  destruct (removelast_snoc_eq p Hp) as (q & x & Hqx & Hq).
  unfold create_file. destruct p as [|y p'] eqn:Ep; [done|]. rewrite <- Ep in *.
  fold (removelast p). rewrite Hq.
  assert (Hparent : resolve (entries w) q = inl DirNode).
  { apply resolve_intro.
    - apply Hdirs; [by exists [x]|]. intros ->.
      apply (f_equal length) in Hqx. rewrite length_app in Hqx. simpl in Hqx. lia.
    - intros k Hk Hne. apply Hdirs; [|intros ->].
      + etrans; [done|]. by exists [x].
      + rewrite Hqx in Hk. by apply prefix_snoc_not in Hk. }
  rewrite Hparent. unfold lookup_node in Hn. rewrite Ep in Hn. rewrite <- Ep in Hn.
  by rewrite Hn.
Qed.



End machine_copy.

(** ** IsDirEmpty, CreateFile and CreateFolder, call by call *)

(** X14: IsDirEmpty returns (false, err) on the error of the open call
    and calls nothing else then; once the directory is open it reads at
    most one entry, answers (true, nil) exactly when that read reports
    the end of the directory, passes on any other error with false, and
    closes the directory in each case. *)
Theorem IsDirEmpty_calls {W : Type} (h : handler W) (w : W) (name : string) :
  let r := exec h (IsDirEmpty name) w in
  let w1 := (h (os_Open name) w).2 in
  (∀ fo e, (h (os_Open name) w).1 = (fo, Some e) →
     result r = Returned (false, Some e) ∧ trace r = [os_Open name])
  ∧ (∀ f, (h (os_Open name) w).1 = (Some f, None) →
       let err := (h (File_Readdir f 1) w1).1.2 in
       (result r = Returned (true, None) ↔ err = Some EOF)
       ∧ (err ≠ Some EOF → result r = Returned (false, err))
       ∧ trace r = [os_Open name; File_Readdir f 1; File_Close f]).
Proof.
  intros r w1. subst r w1. unfold IsDirEmpty.
  destruct (h (os_Open name) w) as [[fo eo] w1] eqn:E1.
  split.
  - intros fo' e [= -> ->]. simpl. by rewrite E1.
  - intros f [= -> ->]. cbn [snd].
    destruct (h (File_Readdir f 1) w1) as [[infos err] w2] eqn:E2.
    simpl. rewrite E1. simpl. rewrite E2. simpl.
    case_decide as Heof; simpl.
    + split; [done|]. split; [done|]. done.
    + split; [|done]. split; [|done]. by intros [= _].
Qed.

(** X15: CreateFile returns the error of the create call and calls
    nothing else then; once the file is created it writes the content
    once, syncs, closes the file, and returns what the sync returned. *)
Theorem CreateFile_calls {W : Type} (h : handler W) (w : W) (path content : string) :
  let r := exec h (CreateFile path content) w in
  let w1 := (h (os_Create path) w).2 in
  (∀ fo e, (h (os_Create path) w).1 = (fo, Some e) →
     result r = Returned (Some e) ∧ trace r = [os_Create path])
  ∧ (∀ f, (h (os_Create path) w).1 = (Some f, None) →
       let w2 := (h (File_WriteString f content) w1).2 in
       result r = Returned (h (File_Sync f) w2).1
       ∧ trace r = [os_Create path; File_WriteString f content;
                    File_Sync f; File_Close f]
       ∧ final r = (h (File_Close f) (h (File_Sync f) w2).2).2).
Proof.
  intros r w1. subst r w1. unfold CreateFile.
  destruct (h (os_Create path) w) as [[fo eo] w1] eqn:E1.
  split.
  - intros fo' e [= -> ->]. simpl. by rewrite E1.
  - intros f [= -> ->]. cbn [snd].
    destruct (h (File_WriteString f content) w1) as [[n ew] w2] eqn:E2.
    destruct (h (File_Sync f) w2) as [es w3] eqn:E3.
    simpl. rewrite E1. simpl. rewrite E2. simpl. rewrite E3. simpl.
    by destruct es.
Qed.

(** X16: CreateFolder logs the folder, makes it with all its parents,
    and returns the path; when the folder cannot be made it logs the
    error as fatal and the process exits with code 1 instead of
    returning. *)
Theorem CreateFolder_outcome {W : Type} (h : handler W) (w : W) (path : string) :
  let r := exec h (CreateFolder path) w in
  let info := Log_Infof "Create folder %s..." [ArgString path] in
  match (h (os_MkdirAll path 777) (h info w).2).1 with
  | None =>
      result r = Returned path ∧ trace r = [info; os_MkdirAll path 777]
  | Some e =>
      result r = Exited 1
      ∧ trace r = [info; os_MkdirAll path 777;
                   Log_Fatalf "Cannot create folder: %v" [ArgError e]]
  end.
Proof.
  unfold CreateFolder, CreateFolderCheck, Fatalf. simpl.
  destruct (h (Log_Infof _ _) w) as [[] w1] eqn:E1. simpl.
  by destruct (h (os_MkdirAll path 777) w1) as [[e|] w2] eqn:E2.
Qed.

Lemma IsDirEmpty_calls_witness :
  (machine_handler (os_Open "tmp") sample).1 = (Some {| file_name := "tmp" |}, None)
  ∧ trace (exec machine_handler (IsDirEmpty "tmp") sample)
    = [os_Open "tmp"; File_Readdir {| file_name := "tmp" |} 1;
       File_Close {| file_name := "tmp" |}].
Proof.
  split; [reflexivity|].
  destruct (IsDirEmpty_calls machine_handler sample "tmp") as [_ Hok].
  destruct (Hok {| file_name := "tmp" |} eq_refl) as (_ & _ & Ht).
  exact Ht.
Defined.

Lemma CreateFile_calls_witness :
  (machine_handler (os_Create "tmp/new.txt") sample).1
  = (Some {| file_name := "tmp/new.txt" |}, None)
  ∧ trace (exec machine_handler (CreateFile "tmp/new.txt" "hello") sample)
    = [os_Create "tmp/new.txt";
       File_WriteString {| file_name := "tmp/new.txt" |} "hello";
       File_Sync {| file_name := "tmp/new.txt" |};
       File_Close {| file_name := "tmp/new.txt" |}].
Proof.
  split; [reflexivity|].
  destruct (CreateFile_calls machine_handler sample "tmp/new.txt" "hello")
    as [_ Hok].
  destruct (Hok {| file_name := "tmp/new.txt" |} eq_refl) as (_ & Ht & _).
  exact Ht.
Defined.

(** ** Directories on the machine *)

Section machine_empty.
Implicit Types (m : gmap (list string) node) (p q : list string) (w : machine).

Lemma child_names_nil m p :
  child_names m p = [] ↔ ∀ c, m !! (p ++ [c]) = None.
Proof.
  split.
  - intros Hnil c. destruct (m !! (p ++ [c])) as [n|] eqn:Hc; [|done].
    assert (Hin : c ∈ child_names m p) by (by apply elem_of_child_names).
    rewrite Hnil in Hin. by apply elem_of_nil in Hin.
  - intros Hnone. destruct (child_names m p) as [|c l] eqn:Hl; [done|].
    assert (Hin : c ∈ child_names m p) by (rewrite Hl; apply list_elem_of_here).
    apply elem_of_child_names in Hin as [n Hn]. by rewrite Hnone in Hn.
Qed.

Lemma child_infos_nil m p : child_infos m p = [] ↔ child_names m p = [].
Proof.
  unfold child_names. split; [by intros ->|].
  by destruct (child_infos m p).
Qed.

(** The run of [IsDirEmpty] on the machine. *)
Lemma exec_IsDirEmpty_machine w (name : string) :
  result (exec machine_handler (IsDirEmpty name) w)
  = Returned
      match resolve (entries w) (parse_path name) with
      | inl DirNode =>
          (bool_decide (child_names (entries w) (parse_path name) = []), None)
      | inl (FileNode _) => (false, Some ENOTDIR)
      | inr e => (false, Some e)
      end
  ∧ final (exec machine_handler (IsDirEmpty name) w) = w.
Proof.
  unfold IsDirEmpty. step_invoke. cbn [machine_handler].
  destruct (resolve (entries w) (parse_path name)) as [n|e] eqn:Hr;
    cbn [fst snd]; [|done].
  unfold defer, Readdir. simpl. unfold read_dir. cbn [file_name]. rewrite Hr.
  destruct n as [content|]; simpl; [done|].
  unfold at_most. simpl.
  destruct (child_infos (entries w) (parse_path name)) as [|i l] eqn:Hl; simpl.
  - apply child_infos_nil in Hl. by rewrite bool_decide_eq_true_2.
  - rewrite bool_decide_eq_false_2; [done|].
    + intros Hnil. apply child_infos_nil in Hnil. by rewrite Hnil in Hl.
Qed.

(** The run of [Exists] on the machine. *)
Lemma exec_Exists_machine w (name : string) :
  result (exec machine_handler (Exists name) w)
  = Returned
      match resolve (entries w) (parse_path name) with
      | inl _ => true
      | inr e => negb (IsNotExist e)
      end.
Proof.
  unfold Exists. step_invoke. cbn [machine_handler]. unfold stat.
  destruct (resolve (entries w) (parse_path name)) as [n|e]; simpl; [done|].
  by destruct (IsNotExist e).
Qed.

(** X17: on a directory of the machine IsDirEmpty answers (true, nil)
    exactly when no entry lies directly below it and (false, nil)
    exactly when one does, and it changes nothing; on a regular file it
    answers false with an error. *)
Theorem IsDirEmpty_machine w (name : string) :
  let p := parse_path name in
  let r := exec machine_handler (IsDirEmpty name) w in
  final r = w
  ∧ (resolve (entries w) p = inl DirNode →
     (result r = Returned (true, None) ↔ ∀ c, entries w !! (p ++ [c]) = None)
     ∧ (result r = Returned (false, None) ↔ ∃ c, is_Some (entries w !! (p ++ [c]))))
  ∧ (∀ content, resolve (entries w) p = inl (FileNode content) →
     result r = Returned (false, Some ENOTDIR)).
Proof.
  intros p r. subst r. destruct (exec_IsDirEmpty_machine w name) as [Hr Hf].
  fold p in Hr. split; [done|]. rewrite Hr. split.
  - intros ->. rewrite <- child_names_nil.
    destruct (decide (child_names (entries w) p = [])) as [Hnil|Hne].
    + rewrite bool_decide_eq_true_2 by done. split; [done|].
      split; [done|]. intros [c Hc]. apply elem_of_child_names in Hc.
      rewrite Hnil in Hc. by apply elem_of_nil in Hc.
    + rewrite bool_decide_eq_false_2 by done. split.
      * split; [done|]. intros Hnil. by destruct Hne.
      * split; [|done]. intros _.
        destruct (child_names (entries w) p) as [|c l] eqn:Hl; [done|].
        exists c. apply elem_of_child_names. rewrite Hl. apply list_elem_of_here.
  - by intros content ->.
Qed.

Lemma IsDirEmpty_machine_witness :
  resolve (entries sample) (parse_path "tmp/sub") = inl DirNode
  ∧ result (exec machine_handler (IsDirEmpty "tmp/sub") sample)
    = Returned (false, None).
Proof.
  split; [reflexivity|].
  destruct (IsDirEmpty_machine sample "tmp/sub") as (_ & Hdir & _).
  destruct (Hdir eq_refl) as [_ Hfalse].
  apply Hfalse. exists "x". by eexists.
Defined.

(** X18: once RemoveContents has returned nil for a directory,
    IsDirEmpty answers (true, nil) for it and Exists answers false for
    each of its former children. *)
Theorem RemoveContents_then_empty w (dir : string) :
  valid_names w →
  result (exec machine_handler (RemoveContents dir) w) = Returned None →
  let w' := final (exec machine_handler (RemoveContents dir) w) in
  result (exec machine_handler (IsDirEmpty dir) w') = Returned (true, None)
  ∧ ∀ c, is_Some (entries w !! (parse_path dir ++ [c])) →
         result (exec machine_handler (Exists (filepath_Join [dir; c])) w')
         = Returned false.
Proof.
  intros Hvalid Hres w'.
  destruct (RemoveContents_machine w dir Hvalid Hres) as (Hd & Hnil & Hgone & _).
  fold w' in Hd, Hnil, Hgone. split.
  - rewrite (proj1 (exec_IsDirEmpty_machine w' dir)), Hd.
    by rewrite bool_decide_eq_true_2.
  - intros c Hc. rewrite exec_Exists_machine.
    assert (Hname : valid_name c).
    { destruct Hc as [n Hn]. apply Hvalid in Hn. simpl in Hn.
      rewrite Forall_app, Forall_singleton in Hn. by destruct Hn. }
    rewrite (parse_path_join dir c Hname), (resolve_snoc _ _ _ Hd).
    by rewrite (Hgone c [] Hc).
Qed.

Lemma RemoveContents_then_empty_witness :
  valid_names sample
  ∧ result (exec machine_handler (RemoveContents "tmp") sample) = Returned None
  ∧ result (exec machine_handler (IsDirEmpty "tmp")
              (final (exec machine_handler (RemoveContents "tmp") sample)))
    = Returned (true, None).
Proof.
  assert (Hvalid : valid_names sample).
  { apply (bool_decide_unpack _). vm_compute. exact I. }
  split; [exact Hvalid|]. split; [reflexivity|].
  destruct (RemoveContents_then_empty sample "tmp" Hvalid eq_refl) as [Hempty _].
  exact Hempty.
Defined.

(** [mkdir -p] keeps what is there, and fails on a regular file only. *)
Lemma mkdir_all_keeps m base todo :
  m ⊆ (mkdir_all m base todo).2
  ∧ ((mkdir_all m base todo).1 = None ∨ (mkdir_all m base todo).1 = Some ENOTDIR).
Proof.
  revert m base. induction todo as [|c rest IH]; intros m base; simpl; [auto|].
  destruct (lookup_node m (base ++ [c])) as [[content|]|] eqn:Hc; simpl.
  - auto.
  - apply IH.
  - destruct (IH (<[base ++ [c]:=DirNode]> m) (base ++ [c])) as [Hsub Herr].
    split; [|done]. etrans; [|done]. apply insert_subseteq.
    by rewrite lookup_node_snoc in Hc.
Qed.



Lemma upto_all (n : nat) (s : string) :
  String.length s ≤ n → Strings.upto n s = s.
Proof.
  revert n. induction s as [|c s IH]; intros n Hn.
  - by destruct n.
  - destruct n as [|n]; simpl in Hn; [lia|].
    rewrite upto_cons. f_equal. apply IH. lia.
Qed.

(** X20: when CreateFile returns nil the file holds the content as far
    as the device took it, all of it when there was room, in place of
    what it held before, and no other entry has changed. *)
Theorem CreateFile_writes_content w (path content : string) :
  result (exec machine_handler (CreateFile path content) w) = Returned None →
  let w' := final (exec machine_handler (CreateFile path content) w) in
  resolve (entries w') (parse_path path)
  = inl (FileNode (Strings.upto (budget w) content))
  ∧ (String.length content ≤ budget w →
     resolve (entries w') (parse_path path) = inl (FileNode content))
  ∧ ∀ k, k ≠ parse_path path → entries w' !! k = entries w !! k.
Proof.
  set (p := parse_path path). intros Hres w'.
  assert (Hgoal : resolve (entries w') p
                  = inl (FileNode (Strings.upto (budget w) content))
                  ∧ ∀ k, k ≠ p → entries w' !! k = entries w !! k).
  2: { destruct Hgoal as [Hp Hk]. split; [done|]. split; [|done].
       intros Hb. by rewrite Hp, upto_all. }
  subst w'. revert Hres. unfold CreateFile. step_invoke.
  cbn [machine_handler]. fold p.
  destruct (create_file w p) as [[e|] w1] eqn:Hc; cbn [fst snd]; [done|].
  destruct (create_file_ok w p w1 Hc) as (Hw1 & Hp & Hnd & Hr1).
  unfold defer, WriteString, Sync, Close. simpl. fold p.
  assert (Hb1 : budget w1 = budget w) by (by rewrite Hw1).
  destruct (decide (String.length content ≤ budget w)) as [Hb|Hb].
  - rewrite (append_file_ok w1 p "" content Hr1) by lia. simpl. intros _.
    rewrite Hw1. cbn [entries set_entries]. rewrite insert_insert_eq, app_nil_s.
    rewrite upto_all by done. split.
    + rewrite <- (insert_insert_eq (entries w) p (FileNode content) (FileNode "")).
      apply (resolve_insert_file _ _ ""). by rewrite Hw1 in Hr1.
    + intros k Hk. by rewrite lookup_insert_ne.
  - rewrite (append_file_full w1 p "" content Hr1) by lia. simpl. intros _.
    rewrite Hw1. cbn [entries set_entries budget]. rewrite insert_insert_eq, app_nil_s.
    split.
    + rewrite <- (insert_insert_eq (entries w) p
                    (FileNode (Strings.upto (budget w) content)) (FileNode "")).
      apply (resolve_insert_file _ _ ""). by rewrite Hw1 in Hr1.
    + intros k Hk. by rewrite lookup_insert_ne.
Qed.

Lemma CreateFile_writes_content_witness :
  result (exec machine_handler (CreateFile "tmp/app.ini" "D=4") sample)
  = Returned None
  ∧ resolve
      (entries (final (exec machine_handler (CreateFile "tmp/app.ini" "D=4") sample)))
      (parse_path "tmp/app.ini")
    = inl (FileNode "D=4").
Proof.
  split; [reflexivity|].
  destruct (CreateFile_writes_content sample "tmp/app.ini" "D=4" eq_refl)
    as (_ & Hall & _).
  apply Hall. vm_compute. lia.
Defined.

End machine_empty.

(** ** CreateShortcut: what is released, and when *)

Section CreateShortcut_cleanup.
Context {W : Type} (h : handler W).

Ltac run_deferred :=
  repeat first
    [ rewrite trace_defer
    | rewrite result_defer
    | match goal with
      | |- context [exec ?h (invoke ?c ≫= ?k) ?w] =>
          change (exec h (invoke c ≫= k) w) with (exec h (Do c k) w);
          cbn [exec trace result final]
      end ].

(** X21: CreateShortcut goes on to create the shell object whatever
    CoInitializeEx returned; it returns the first error among creating
    the shell object, querying its interface and creating the shortcut
    object, and otherwise what putting the properties and saving
    returns; on each of these paths every object obtained so far is
    released, the interface before the shell object, then COM is
    uninitialised and the thread is unlocked last. *)
Theorem CreateShortcut_releases (shortcut : WindowsShortcut) (w : W) :
  let r := exec h (CreateShortcut shortcut) w in
  let info := Log_Infof "Create shortcut for %s in %s..."
                [ArgString (TargetPath shortcut); ArgString (ShortcutPath shortcut)] in
  let init := ole_CoInitializeEx 0
                (N.lor COINIT_APARTMENTTHREADED COINIT_SPEED_OVER_MEMORY) in
  let create := oleutil_CreateObject "WScript.Shell" in
  let start := [info; runtime_LockOSThread; init; create] in
  let w3 := (h init (h runtime_LockOSThread (h info w).2).2).2 in
  let w4 := (h create w3).2 in
  (∀ obj e, (h create w3).1 = (obj, Some e) →
     result r = Returned (Some e)
     ∧ trace r = start ++ [ole_CoUninitialize; runtime_UnlockOSThread])
  ∧ (∀ obj,
       (h create w3).1 = (obj, None) →
       let query := ole_QueryInterface obj IID_IDispatch in
       let w5 := (h query w4).2 in
       (∀ wshell e, (h query w4).1 = (wshell, Some e) →
          result r = Returned (Some e)
          ∧ trace r = start ++ [query; ole_Release obj;
                                ole_CoUninitialize; runtime_UnlockOSThread])
       ∧ (∀ wshell,
            (h query w4).1 = (wshell, None) →
            let make := oleutil_CallMethod wshell "CreateShortcut"
                          [ShortcutPath shortcut] in
            (∀ cs e, (h make w5).1 = (cs, Some e) →
               result r = Returned (Some e)
               ∧ trace r = start ++ [query; make; ole_Release wshell;
                                     ole_Release obj; ole_CoUninitialize;
                                     runtime_UnlockOSThread])
            ∧ (∀ cs, (h make w5).1 = (cs, None) →
                 let put := exec h (CreateShortcut_put cs shortcut) (h make w5).2 in
                 (∃ err, result put = Returned err)
                 ∧ result r = result put
                 ∧ trace r = start ++ [query; make] ++ trace put
                             ++ [ole_Release wshell; ole_Release obj;
                                 ole_CoUninitialize; runtime_UnlockOSThread]))).
Proof.
  cbv zeta. unfold CreateShortcut. run_deferred.
  set (info := Log_Infof _ _). set (init := ole_CoInitializeEx _ _).
  set (create := oleutil_CreateObject _).
  set (w3 := (h init (h runtime_LockOSThread (h info w).2).2).2).
  destruct (h create w3) as [[obj eo] w4] eqn:E4. cbn [fst snd].
  split.
  { intros obj' e [= -> ->]. done. }
  intros obj' [= -> ->]. run_deferred.
  set (query := ole_QueryInterface _ _).
  destruct (h query w4) as [[wshell eq] w5] eqn:E5. cbn [fst snd]. split.
  { intros wshell' e [= -> ->]. done. }
  intros wshell' [= -> ->]. run_deferred.
  set (make := oleutil_CallMethod _ _ _).
  destruct (h make w5) as [[cs ec] w6] eqn:E6. cbn [fst snd]. split.
  { intros cs' e [= -> ->]. done. }
  intros cs' [= -> ->].
  destruct (result_CreateShortcut_put h cs' shortcut w6) as [err Herr].
  split; [by exists err|]. split; [done|].
  rewrite Herr. simpl. by rewrite <- !(assoc_L (++)).
Qed.

End CreateShortcut_cleanup.

Lemma CreateShortcut_releases_witness :
  (machine_handler (oleutil_CreateObject "WScript.Shell") sample).1 = (1, None)
  ∧ result (exec machine_handler (CreateShortcut sample_shortcut) sample)
    = Returned None.
Proof.
  split; [reflexivity|].
  destruct (CreateShortcut_releases machine_handler sample_shortcut sample)
    as [_ Hobj].
  destruct (Hobj 1 eq_refl) as [_ Hquery].
  destruct (Hquery 1 eq_refl) as [_ Hmake].
  destruct (Hmake 2 eq_refl) as (_ & Hres & _).
  exact (eq_trans Hres eq_refl).
Defined.

(** ** CopyFolder *)

(** X22: CopyFolder returns the error of making the destination
    directory, and then neither opens the source nor copies anything,
    whatever depth it is allowed. *)
Theorem CopyFolder_mkdir_error `{PathLib} {W : Type} (h : handler W) (w : W)
    (fuel : nat) (source dest : string) (e : errno) :
  (h (os_MkdirAll dest 777) w).1 = Some e →
  let r := exec h (CopyFolder (S fuel) source dest) w in
  result r = Returned (Some e)
  ∧ trace r = [os_MkdirAll dest 777]
  ∧ final r = (h (os_MkdirAll dest 777) w).2.
Proof.
  destruct (h (os_MkdirAll dest 777) w) as [err w1] eqn:E1. simpl.
  intros ->. by rewrite E1.
Qed.

Lemma CopyFolder_mkdir_error_witness :
  (machine_handler (os_MkdirAll "tmp/app.ini/copy" 777) sample).1 = Some ENOTDIR
  ∧ trace (exec machine_handler (CopyFolder 1 "tmp" "tmp/app.ini/copy") sample)
    = [os_MkdirAll "tmp/app.ini/copy" 777].
Proof.
  split; [reflexivity|].
  destruct (CopyFolder_mkdir_error machine_handler sample 0 "tmp" "tmp/app.ini/copy"
              ENOTDIR eq_refl) as (_ & Ht & _).
  exact Ht.
Defined.

(** ** CopyFolder on the machine *)

Lemma CopyFolder_unfold `{PathLib} (fuel : nat) (source dest : string) :
  CopyFolder (S fuel) source dest
  = (err ← invoke (os_MkdirAll dest 777);
     if err is Some _ then Ret err else
     '(folder, _) ← invoke (os_Open source);
     '(objects, err) ← Readdir folder (-1);
     CopyFolder_range (CopyFolder fuel) source dest objects).
Proof. done. Qed.

(** A step of a loop that returns on the first error. *)
Lemma exec_checked {W : Type} (h : handler W) (p q : prog error) (w : W) :
  result (exec h (err ← p; if err is Some _ then Ret err else q) w) = Returned None →
  result (exec h p w) = Returned None
  ∧ result (exec h q (final (exec h p w))) = Returned None
  ∧ final (exec h (err ← p; if err is Some _ then Ret err else q) w)
    = final (exec h q (final (exec h p w))).
Proof.
  unfold error in *. rewrite exec_bind.
  by destruct (result (exec h p w)) as [[e|]| |].
Qed.

Section machine_mirror.
Implicit Types (m : gmap (list string) node) (p q k ps pd rel : list string).
Implicit Types (w : machine) (n : node).

Lemma parse_path_Join (dir name : string) :
  valid_name name →
  parse_path (path_Join [dir; name]) = parse_path dir ++ [name].
Proof.
  intros Hname. pose proof (valid_name_nonempty name Hname) as Hne.
  unfold path_Join, machine_paths.
  rewrite !filter_cons, filter_nil.
  destruct (decide (name ≠ "")) as [_|]; [|done].
  destruct (decide (dir ≠ "")) as [Hd|Hd].
  - change (Strings.Join [dir; name] "/")
      with (dir +:+ String "/"%char name).
    unfold valid_name, parse_path in *. rewrite components_app_sep by done.
    by rewrite Hname.
  - apply dec_stable in Hd as ->. simpl. exact Hname.
Qed.

Lemma lookup_node_ne m k : k ≠ [] → lookup_node m k = m !! k.
Proof. by destruct k. Qed.

Lemma mkdir_all_frame m base todo k :
  ¬ k `prefix_of` base ++ todo → (mkdir_all m base todo).2 !! k = m !! k.
Proof.
  revert m base. induction todo as [|c rest IH]; intros m base Hk; simpl; [done|].
  replace (base ++ c :: rest) with ((base ++ [c]) ++ rest) in Hk
    by (by rewrite <- (assoc_L (++))).
  destruct (lookup_node m (base ++ [c])) as [[content|]|] eqn:Hc; simpl.
  - done.
  - by apply IH.
  - rewrite IH by done. apply lookup_insert_ne. intros <-.
    apply Hk. by apply prefix_app_r.
Qed.

(** A resolved path stays resolved while its directories and its entry
    stay. *)
Lemma resolve_kept w w' p n :
  dirs_kept w w' →
  lookup_node (entries w') p = lookup_node (entries w) p →
  resolve (entries w) p = inl n →
  resolve (entries w') p = inl n.
Proof.
  intros Hdirs Hp Hr. apply resolve_inl in Hr as [Hn Hq].
  apply resolve_intro; [by rewrite Hp|].
  intros q Hq1 Hq2. apply Hdirs. by apply Hq.
Qed.

Lemma source_kept w w' ps pd rel n :
  ¬ ps `prefix_of` pd → ¬ pd `prefix_of` ps →
  outside_kept w w' pd → dirs_kept w w' →
  resolve (entries w) (ps ++ rel) = inl n →
  resolve (entries w') (ps ++ rel) = inl n.
Proof.
  intros Hsd Hds Hout Hdirs Hr. apply (resolve_kept w); [done| |done].
  destruct (decide (ps ++ rel = [])) as [->|Hne]; [done|].
  rewrite !lookup_node_ne by done. apply Hout.
  - intros Hp.
    destruct (prefix_weak_total ps pd (ps ++ rel)) as [?|?];
      [by apply prefix_app_r | done | done | done].
  - intros Hp. apply Hsd. etrans; [|done]. by apply prefix_app_r.
Qed.

Lemma dirs_kept_trans w1 w2 w3 : dirs_kept w1 w2 → dirs_kept w2 w3 → dirs_kept w1 w3.
Proof. intros H12 H23 k Hk. by apply H23, H12. Qed.

Lemma dirs_kept_refl w : dirs_kept w w.
Proof. by intros k. Qed.

(** One entry copied, after others. *)
Lemma copied_step w1 wi wi' ps pd (c : string) :
  ¬ ps `prefix_of` pd → ¬ pd `prefix_of` ps →
  outside_kept w1 wi pd → dirs_kept w1 wi →
  copied wi wi' (ps ++ [c]) (pd ++ [c]) →
  outside_kept w1 wi' pd
  ∧ dirs_kept w1 wi'
  ∧ mirrored w1 wi' (ps ++ [c]) (pd ++ [c])
  ∧ ∀ c' : string, mirrored w1 wi (ps ++ [c']) (pd ++ [c']) →
                   mirrored w1 wi' (ps ++ [c']) (pd ++ [c']).
Proof.
  intros Hsd Hds Hout Hdirs (Hmir & Hout' & Hdirs').
  assert (Hnew : mirrored w1 wi' (ps ++ [c]) (pd ++ [c])).
  { intros rel n Hr. apply Hmir. rewrite <- (assoc_L (++)) in *.
    by apply (source_kept w1 wi ps pd). }
  split; [|split; [|split; [done|]]].
  - intros k Hk1 Hk2. rewrite Hout'; [by apply Hout| |].
    + intros Hp. apply Hk1. etrans; [|done]. by apply prefix_app_r.
    + intros Hp. apply prefix_snoc_inv in Hp as [Hp| ->]; [done|].
      apply Hk1. by apply prefix_app_r.
  - by apply (dirs_kept_trans w1 wi wi').
  - intros c' Hold. destruct (decide (c' = c)) as [->|Hne]; [done|].
    intros rel n Hr. apply Hold in Hr. apply (resolve_kept wi); [done| |done].
    rewrite !lookup_node_ne by (by destruct pd). apply Hout'.
    + by apply (prefix_snoc_ne pd _ c' c); [|apply prefix_app_r].
    + intros [t Ht]. rewrite <- !(assoc_L (++)) in Ht.
      apply app_inv_head in Ht. simpl in Ht. by simplify_eq.
Qed.

(** A file copied counts as an entry copied. *)
Lemma copied_file w (src dest : string) :
  parse_path dest ≠ parse_path src →
  result (exec machine_handler (CopyFile src dest) w) = Returned None →
  copied w (final (exec machine_handler (CopyFile src dest) w))
    (parse_path src) (parse_path dest).
Proof.
  intros Hne Hres.
  destruct (CopyFile_machine_ok w src dest Hne Hres)
    as (content & Hs & Hd & _ & Hnd & Hk).
  set (w' := final _) in *. split; [|split].
  - intros rel n Hr. destruct rel as [|x rel].
    + rewrite app_nil_r in *. congruence.
    + apply resolve_inl in Hr as [_ Hdirs]. apply resolve_inl in Hs as [Hs _].
      rewrite (Hdirs (parse_path src)) in Hs; [done|by apply prefix_app_r|].
      intros Heq. apply (f_equal length) in Heq. rewrite length_app in Heq.
      simpl in Heq. lia.
  - intros k Hk1 _. apply Hk. by intros ->.
  - intros k Hdir. destruct (decide (k = [])) as [->|Hk0]; [done|].
    rewrite lookup_node_ne in * by done.
    destruct (decide (k = parse_path dest)) as [->|Hkd]; [done|].
    by rewrite Hk.
Qed.

Lemma elem_of_child_infos m p (o : FileInfo) :
  o ∈ child_infos m p →
  ∃ n, m !! (p ++ [Name o]) = Some n ∧ IsDir o = is_dir n.
Proof.
  unfold child_infos. intros Ho.
  apply list_elem_of_omap in Ho as ([k n] & Hkn & Hc). simpl in Hc.
  destruct (child_name p k) as [c|] eqn:Hk; [|done].
  apply child_name_Some in Hk as ->. apply elem_of_map_to_list in Hkn.
  simpl in Hc. injection Hc as <-. by exists n.
Qed.

Lemma below_outside ps pd rel :
  ¬ ps `prefix_of` pd → ¬ pd `prefix_of` ps →
  ¬ pd `prefix_of` ps ++ rel ∧ ¬ ps ++ rel `prefix_of` pd.
Proof.
  intros Hsd Hds. split.
  - intros Hp.
    destruct (prefix_weak_total ps pd (ps ++ rel)) as [?|?];
      [by apply prefix_app_r | done | done | done].
  - intros Hp. apply Hsd. etrans; [|done]. by apply prefix_app_r.
Qed.

Lemma child_not_prefix ps pd (c : string) :
  ¬ ps `prefix_of` pd → ¬ ps ++ [c] `prefix_of` pd ++ [c].
Proof.
  intros Hsd Hp. apply prefix_snoc_inv in Hp as [Hp|Heq].
  - apply Hsd. etrans; [|done]. by apply prefix_app_r.
  - apply app_inj_tail in Heq as [-> _]. by apply Hsd.
Qed.

(** The loop of [CopyFolder], the entries of the source having been read
    in [w1]. *)
Lemma CopyFolder_range_machine (copy : string → string → prog error)
    (source dest : string) (w1 : machine) :
  let ps := parse_path source in
  let pd := parse_path dest in
  (∀ s d w,
     ¬ parse_path s `prefix_of` parse_path d →
     ¬ parse_path d `prefix_of` parse_path s →
     valid_below w (parse_path s) →
     resolve (entries w) (parse_path s) = inl DirNode →
     result (exec machine_handler (copy s d) w) = Returned None →
     copied w (final (exec machine_handler (copy s d) w))
       (parse_path s) (parse_path d)) →
  ¬ ps `prefix_of` pd → ¬ pd `prefix_of` ps →
  valid_below w1 ps →
  resolve (entries w1) ps = inl DirNode →
  ∀ objects wi,
    (∀ o, o ∈ objects →
          ∃ n, entries w1 !! (ps ++ [Name o]) = Some n ∧ IsDir o = is_dir n) →
    outside_kept w1 wi pd → dirs_kept w1 wi →
    result (exec machine_handler (CopyFolder_range copy source dest objects) wi)
    = Returned None →
    let wf := final (exec machine_handler
                       (CopyFolder_range copy source dest objects) wi) in
    outside_kept w1 wf pd
    ∧ dirs_kept w1 wf
    ∧ (∀ c : string, mirrored w1 wi (ps ++ [c]) (pd ++ [c]) →
                     mirrored w1 wf (ps ++ [c]) (pd ++ [c]))
    ∧ (∀ o, o ∈ objects → mirrored w1 wf (ps ++ [Name o]) (pd ++ [Name o])).
Proof.
  intros ps pd IHcopy Hsd Hds Hvalid Hsrc objects.
  induction objects as [|o rest IH]; intros wi Hobjs Hout Hdirs Hres wf.
  - subst wf. simpl. split; [done|]. split; [done|]. split; [done|].
    intros o Ho. by apply elem_of_nil in Ho.
  - destruct (Hobjs o (list_elem_of_here _ _)) as (n & Hn & Hisdir).
    set (c := Name o) in *.
    assert (Hname : valid_name c).
    { apply Hvalid in Hn. by rewrite Forall_singleton in Hn. }
    pose proof (parse_path_Join source c Hname) as Hps.
    pose proof (parse_path_Join dest c Hname) as Hpd.
    fold ps in Hps. fold pd in Hpd.
    assert (Hstep : ∃ wi',
              copied wi wi' (ps ++ [c]) (pd ++ [c])
              ∧ result (exec machine_handler
                          (CopyFolder_range copy source dest rest) wi')
                = Returned None
              ∧ wf = final (exec machine_handler
                              (CopyFolder_range copy source dest rest) wi')).
    { subst wf. revert Hres.
      change (CopyFolder_range copy source dest (o :: rest))
        with (if IsDir o then
                err ← copy (path_Join [source; c]) (path_Join [dest; c]);
                if err is Some _ then Ret err
                else CopyFolder_range copy source dest rest
              else
                err ← CopyFile (path_Join [source; c]) (path_Join [dest; c]);
                if err is Some _ then Ret err
                else CopyFolder_range copy source dest rest).
      destruct (IsDir o) eqn:Hd.
      - intros Hres. apply exec_checked in Hres as (Hsub & Hrest & Hfinal).
        eexists. split; [|split; [exact Hrest | exact Hfinal]].
        rewrite <- Hps, <- Hpd. apply IHcopy; [| | | |done].
        + rewrite Hps, Hpd. by apply child_not_prefix.
        + rewrite Hps, Hpd. by apply child_not_prefix.
        + rewrite Hps. intros rel n' Hk. rewrite <- (assoc_L (++)) in Hk.
          destruct (below_outside ps pd ([c] ++ rel) Hsd Hds) as [Ho1 Ho2].
          rewrite (Hout _ Ho1 Ho2) in Hk. apply Hvalid in Hk.
          by apply Forall_cons in Hk as [_ Hk].
        + rewrite Hps. apply (source_kept w1 wi ps pd); [done..|].
          rewrite (resolve_snoc _ _ _ Hsrc), Hn.
          by destruct n.
      - intros Hres. apply exec_checked in Hres as (Hsub & Hrest & Hfinal).
        eexists. split; [|split; [exact Hrest | exact Hfinal]].
        rewrite <- Hps, <- Hpd. apply copied_file; [|done].
        rewrite Hps, Hpd. intros Heq. apply app_inj_tail in Heq as [Heq _].
        apply Hsd. by rewrite Heq. }
    destruct Hstep as (wi' & Hcopied & Hrest & Hwf).
    destruct (copied_step w1 wi wi' ps pd c Hsd Hds Hout Hdirs Hcopied)
      as (Hout' & Hdirs' & Hnew & Hold).
    destruct (IH wi' (λ o' Ho', Hobjs o' (list_elem_of_further _ _ _ Ho'))
                Hout' Hdirs' Hrest) as (Hout'' & Hdirs'' & Hkeep & Hdone).
    rewrite Hwf. split; [done|]. split; [done|]. split.
    + intros c' Hc'. by apply Hkeep, Hold.
    + intros o' Ho'. apply elem_of_cons in Ho' as [->|Ho'];
        [by apply Hkeep | by apply Hdone].
Qed.

(** [CopyFolder] on the machine, at any depth it is allowed. *)
Lemma CopyFolder_machine (fuel : nat) (source dest : string) w :
  ¬ parse_path source `prefix_of` parse_path dest →
  ¬ parse_path dest `prefix_of` parse_path source →
  valid_below w (parse_path source) →
  resolve (entries w) (parse_path source) = inl DirNode →
  result (exec machine_handler (CopyFolder fuel source dest) w) = Returned None →
  copied w (final (exec machine_handler (CopyFolder fuel source dest) w))
    (parse_path source) (parse_path dest).
Proof.
  revert source dest w. induction fuel as [|fuel IH];
    intros source dest w Hsd Hds Hvalid Hsrc; [done|].
  set (ps := parse_path source) in *. set (pd := parse_path dest) in *.
  rewrite CopyFolder_unfold. step_invoke. cbn [machine_handler fst snd].
  fold pd.
  pose proof (mkdir_all_keeps (entries w) [] pd) as [Hsub _].
  pose proof (mkdir_all_frame (entries w) [] pd) as Hframe.
  pose proof (mkdir_all_dirs (entries w) (mkdir_all (entries w) [] pd).2 [] pd
                (all_dirs_nil _)) as Hmade.
  destruct (mkdir_all (entries w) [] pd) as [[e|] m'] eqn:Hm; cbn [fst snd] in *;
    [done|].
  specialize (Hmade eq_refl). cbn [app] in Hmade. apply resolve_dir in Hmade.
  set (w1 := set_entries m' w).
  assert (Hdirs1 : dirs_kept w w1).
  { intros k Hk. destruct (decide (k = [])) as [->|Hk0]; [done|].
    rewrite lookup_node_ne in * by done. by eapply lookup_weaken. }
  assert (Hout1 : outside_kept w w1 pd).
  { intros k _ Hk. by apply Hframe. }
  assert (Hsrc1 : resolve (entries w1) ps = inl DirNode).
  { rewrite <- (app_nil_r ps). apply (source_kept w w1 ps pd); [done..|].
    by rewrite app_nil_r. }
  assert (Hvalid1 : valid_below w1 ps).
  { intros rel n Hk. destruct (below_outside ps pd rel Hsd Hds) as [Ho1 Ho2].
    rewrite (Hout1 _ Ho1 Ho2) in Hk. by apply Hvalid in Hk. }
  step_invoke. cbn [machine_handler]. fold ps. rewrite Hsrc1. cbn [fst snd].
  unfold Readdir. step_invoke. cbn [machine_handler file_name fst snd].
  fold ps. unfold read_dir. rewrite Hsrc1. unfold at_most. cbn [Z.leb Z.compare fst snd].
  intros Hres.
  destruct (CopyFolder_range_machine (CopyFolder fuel) source dest w1 IH
              Hsd Hds Hvalid1 Hsrc1 (child_infos (entries w1) ps) w1
              (λ o Ho, elem_of_child_infos _ _ o Ho)
              (λ k _ _, eq_refl) (dirs_kept_refl w1) Hres)
    as (Hout & Hdirs & _ & Hdone).
  set (wf := final _) in *. split; [|split].
  - intros rel n Hr. destruct rel as [|c rel].
    + rewrite app_nil_r in *. fold ps in Hr. rewrite Hsrc in Hr. injection Hr as <-.
      apply (resolve_kept w1); [done| |done].
      apply resolve_inl in Hmade as [Hpd _]. cbn [entries set_entries w1].
      rewrite Hpd. by apply Hdirs.
    + apply (source_kept w w1 ps pd) in Hr; [|done..].
      assert (Hc : is_Some (entries w1 !! (ps ++ [c]))).
      { apply resolve_inl in Hr as [Hn Hq]. rewrite <- lookup_node_snoc.
        destruct rel as [|x rel]; [by eexists|].
        rewrite (Hq (ps ++ [c])); [by eexists| |].
        - exists (x :: rel). by rewrite <- (assoc_L (++)).
        - intros Heq. apply (f_equal length) in Heq.
          rewrite !length_app in Heq. simpl in Heq. lia. }
      apply elem_of_child_names in Hc. unfold child_names in Hc.
      apply list_elem_of_fmap in Hc as (o & -> & Ho).
      specialize (Hdone o Ho rel n). rewrite <- !(assoc_L (++)) in Hdone.
      by apply Hdone.
  - intros k Hk1 Hk2. rewrite (Hout k Hk1 Hk2). by apply Hout1.
  - by apply (dirs_kept_trans w w1 wf).
Qed.

(** [CopyFile] returns, whatever the calls answer. *)
Lemma CopyFile_returns {W : Type} (h : handler W) (w : W) (src dest : string) :
  ∃ err, result (exec h (CopyFile src dest) w) = Returned err.
Proof.
  unfold CopyFile.
  destruct (h (os_Open src) w) as [[fo [e|]] w1] eqn:E1.
  { eexists. simpl. by rewrite E1. }
  destruct (h (os_Create dest) w1) as [[go [e|]] w2] eqn:E2.
  { eexists. simpl. rewrite E1. simpl. rewrite E2. by destruct fo. }
  destruct fo as [f|], go as [g|].
  - destruct (h (io_Copy g f) w2) as [[k [e|]] w3] eqn:E3.
    { eexists. simpl. rewrite E1. simpl. rewrite E2. simpl. by rewrite E3. }
    destruct (h (File_Sync g) w3) as [[e|] w4] eqn:E4;
      eexists; simpl; rewrite E1; simpl; rewrite E2; simpl; rewrite E3; simpl;
      by rewrite E4.
  - eexists. simpl. rewrite E1. simpl. by rewrite E2.
  - eexists. simpl. rewrite E1. simpl. by rewrite E2.
  - eexists. simpl. rewrite E1. simpl. by rewrite E2.
Qed.

(** The loop of [CopyFolder] comes to an end when the calls on the
    sub-directories do. *)
Lemma CopyFolder_range_returns (copy : string → string → prog error)
    (source dest : string) (w1 : machine) (fuel : nat) :
  let ps := parse_path source in
  let pd := parse_path dest in
  (∀ s d w,
     ¬ parse_path s `prefix_of` parse_path d →
     ¬ parse_path d `prefix_of` parse_path s →
     valid_below w (parse_path s) →
     resolve (entries w) (parse_path s) = inl DirNode →
     shallow w (parse_path s) fuel →
     ∃ err, result (exec machine_handler (copy s d) w) = Returned err) →
  (∀ s d w,
     ¬ parse_path s `prefix_of` parse_path d →
     ¬ parse_path d `prefix_of` parse_path s →
     valid_below w (parse_path s) →
     resolve (entries w) (parse_path s) = inl DirNode →
     result (exec machine_handler (copy s d) w) = Returned None →
     copied w (final (exec machine_handler (copy s d) w))
       (parse_path s) (parse_path d)) →
  ¬ ps `prefix_of` pd → ¬ pd `prefix_of` ps →
  valid_below w1 ps →
  resolve (entries w1) ps = inl DirNode →
  shallow w1 ps (S fuel) →
  ∀ objects wi,
    (∀ o, o ∈ objects →
          ∃ n, entries w1 !! (ps ++ [Name o]) = Some n ∧ IsDir o = is_dir n) →
    outside_kept w1 wi pd → dirs_kept w1 wi →
    ∃ err,
      result (exec machine_handler (CopyFolder_range copy source dest objects) wi)
      = Returned err.
Proof.
  intros ps pd IHret IHcopy Hsd Hds Hvalid Hsrc Hshallow objects.
  induction objects as [|o rest IH]; intros wi Hobjs Hout Hdirs; [by eexists|].
  destruct (Hobjs o (list_elem_of_here _ _)) as (n & Hn & Hisdir).
  set (c := Name o) in *.
  assert (Hname : valid_name c).
  { apply Hvalid in Hn. by rewrite Forall_singleton in Hn. }
  pose proof (parse_path_Join source c Hname) as Hps.
  pose proof (parse_path_Join dest c Hname) as Hpd.
  fold ps in Hps. fold pd in Hpd.
  assert (Hrest : ∀ wi', copied wi wi' (ps ++ [c]) (pd ++ [c]) →
            ∃ err,
              result (exec machine_handler
                        (CopyFolder_range copy source dest rest) wi')
              = Returned err).
  { intros wi' Hcopied.
    destruct (copied_step w1 wi wi' ps pd c Hsd Hds Hout Hdirs Hcopied)
      as (Hout' & Hdirs' & _).
    apply IH; [|done..]. intros o' Ho'. apply Hobjs. by apply list_elem_of_further. }
  change (CopyFolder_range copy source dest (o :: rest))
    with (if IsDir o then
            err ← copy (path_Join [source; c]) (path_Join [dest; c]);
            if err is Some _ then Ret err
            else CopyFolder_range copy source dest rest
          else
            err ← CopyFile (path_Join [source; c]) (path_Join [dest; c]);
            if err is Some _ then Ret err
            else CopyFolder_range copy source dest rest).
  unfold error in *. destruct (IsDir o) eqn:Hd.
  - assert (Hsd' : ¬ parse_path (path_Join [source; c])
                     `prefix_of` parse_path (path_Join [dest; c])).
    { rewrite Hps, Hpd. by apply child_not_prefix. }
    assert (Hds' : ¬ parse_path (path_Join [dest; c])
                     `prefix_of` parse_path (path_Join [source; c])).
    { rewrite Hps, Hpd. by apply child_not_prefix. }
    assert (Hvalid' : valid_below wi (parse_path (path_Join [source; c]))).
    { rewrite Hps. intros rel n' Hk. rewrite <- (assoc_L (++)) in Hk.
      destruct (below_outside ps pd ([c] ++ rel) Hsd Hds) as [Ho1 Ho2].
      rewrite (Hout _ Ho1 Ho2) in Hk. apply Hvalid in Hk.
      by apply Forall_cons in Hk as [_ Hk]. }
    assert (Hsrc' : resolve (entries wi) (parse_path (path_Join [source; c]))
                    = inl DirNode).
    { rewrite Hps. apply (source_kept w1 wi ps pd); [done..|].
      rewrite (resolve_snoc _ _ _ Hsrc), Hn. by destruct n. }
    assert (Hshallow' : shallow wi (parse_path (path_Join [source; c])) fuel).
    { rewrite Hps. intros rel Hk. rewrite <- (assoc_L (++)) in Hk.
      destruct (below_outside ps pd ([c] ++ rel) Hsd Hds) as [Ho1 Ho2].
      rewrite lookup_node_ne in Hk by (by destruct ps).
      rewrite (Hout _ Ho1 Ho2) in Hk.
      rewrite <- (lookup_node_ne (entries w1)) in Hk by (by destruct ps).
      apply Hshallow in Hk. simpl in Hk. lia. }
    destruct (IHret _ _ wi Hsd' Hds' Hvalid' Hsrc' Hshallow') as [err Herr].
    rewrite exec_bind, Herr. destruct err as [e|]; [by eexists|].
    cbv zeta. cbn [result]. apply Hrest. rewrite <- Hps, <- Hpd.
    by apply IHcopy.
  - destruct (CopyFile_returns machine_handler wi (path_Join [source; c])
                (path_Join [dest; c])) as [err Herr].
    unfold error in *. rewrite exec_bind, Herr. destruct err as [e|]; [by eexists|].
    cbv zeta. cbn [result]. apply Hrest. rewrite <- Hps, <- Hpd.
    apply copied_file; [|done].
    rewrite Hps, Hpd. intros Heq. apply app_inj_tail in Heq as [Heq _].
    apply Hsd. by rewrite Heq.
Qed.

(** [CopyFolder] returns when it is allowed the depth of the tree. *)
Lemma CopyFolder_returns (fuel : nat) (source dest : string) w :
  ¬ parse_path source `prefix_of` parse_path dest →
  ¬ parse_path dest `prefix_of` parse_path source →
  valid_below w (parse_path source) →
  resolve (entries w) (parse_path source) = inl DirNode →
  shallow w (parse_path source) fuel →
  ∃ err, result (exec machine_handler (CopyFolder fuel source dest) w) = Returned err.
Proof.
  revert source dest w. induction fuel as [|fuel IH];
    intros source dest w Hsd Hds Hvalid Hsrc Hshallow.
  { apply resolve_inl in Hsrc as [Hsrc _].
    rewrite <- (app_nil_r (parse_path source)) in Hsrc.
    apply Hshallow in Hsrc. simpl in Hsrc. lia. }
  set (ps := parse_path source) in *. set (pd := parse_path dest) in *.
  rewrite CopyFolder_unfold. step_invoke. cbn [machine_handler fst snd].
  fold pd.
  pose proof (mkdir_all_keeps (entries w) [] pd) as [Hsub _].
  pose proof (mkdir_all_frame (entries w) [] pd) as Hframe.
  destruct (mkdir_all (entries w) [] pd) as [[e|] m'] eqn:Hm; cbn [fst snd] in *;
    [by eexists|].
  set (w1 := set_entries m' w).
  assert (Hdirs1 : dirs_kept w w1).
  { intros k Hk. destruct (decide (k = [])) as [->|Hk0]; [done|].
    rewrite lookup_node_ne in * by done. by eapply lookup_weaken. }
  assert (Hout1 : outside_kept w w1 pd).
  { intros k _ Hk. by apply Hframe. }
  assert (Hsrc1 : resolve (entries w1) ps = inl DirNode).
  { rewrite <- (app_nil_r ps). apply (source_kept w w1 ps pd); [done..|].
    by rewrite app_nil_r. }
  assert (Hvalid1 : valid_below w1 ps).
  { intros rel n Hk. destruct (below_outside ps pd rel Hsd Hds) as [Ho1 Ho2].
    rewrite (Hout1 _ Ho1 Ho2) in Hk. by apply Hvalid in Hk. }
  assert (Hshallow1 : shallow w1 ps (S fuel)).
  { intros rel Hk. apply Hshallow.
    destruct (decide (ps ++ rel = [])) as [Hnil|Hne]; [by rewrite Hnil|].
    rewrite lookup_node_ne in * by done.
    destruct (below_outside ps pd rel Hsd Hds) as [Ho1 Ho2].
    by rewrite (Hout1 _ Ho1 Ho2) in Hk. }
  step_invoke. cbn [machine_handler]. fold ps. rewrite Hsrc1. cbn [fst snd].
  unfold Readdir. step_invoke. cbn [machine_handler file_name fst snd].
  fold ps. unfold read_dir. rewrite Hsrc1. unfold at_most. cbn [Z.leb Z.compare fst snd].
  apply (CopyFolder_range_returns (CopyFolder fuel) source dest w1 fuel IH
           (CopyFolder_machine fuel) Hsd Hds Hvalid1 Hsrc1 Hshallow1).
  - intros o Ho. by apply elem_of_child_infos.
  - by intros k _ _.
  - apply dirs_kept_refl.
Qed.

End machine_mirror.

Lemma valid_names_below (w : machine) (ps : list string) :
  valid_names w → valid_below w ps.
Proof.
  intros Hvalid rel n Hk. apply Hvalid in Hk. simpl in Hk.
  by apply Forall_app in Hk as [_ Hk].
Qed.



(** ** build-app.xml: loading and cleaning *)

Lemma expand_empty (props : gmap string string) (name : string) :
  Ant.equals (Ant.expand props name) "" = true ↔ props !! name = Some "".
Proof.
  unfold Ant.equals, Ant.expand. rewrite String.eqb_eq.
  destruct (props !! name) as [v|]; simpl; [|done].
  split; congruence.
Qed.





(** ** RemoveContents: the errors before the loop *)

(** X26: RemoveContents returns the error of opening the directory and
    calls nothing else then; it returns the error of reading the names,
    removes nothing then, and closes the directory. *)
Theorem RemoveContents_early_errors `{PathLib} {W : Type} (h : handler W) (w : W)
    (dir : string) :
  let r := exec h (RemoveContents dir) w in
  (∀ fo e, (h (os_Open dir) w).1 = (fo, Some e) →
     result r = Returned (Some e) ∧ trace r = [os_Open dir])
  ∧ (∀ f names e,
       (h (os_Open dir) w).1 = (Some f, None) →
       (h (File_Readdirnames f (-1)) (h (os_Open dir) w).2).1 = (names, Some e) →
       result r = Returned (Some e)
       ∧ trace r = [os_Open dir; File_Readdirnames f (-1); File_Close f]).
Proof.
  intros r. subst r. unfold RemoveContents.
  destruct (h (os_Open dir) w) as [[fo eo] w1] eqn:E1. split.
  - intros fo' e [= -> ->]. simpl. by rewrite E1.
  - intros f names e [= -> ->]. cbn [snd].
    destruct (h (File_Readdirnames f (-1)) w1) as [[names' er] w2] eqn:E2.
    intros [= -> ->]. simpl. rewrite E1. simpl. by rewrite E2.
Qed.

Lemma RemoveContents_early_errors_witness :
  (machine_handler (os_Open "missing") sample).1 = (None, Some ErrNotExist)
  ∧ trace (exec machine_handler (RemoveContents "missing") sample)
    = [os_Open "missing"].
Proof.
  split; [reflexivity|].
  destruct (RemoveContents_early_errors machine_handler sample "missing") as [Hopen _].
  exact (proj2 (Hopen None ErrNotExist eq_refl)).
Defined.

(** ** The functions over system calls *)

Section win_facts.
Context {W : Type} (h : Win.handler W).

(** X27: WriteToFile returns the error of the create call and copies
    nothing then; otherwise it copies the content once and returns the
    error of the copy, nil when there is none.  The file that the create
    call returned is closed last on every path, and no close is called
    on a nil file. *)
Theorem WriteToFile_calls (w : W) (name content : string) :
  let r := Win.exec h (Win.WriteToFile name content) w in
  let created := h (Win.os_Create name) w in
  let fo := created.1.1 in
  let closing := if fo is Some f then [Win.File_Close f] else [] in
  match created.1.2 with
  | Some e =>
      Win.result r = Win.Returned (Some e)
      ∧ Win.trace r = Win.os_Create name :: closing
  | None =>
      let copy := h (Win.io_Copy_NewReader fo content) created.2 in
      Win.result r = Win.Returned copy.1.2
      ∧ Win.trace r
        = [Win.os_Create name; Win.io_Copy_NewReader fo content] ++ closing
  end.
Proof.
  cbv zeta. unfold Win.WriteToFile. simpl.
  destruct (h (Win.os_Create name) w) as [[fo [e|]] w1]; simpl.
  - by destruct fo.
  - destruct (h (Win.io_Copy_NewReader fo content) w1) as [[n [e|]] w2]; simpl;
      by destruct fo.
Qed.

(** X28: SetConsoleTitle never returns a nil error.  Before the system
    call it returns the error that stopped it; after the system call it
    returns the call's Errno as the error, which is not nil even when the
    number is 0, together with the first result of the call read as a
    signed number.  The library is freed last whenever it was loaded,
    and not otherwise. *)
Theorem SetConsoleTitle_error_not_nil (bits : N) (w : W) (title : string) :
  let r := Win.exec h (Win.SetConsoleTitle bits title) w in
  let load := Win.syscall_LoadLibrary "kernel32.dll" in
  (∃ n e, Win.result r = Win.Returned (n, Some e))
  ∧ (∀ handle e, (h load w).1 = (handle, Some e) →
       Win.result r = Win.Returned (0%Z, Some e) ∧ Win.trace r = [load])
  ∧ (∀ handle, (h load w).1 = (handle, None) →
       last (Win.trace r) = Some (Win.syscall_FreeLibrary handle))
  ∧ (∀ handle proc rTitle,
       (h load w).1 = (handle, None) →
       let find := Win.syscall_GetProcAddress handle "SetConsoleTitleW" in
       (h find (h load w).2).1 = (proc, None) →
       let conv := Win.syscall_UTF16PtrFromString title in
       (h conv (h find (h load w).2).2).1 = (rTitle, None) →
       let sys := Win.syscall_Syscall proc 1%N rTitle 0%N 0%N in
       let out := (h sys (h conv (h find (h load w).2).2).2).1 in
       Win.result r
       = Win.Returned (Win.int_of_uintptr bits out.1.1, Some (Win.Errno out.2))
       ∧ Win.trace r = [load; find; conv; sys; Win.syscall_FreeLibrary handle]).
Proof.
  cbv zeta. unfold Win.SetConsoleTitle. simpl.
  destruct (h (Win.syscall_LoadLibrary "kernel32.dll") w) as [[handle [e|]] w1];
    simpl.
  { split; [by eexists _, _|]. split; [by intros ? ? [= -> ->]|].
    split; by intros. }
  destruct (h (Win.syscall_GetProcAddress handle "SetConsoleTitleW") w1)
    as [[proc [e|]] w2] eqn:E2; simpl.
  { split; [by eexists _, _|]. split; [by intros|].
    split; [by intros ? [= ->]|].
    intros handle0 proc0 rTitle0 [= <-]. rewrite E2. by intros. }
  destruct (h (Win.syscall_UTF16PtrFromString title) w2)
    as [[rTitle [e|]] w3] eqn:E3; simpl.
  { split; [by eexists _, _|]. split; [by intros|].
    split; [by intros ? [= ->]|].
    intros handle0 proc0 rTitle0 [= <-]. rewrite E2. simpl. intros [= <-].
    rewrite E3. by intros. }
  destruct (h (Win.syscall_Syscall proc 1%N rTitle 0%N 0%N) w3)
    as [[[r1 r2] errno] w4] eqn:E4; simpl.
  split; [by eexists _, _|]. split; [by intros|].
  split; [by intros ? [= ->]|].
  intros handle0 proc0 rTitle0 [= <-]. rewrite E2. simpl. intros [= <-].
  rewrite E3. simpl. intros [= <-]. by rewrite E4.
Qed.

(** X29: SetFileAttributes returns the error of converting the path and
    makes no system call then; otherwise it makes the system call once,
    with the attributes it was given, and returns what the call
    returned. *)
Theorem SetFileAttributes_calls (w : W) (path : string) (attrs : N) :
  let r := Win.exec h (Win.SetFileAttributes path attrs) w in
  let conv := h (Win.syscall_UTF16PtrFromString path) w in
  match conv.1.2 with
  | Some e =>
      Win.result r = Win.Returned (Some e)
      ∧ Win.trace r = [Win.syscall_UTF16PtrFromString path]
  | None =>
      let set := Win.syscall_SetFileAttributes conv.1.1 attrs in
      Win.result r = Win.Returned (h set conv.2).1
      ∧ Win.trace r = [Win.syscall_UTF16PtrFromString path; set]
  end.
Proof.
  cbv zeta. unfold Win.SetFileAttributes. simpl.
  by destruct (h (Win.syscall_UTF16PtrFromString path) w) as [[pointer [e|]] w1].
Qed.

(** X30: RawWinver asks with a struct whose size field is 148 and whose
    other fields are zero, and returns the major, minor and build fields
    as the call left them, whatever the call returned.  The DLL is
    released after the call, and also when the procedure is not found
    and the function panics; when the DLL cannot be loaded the function
    panics and releases nothing. *)
Theorem RawWinver_calls (w : W) :
  let r := Win.exec h Win.RawWinver w in
  let load := Win.windows_MustLoadDLL "ntoskrnl.exe" in
  match (h load w).1 with
  | inr v => Win.result r = Win.Panicked v ∧ Win.trace r = [load]
  | inl ntoskrnl =>
      let find := Win.DLL_MustFindProc ntoskrnl "RtlGetVersion" in
      match (h find (h load w).2).1 with
      | inr v =>
          Win.result r = Win.Panicked v
          ∧ Win.trace r = [load; find; Win.DLL_Release ntoskrnl]
      | inl proc =>
          let verStruct :=
            {| Win.dwOSVersionInfoSize := 148%N;
               Win.dwMajorVersion := 0%N;
               Win.dwMinorVersion := 0%N;
               Win.dwBuildNumber := 0%N;
               Win.dwPlatformId := 0%N;
               Win.szCSDVersion := replicate 128 0%N |} in
          let ask := Win.Proc_Call proc verStruct in
          let out := (h ask (h find (h load w).2).2).1.2 in
          Win.result r
          = Win.Returned (Win.dwMajorVersion out, Win.dwMinorVersion out,
                          Win.dwBuildNumber out)
          ∧ Win.trace r = [load; find; ask; Win.DLL_Release ntoskrnl]
      end
  end.
Proof.
  cbv zeta. unfold Win.RawWinver, Win.MustLoadDLL, Win.MustFindProc. simpl.
  destruct (h (Win.windows_MustLoadDLL "ntoskrnl.exe") w) as [[d|v] w1]; simpl;
    [|done].
  destruct (h (Win.DLL_MustFindProc d "RtlGetVersion") w1) as [[p|v] w2]; simpl;
    [|done].
  by destruct (h (Win.Proc_Call p _) w2) as [[rs out] w3].
Qed.

End win_facts.

Lemma SetConsoleTitle_error_not_nil_witness :
  (Win.system_handler (Win.syscall_LoadLibrary "kernel32.dll") Win.sample_system).1
  = (1%N, None)
  ∧ Win.result (Win.exec Win.system_handler (Win.SetConsoleTitle 64%N "portapps")
                  Win.sample_system)
    = Win.Returned (1%Z, Some (Win.Errno 0%N)).
Proof.
  split; [reflexivity|].
  destruct (SetConsoleTitle_error_not_nil Win.system_handler 64%N Win.sample_system
              "portapps") as (_ & _ & _ & Hcall).
  destruct (Hcall 1%N 2%N 3%N eq_refl eq_refl eq_refl) as [Hres _].
  exact (eq_trans Hres eq_refl).
Defined.
